(** * WorkloadCompactor: admission control, network calculus and the
      storage scheduler

    A shallow embedding of the parts of the WorkloadCompactor sources that
    the specification's properties talk about, followed by the properties
    themselves:

    - [Double]: C++ [double] as IEEE 754 binary64 ([PrimFloat]), with the
      comparison facts the proofs need;
    - [Scheduler]: [src/NFSEnforcer/scheduler.cpp];
    - [DNC]: the curve operators and the two latency analyses of
      [src/DNC-Library/DNC.cpp], over the topology of [NC];
    - [WorkloadCompactor]: [src/DNC-Library/WorkloadCompactor.cpp];
    - [AdmissionController]: [src/AdmissionController/AdmissionController.cpp].

    Conventions.  Unsigned integers are [Z] with the wrap-around written
    out where the source subtracts.  A C++ reference into a container is a
    read, a computation and a write back.  Undefined behaviour of the
    source (a null or dangling lookup, an index out of range) is [None]. *)

From Stdlib Require Import Floats ZArith List Bool Lia.
From stdpp Require Import gmap strings list sorting.

(** Decimal literals denote the nearest double, as they do in C++. *)
Set Warnings "-inexact-float".

(* ===================================================================== *)
(** * C++ doubles *)
(* ===================================================================== *)

Module Double.

(** [a > b] and [a >= b] of C++; [a < b], [a <= b] and [a == b] are
    [PrimFloat.ltb], [PrimFloat.leb] and [PrimFloat.eqb]. *)
Definition gtb (a b : float) : bool := (b <? a)%float.
Definition geb (a b : float) : bool := (b <=? a)%float.

(** [std::min(a, b)]: [(b < a) ? b : a]. *)
Definition std_min (a b : float) : float := if (b <? a)%float then b else a.

(** [(double)z] for an integer [z]: round to nearest, ties to even. *)
Definition of_Z (z : Z) : float := SF2Prim (binary_normalize prec emax z 0 false).

(** [uint64_t] arithmetic wraps. *)
Definition u64 (z : Z) : Z := z mod 2 ^ 64.

(** A number, as opposed to NaN. *)
Definition is_number (x : float) : Prop := is_nan x = false.

Ltac cmp_cases :=
  repeat match goal with
  | |- context [(?a ?= ?b)%Z] => destruct (Z.compare_spec a b); subst
  | H : context [(?a ?= ?b)%Z] |- _ => destruct (Z.compare_spec a b); subst
  | |- context [Pos.compare_cont Eq ?a ?b] =>
      change (Pos.compare_cont Eq a b) with (Pos.compare a b)
  | H : context [Pos.compare_cont Eq ?a ?b] |- _ =>
      change (Pos.compare_cont Eq a b) with (Pos.compare a b) in H
  | |- context [(?a ?= ?b)%positive] => destruct (Pos.compare_spec a b); subst
  | H : context [(?a ?= ?b)%positive] |- _ => destruct (Pos.compare_spec a b); subst
  end.

(** ** The order of the specification floats *)

Lemma SFcompare_antisym x y :
  SFcompare y x = option_map CompOpp (SFcompare x y).
Proof.
  destruct x as [sx|sx| |sx mx ex], y as [sy|sy| |sy my ey]; simpl; try reflexivity;
    try (destruct sx; reflexivity); try (destruct sy; reflexivity);
    try (destruct sx, sy; reflexivity).
  destruct sx, sy; simpl; try reflexivity;
    rewrite (Z.compare_antisym ex ey); destruct (ex ?= ey)%Z; simpl; try reflexivity;
    rewrite (Pos.compare_cont_antisym); simpl; try reflexivity.
  f_equal. destruct (Pos.compare_cont Eq mx my); reflexivity.
Qed.

Lemma SFcompare_trans x y z c1 c2 :
  SFcompare x y = Some c1 -> SFcompare y z = Some c2 ->
  (c1 = Eq -> SFcompare x z = Some c2) /\
  (c2 = Eq -> SFcompare x z = Some c1) /\
  (c1 = Lt -> c2 = Lt -> SFcompare x z = Some Lt).
Proof.
  destruct x as [sx|sx| |sx mx ex], y as [sy|sy| |sy my ey], z as [sz|sz| |sz mz ez];
    simpl; try discriminate;
    try (destruct sx); try (destruct sy); try (destruct sz); simpl;
    intros H1 H2; injection H1 as <-; injection H2 as <-;
    try (repeat split; intros; congruence);
    cmp_cases; simpl; repeat split; intros; try congruence; try lia.
Qed.

Lemma SFcompare_None x y :
  SFcompare x y = None <-> x = S754_nan \/ y = S754_nan.
Proof.
  destruct x as [sx|sx| |sx mx ex], y as [sy|sy| |sy my ey]; simpl;
    split; intros H; try discriminate; auto; destruct H; discriminate.
Qed.

Lemma SFcompare_refl x : x <> S754_nan -> SFcompare x x = Some Eq.
Proof.
  destruct x as [s|s| |s m e]; simpl; intros H; try congruence.
  - destruct s; reflexivity.
  - destruct s; rewrite Z.compare_refl;
      change (Pos.compare_cont Eq m m) with (Pos.compare m m);
      rewrite Pos.compare_refl; reflexivity.
Qed.

(** ** Comparisons of doubles *)

Lemma is_nan_spec x : is_nan x = true <-> Prim2SF x = S754_nan.
Proof.
  unfold is_nan. rewrite FloatAxioms.eqb_spec. unfold SFeqb. split.
  - intros H. destruct (Prim2SF x) as [s|s| |s m e] eqn:E; try reflexivity;
      rewrite SFcompare_refl in H by discriminate; discriminate.
  - intros ->. reflexivity.
Qed.

Lemma is_number_spec x : is_number x <-> Prim2SF x <> S754_nan.
Proof.
  unfold is_number. rewrite <- is_nan_spec. destruct (is_nan x); split; congruence.
Qed.

Lemma ltb_irrefl x : (x <? x)%float = false.
Proof.
  rewrite FloatAxioms.ltb_spec. unfold SFltb.
  destruct (SFcompare (Prim2SF x) (Prim2SF x)) as [[]|] eqn:E; try reflexivity.
  destruct (Prim2SF x) as [s|s| |s m e]; simpl in E; try discriminate.
  - destruct s; discriminate.
  - destruct s; rewrite Z.compare_refl in E;
      change (Pos.compare_cont Eq m m) with (Pos.compare m m) in E;
      rewrite Pos.compare_refl in E; discriminate.
Qed.

Lemma ltb_trans x y z :
  (x <? y)%float = true -> (y <? z)%float = true -> (x <? z)%float = true.
Proof.
  rewrite !FloatAxioms.ltb_spec. unfold SFltb. intros H1 H2.
  destruct (SFcompare (Prim2SF x) (Prim2SF y)) as [[]|] eqn:E1; try discriminate.
  destruct (SFcompare (Prim2SF y) (Prim2SF z)) as [[]|] eqn:E2; try discriminate.
  destruct (SFcompare_trans _ _ _ _ _ E1 E2) as (_ & _ & H). rewrite H; reflexivity.
Qed.

Lemma ltb_asym x y : (x <? y)%float = true -> (y <? x)%float = false.
Proof.
  rewrite !FloatAxioms.ltb_spec. unfold SFltb. rewrite (SFcompare_antisym (Prim2SF x) (Prim2SF y)).
  destruct (SFcompare (Prim2SF x) (Prim2SF y)) as [[]|]; simpl; congruence.
Qed.

(** [a <= b] excludes [a > b]. *)
Lemma leb_not_gtb a b : (a <=? b)%float = true -> gtb a b = false.
Proof.
  unfold gtb. rewrite FloatAxioms.leb_spec, FloatAxioms.ltb_spec. unfold SFleb, SFltb.
  rewrite (SFcompare_antisym (Prim2SF a) (Prim2SF b)).
  destruct (SFcompare (Prim2SF a) (Prim2SF b)) as [[]|]; simpl; congruence.
Qed.

(** On numbers, "not [a <= b]" is [a > b]. *)
Lemma not_leb_gtb a b :
  is_number a -> is_number b -> (a <=? b)%float = false -> gtb a b = true.
Proof.
  unfold gtb. rewrite !is_number_spec, FloatAxioms.leb_spec, FloatAxioms.ltb_spec. unfold SFleb, SFltb.
  intros Ha Hb. rewrite (SFcompare_antisym (Prim2SF a) (Prim2SF b)).
  destruct (SFcompare (Prim2SF a) (Prim2SF b)) as [[]|] eqn:E; simpl; try congruence.
  apply SFcompare_None in E. tauto.
Qed.

(** On numbers, "not [a < b]" is [b <= a]. *)
Lemma not_ltb_leb a b :
  is_number a -> is_number b -> (a <? b)%float = false <-> (b <=? a)%float = true.
Proof.
  rewrite !is_number_spec, FloatAxioms.leb_spec, FloatAxioms.ltb_spec. unfold SFleb, SFltb.
  intros Ha Hb. rewrite (SFcompare_antisym (Prim2SF a) (Prim2SF b)).
  destruct (SFcompare (Prim2SF a) (Prim2SF b)) as [[]|] eqn:E; simpl;
    split; try congruence.
  apply SFcompare_None in E. tauto.
Qed.

(** Two numbers are ordered or equal ([==]). *)
Lemma ltb_total a b :
  is_number a -> is_number b ->
  (a <? b)%float = true \/ (a =? b)%float = true \/ (b <? a)%float = true.
Proof.
  rewrite !is_number_spec, FloatAxioms.eqb_spec, !FloatAxioms.ltb_spec. unfold SFeqb, SFltb.
  intros Ha Hb. rewrite (SFcompare_antisym (Prim2SF a) (Prim2SF b)).
  destruct (SFcompare (Prim2SF a) (Prim2SF b)) as [[]|] eqn:E; simpl; auto.
  apply SFcompare_None in E. tauto.
Qed.

(** Whatever is below or above something is a number. *)
Lemma ltb_is_number a b : (a <? b)%float = true -> is_number a /\ is_number b.
Proof.
  rewrite !is_number_spec, FloatAxioms.ltb_spec. unfold SFltb.
  destruct (SFcompare (Prim2SF a) (Prim2SF b)) as [[]|] eqn:E; try discriminate.
  intros _. split; intros H; rewrite H in E;
    [ | destruct (Prim2SF a) ]; discriminate.
Qed.



(** ** Equality ([==]) of doubles *)

(** The value of a double up to the sign of zero: two numbers are [==]
    exactly when they have the same value. *)
Definition unsignedZero (v : spec_float) : spec_float :=
  match v with
  | S754_zero _ => S754_zero false
  | _ => v
  end.
Definition valueOf (x : float) : spec_float := unsignedZero (Prim2SF x).

Lemma SFcompare_Eq x y :
  SFcompare x y = Some Eq <->
  x <> S754_nan /\ y <> S754_nan /\ unsignedZero x = unsignedZero y.
Proof.
  unfold unsignedZero. split.
  - destruct x as [sx|sx| |sx mx ex], y as [sy|sy| |sy my ey]; simpl;
      try discriminate;
      try (destruct sx); try (destruct sy); try discriminate;
      try (intros _; repeat split; discriminate);
      cmp_cases; try discriminate; intros _; repeat split; discriminate.
  - intros (Hx & Hy & E).
    destruct x as [sx|sx| |sx mx ex], y as [sy|sy| |sy my ey]; try congruence;
      try discriminate E; try reflexivity.
    + injection E as ->. destruct sy; reflexivity.
    + injection E as -> -> ->. simpl. rewrite Z.compare_refl.
      change (Pos.compare_cont Eq my my) with (Pos.compare my my).
      rewrite Pos.compare_refl. destruct sy; reflexivity.
Qed.

Lemma eqb_valueOf a b :
  (a =? b)%float = true <-> is_number a /\ is_number b /\ valueOf a = valueOf b.
Proof.
  rewrite FloatAxioms.eqb_spec. unfold SFeqb, valueOf.
  pose proof (SFcompare_Eq (Prim2SF a) (Prim2SF b)) as [H1 H2].
  pose proof (is_number_spec a) as [Ha1 Ha2].
  pose proof (is_number_spec b) as [Hb1 Hb2].
  split.
  - intros H. destruct (SFcompare (Prim2SF a) (Prim2SF b)) as [[]|]; try discriminate H.
    destruct (H1 eq_refl) as (Ha & Hb & E).
    split; [exact (Ha2 Ha) | split; [exact (Hb2 Hb) | exact E]].
  - intros (Ha & Hb & E). rewrite H2; [reflexivity|].
    split; [exact (Ha1 Ha) | split; [exact (Hb1 Hb) | exact E]].
Qed.

Lemma eqb_refl a : is_number a -> (a =? a)%float = true.
Proof. intros H. apply eqb_valueOf. auto. Qed.

(** [<] does not tell apart doubles of the same value. *)
Lemma valueOf_ltb_l a b c :
  is_number a -> is_number b -> valueOf a = valueOf b ->
  (a <? c)%float = (b <? c)%float.
Proof.
  intros Ha Hb Hv. assert (E : (a =? b)%float = true) by (apply eqb_valueOf; auto).
  rewrite FloatAxioms.eqb_spec in E. rewrite !FloatAxioms.ltb_spec. unfold SFeqb in E.
  unfold SFltb.
  destruct (SFcompare (Prim2SF a) (Prim2SF b)) as [[]|] eqn:Eab; try discriminate.
  destruct (SFcompare (Prim2SF b) (Prim2SF c)) as [cbc|] eqn:Ebc.
  - destruct (SFcompare_trans _ _ _ _ _ Eab Ebc) as (H & _). rewrite (H eq_refl).
    reflexivity.
  - apply SFcompare_None in Ebc. apply is_number_spec in Hb.
    destruct Ebc as [?|Hc]; [tauto|].
    assert (E' : SFcompare (Prim2SF a) (Prim2SF c) = None)
      by (apply SFcompare_None; auto).
    rewrite E'. reflexivity.
Qed.

Lemma valueOf_ltb_r a b c :
  is_number a -> is_number b -> valueOf a = valueOf b ->
  (c <? a)%float = (c <? b)%float.
Proof.
  intros Ha Hb Hv. assert (E : (a =? b)%float = true) by (apply eqb_valueOf; auto).
  rewrite FloatAxioms.eqb_spec in E. rewrite !FloatAxioms.ltb_spec. unfold SFeqb in E.
  unfold SFltb.
  destruct (SFcompare (Prim2SF a) (Prim2SF b)) as [[]|] eqn:Eab; try discriminate.
  destruct (SFcompare (Prim2SF c) (Prim2SF a)) as [cca|] eqn:Eca.
  - destruct (SFcompare_trans _ _ _ _ _ Eca Eab) as (_ & H & _). rewrite (H eq_refl).
    reflexivity.
  - apply SFcompare_None in Eca. apply is_number_spec in Ha.
    destruct Eca as [Hc|?]; [|tauto].
    assert (E' : SFcompare (Prim2SF c) (Prim2SF b) = None)
      by (apply SFcompare_None; auto).
    rewrite E'. reflexivity.
Qed.

(** Two numbers that [<] does not order have the same value. *)
Lemma not_ltb_valueOf a b :
  is_number a -> is_number b ->
  (a <? b)%float = false -> (b <? a)%float = false -> valueOf a = valueOf b.
Proof.
  intros Ha Hb H1 H2. destruct (ltb_total a b Ha Hb) as [H|[H|H]]; try congruence.
  apply eqb_valueOf in H. tauto.
Qed.

(** Doubles that [<] orders differ in value. *)
Lemma ltb_valueOf a b : (a <? b)%float = true -> valueOf a <> valueOf b.
Proof.
  intros H E. destruct (ltb_is_number _ _ H) as [Ha Hb].
  rewrite (valueOf_ltb_l a b b Ha Hb E), ltb_irrefl in H. discriminate.
Qed.

(** ** The sign of a difference *)

(** A finite non-negative number: what a rate is. *)
Definition rate (x : float) : Prop :=
  (0 <=? x)%float = true /\ (x <? infinity)%float = true.























End Double.

(* ===================================================================== *)
(** * Ordered containers and loops that can fail *)
(* ===================================================================== *)

Module Containers.

(** [std::map] and [std::set] with integer keys iterate in increasing
    order of the keys. *)
Definition sortedElements (s : gset Z) : list Z := merge_sort Z.le (elements s).
Definition sortedKeys {A} (m : gmap Z A) : list Z := sortedElements (dom m).

(** Splits a conjunction into its conjuncts, and nothing else. *)
Ltac conjuncts := repeat match goal with |- _ /\ _ => split end.

(** A loop whose body can fail: the first failure ends it. *)
Fixpoint foldM {A B} (f : B -> A -> option B) (l : list A) (acc : B) : option B :=
  match l with
  | [] => Some acc
  | a :: l => match f acc a with
              | Some acc => foldM f l acc
              | None => None
              end
  end.

Lemma sortedElements_spec (s : gset Z) k : k ∈ sortedElements s <-> k ∈ s.
Proof. unfold sortedElements. rewrite merge_sort_Permutation. apply elem_of_elements. Qed.

Lemma sortedElements_NoDup (s : gset Z) : NoDup (sortedElements s).
Proof. unfold sortedElements. rewrite merge_sort_Permutation. apply NoDup_elements. Qed.

Lemma sortedKeys_spec {A} (m : gmap Z A) k : k ∈ sortedKeys m <-> is_Some (m !! k).
Proof. unfold sortedKeys. rewrite sortedElements_spec. apply elem_of_dom. Qed.

Lemma sortedKeys_NoDup {A} (m : gmap Z A) : NoDup (sortedKeys m).
Proof. apply sortedElements_NoDup. Qed.

(** A loop that fails nowhere and keeps an invariant keeps it to the end. *)
Lemma foldM_invariant {A B} (P : B -> Prop) (f : B -> A -> option B) l :
  (forall acc a acc', P acc -> f acc a = Some acc' -> P acc') ->
  forall acc acc', P acc -> foldM f l acc = Some acc' -> P acc'.
Proof.
  intros Hf. induction l as [|a l IH]; simpl; intros acc acc' HP H.
  - congruence.
  - destruct (f acc a) as [acc1|] eqn:E; [|discriminate]. eauto.
Qed.

End Containers.

(* ===================================================================== *)
(** * The storage scheduler ([src/NFSEnforcer/scheduler.cpp]) *)
(* ===================================================================== *)

Module Scheduler.
Import Double Containers.

(** ** Data ([scheduler.hpp]) *)

(** [Job::rq_proc], as far as the scheduler looks at it. *)
Inductive rpcproc := NFSPROC3_READ | NFSPROC3_WRITE | NFSPROC3_OTHER.

(** The scheduler's view of a [Job]: the NFS arguments, the transport
    handle and the sequence numbers of the starvation guard are left out. *)
Record Job := {
  rq_proc : rpcproc;
  s_addr : Z;                  (* unsigned long *)
  immediate : bool;
  requestSize : Z;             (* int *)
  arrivalTime : Z;             (* uint64_t *)
  jobSize : float;
  job_rateLimitObeyed : bool;  (* Job::rateLimitObeyed *)
}.

Definition IsReadRequest (j : Job) : bool :=
  match rq_proc j with NFSPROC3_READ => true | _ => false end.
Definition IsWriteRequest (j : Job) : bool :=
  match rq_proc j with NFSPROC3_WRITE => true | _ => false end.

(** One token bucket: entry [i] of the three arrays [rateLimitRates],
    [rateLimitBursts] and [rateLimitTokens], which the source always
    allocates with [rateLimitLength] entries each. *)
Record Bucket := { rate : float; burst : float; token : float }.

Record Client := {
  pendingJobs : list Job;
  priority : Z;                (* unsigned int *)
  rateLimits : list Bucket;
  rateLimitUpdateTime : Z;     (* uint64_t *)
  rateLimitObeyed : bool;
  occupancy : Z;               (* uint64_t *)
  lastOccupancyTime : Z;       (* uint64_t *)
  getOccupancyTime : Z;        (* uint64_t *)
}.

Definition rateLimitLength (c : Client) : Z := Z.of_nat (length (rateLimits c)).

(** The part of [Scheduler] that queueing and arbitration use. *)
Record Scheduler := {
  _clients : gmap Z Client;    (* map<unsigned long, Client> *)
  _pendingJobCount : Z;
}.

Definition PREFER_1 : Z := 1.
Definition PREFER_EQUAL : Z := 0.
Definition PREFER_2 : Z := -1.

(** Field updates. *)
Definition set_pendingJobs (l : list Job) (c : Client) : Client :=
  {| pendingJobs := l; priority := priority c; rateLimits := rateLimits c;
     rateLimitUpdateTime := rateLimitUpdateTime c; rateLimitObeyed := rateLimitObeyed c;
     occupancy := occupancy c; lastOccupancyTime := lastOccupancyTime c;
     getOccupancyTime := getOccupancyTime c |}.
Definition set_rateLimits (l : list Bucket) (c : Client) : Client :=
  {| pendingJobs := pendingJobs c; priority := priority c; rateLimits := l;
     rateLimitUpdateTime := rateLimitUpdateTime c; rateLimitObeyed := rateLimitObeyed c;
     occupancy := occupancy c; lastOccupancyTime := lastOccupancyTime c;
     getOccupancyTime := getOccupancyTime c |}.
Definition set_rateLimitUpdateTime (t : Z) (c : Client) : Client :=
  {| pendingJobs := pendingJobs c; priority := priority c; rateLimits := rateLimits c;
     rateLimitUpdateTime := t; rateLimitObeyed := rateLimitObeyed c;
     occupancy := occupancy c; lastOccupancyTime := lastOccupancyTime c;
     getOccupancyTime := getOccupancyTime c |}.
Definition set_rateLimitObeyed (b : bool) (c : Client) : Client :=
  {| pendingJobs := pendingJobs c; priority := priority c; rateLimits := rateLimits c;
     rateLimitUpdateTime := rateLimitUpdateTime c; rateLimitObeyed := b;
     occupancy := occupancy c; lastOccupancyTime := lastOccupancyTime c;
     getOccupancyTime := getOccupancyTime c |}.
Definition set_occupancy (o : Z) (c : Client) : Client :=
  {| pendingJobs := pendingJobs c; priority := priority c; rateLimits := rateLimits c;
     rateLimitUpdateTime := rateLimitUpdateTime c; rateLimitObeyed := rateLimitObeyed c;
     occupancy := o; lastOccupancyTime := lastOccupancyTime c;
     getOccupancyTime := getOccupancyTime c |}.
Definition set_lastOccupancyTime (t : Z) (c : Client) : Client :=
  {| pendingJobs := pendingJobs c; priority := priority c; rateLimits := rateLimits c;
     rateLimitUpdateTime := rateLimitUpdateTime c; rateLimitObeyed := rateLimitObeyed c;
     occupancy := occupancy c; lastOccupancyTime := t;
     getOccupancyTime := getOccupancyTime c |}.
Definition set_getOccupancyTime (t : Z) (c : Client) : Client :=
  {| pendingJobs := pendingJobs c; priority := priority c; rateLimits := rateLimits c;
     rateLimitUpdateTime := rateLimitUpdateTime c; rateLimitObeyed := rateLimitObeyed c;
     occupancy := occupancy c; lastOccupancyTime := lastOccupancyTime c;
     getOccupancyTime := t |}.
Definition set_priority (p : Z) (c : Client) : Client :=
  {| pendingJobs := pendingJobs c; priority := p; rateLimits := rateLimits c;
     rateLimitUpdateTime := rateLimitUpdateTime c; rateLimitObeyed := rateLimitObeyed c;
     occupancy := occupancy c; lastOccupancyTime := lastOccupancyTime c;
     getOccupancyTime := getOccupancyTime c |}.
Definition set_token (t : float) (b : Bucket) : Bucket :=
  {| rate := rate b; burst := burst b; token := t |}.

Section WithEnvironment.

(** [common/time.hpp] and the estimator are not part of the scheduler:
    the conversion of a time difference to seconds and the work estimate of
    a read or write are parameters.  The clock ([GetTime()]) is an argument
    of every operation that reads it, one argument per read. *)
Variable ConvertTimeToSeconds : Z -> float.
Variable estimateWork : Z -> bool -> float.

(** ** [Scheduler::GetClient] *)

(** The client that [GetClient] creates for an unknown address. *)
Definition newClient (now : Z) : Client :=
  {| pendingJobs := []; priority := 0; rateLimits := [];
     rateLimitUpdateTime := 0; rateLimitObeyed := false;
     occupancy := 0; lastOccupancyTime := now; getOccupancyTime := now |}.

Definition GetClient (clients : gmap Z Client) (addr : Z) (now : Z)
  : gmap Z Client * Client :=
  match clients !! addr with
  | Some c => (clients, c)
  | None => (<[addr := newClient now]> clients, newClient now)
  end.

(** ** [Scheduler::UpdateClient]

    [limits] are the [rateLimitLength] pairs
    [(rateLimitRates[i], rateLimitBursts[i])] of the call. *)
Definition UpdateClient (s : Scheduler) (addr : Z) (prio : Z)
    (limits : list (float * float)) (tGet : Z) : Scheduler :=
  let '(clients, c) := GetClient (_clients s) addr tGet in
  let c := set_priority prio c in
  let c := set_rateLimits
             (map (fun rb => {| rate := fst rb; burst := snd rb; token := snd rb |}) limits) c in
  let c := set_rateLimitObeyed false c in
  {| _clients := <[addr := c]> clients; _pendingJobCount := _pendingJobCount s |}.

(** ** [Scheduler::GetOccupancy] *)
Definition GetOccupancy (s : Scheduler) (addr : Z) (tGet now : Z) : Scheduler * float :=
  let '(clients, c) := GetClient (_clients s) addr tGet in
  let occupancyTime := occupancy c in
  let occupancyTime :=
    match pendingJobs c with
    | [] => occupancyTime
    | _ :: _ => u64 (occupancyTime + u64 (now - lastOccupancyTime c))
    end in
  let result := (of_Z occupancyTime / of_Z (u64 (now - getOccupancyTime c)))%float in
  let c := set_occupancy (u64 (occupancy c - occupancyTime)) c in
  let c := set_getOccupancyTime now c in
  ({| _clients := <[addr := c]> clients; _pendingJobCount := _pendingJobCount s |}, result).

(** ** [Scheduler::GetNumPendingJobs] *)
Definition GetNumPendingJobs (s : Scheduler) (addr : Z) (tGet : Z) : Scheduler * Z :=
  let '(clients, c) := GetClient (_clients s) addr tGet in
  ({| _clients := clients; _pendingJobCount := _pendingJobCount s |},
   Z.of_nat (length (pendingJobs c))).

(** ** [Scheduler::EstimateJobSize], [AddJob] and [SubmitJob] *)
Definition EstimateJobSize (j : Job) : float :=
  if negb (IsReadRequest j) && negb (IsWriteRequest j) then 0%float
  else estimateWork (requestSize j) (IsReadRequest j).

Definition AddJob (s : Scheduler) (j : Job) (now tGet : Z) : Scheduler :=
  let '(clients, c) := GetClient (_clients s) (s_addr j) tGet in
  let j := {| rq_proc := rq_proc j; s_addr := s_addr j; immediate := immediate j;
              requestSize := requestSize j; arrivalTime := now;
              jobSize := EstimateJobSize j;
              job_rateLimitObeyed := job_rateLimitObeyed j |} in
  let c := match pendingJobs c with
           | [] => set_lastOccupancyTime now c
           | _ :: _ => c
           end in
  let c := set_pendingJobs (pendingJobs c ++ [j]) c in
  {| _clients := <[s_addr j := c]> clients; _pendingJobCount := _pendingJobCount s + 1 |}.

Definition SubmitJob (s : Scheduler) (j : Job) (now tGet : Z) : Scheduler :=
  AddJob s j now tGet.

(** ** [Scheduler::CompareClient]

    The source falls through from one check to the next; the checks that
    can be fallen into are named here, last one first. *)
Definition CompareClient (c1 c2 : Client) : Z :=
  match pendingJobs c1, pendingJobs c2 with
  | [], [] => PREFER_EQUAL
  | [], _ :: _ => PREFER_2
  | _ :: _, [] => PREFER_1
  | pJob1 :: _, pJob2 :: _ =>
    (* FCFS on the head jobs *)
    let fcfs :=
      if (arrivalTime pJob1 <? arrivalTime pJob2)%Z then PREFER_1
      else if (arrivalTime pJob1 >? arrivalTime pJob2)%Z then PREFER_2
      else PREFER_EQUAL in
    (* rate limits, and priority when both are within them *)
    let limits :=
      if rateLimitObeyed c1 then
        if rateLimitObeyed c2 then
          if (priority c1 <? priority c2)%Z then PREFER_1
          else if (priority c1 >? priority c2)%Z then PREFER_2
          else fcfs
        else PREFER_1
      else if rateLimitObeyed c2 then PREFER_2
      else fcfs in
    (* immediate flag *)
    if immediate pJob1 then
      if negb (immediate pJob2) then PREFER_1 else limits
    else if immediate pJob2 then PREFER_2
    else limits
  end.

(** ** [Scheduler::UpdateTokens] *)

(** [tokens[i] += elapsedTime * rates[i]], then the cap at [bursts[i]]. *)
Definition refillCapped (elapsedTime : float) (b : Bucket) : Bucket :=
  let t := (token b + elapsedTime * rate b)%float in
  set_token (if gtb t (burst b) then burst b else t) b.

(** [tokens[i] += elapsedTime * rates[i]], no cap. *)
Definition refill (elapsedTime : float) (b : Bucket) : Bucket :=
  set_token (token b + elapsedTime * rate b)%float b.

Definition UpdateTokens (c : Client) (now : Z) : Client :=
  match pendingJobs c with
  | [] => c
  | pJob :: _ =>
    if rateLimitObeyed c then c
    else
      (* burst-limited refill for the time the queue was empty *)
      let c :=
        if (rateLimitUpdateTime c <? lastOccupancyTime c)%Z then
          let elapsedTime :=
            ConvertTimeToSeconds (u64 (lastOccupancyTime c - rateLimitUpdateTime c)) in
          set_rateLimitUpdateTime (lastOccupancyTime c)
            (set_rateLimits (map (refillCapped elapsedTime) (rateLimits c)) c)
        else c in
      (* refill without burst limit for the time the queue is non empty *)
      let elapsedTime := ConvertTimeToSeconds (u64 (now - rateLimitUpdateTime c)) in
      let c := set_rateLimitUpdateTime now c in
      let c := set_rateLimits (map (refill elapsedTime) (rateLimits c)) c in
      set_rateLimitObeyed
        (forallb (fun b => negb (gtb (jobSize pJob) (token b))) (rateLimits c)) c
  end.

(** ** [Scheduler::RemoveJob]

    [addr] names the client the source passes by reference. *)

(** [tokens[i] -= jobSize], floored at 0. *)
Definition charge (size : float) (b : Bucket) : Bucket :=
  let t := (token b - size)%float in
  set_token (if (t <? 0)%float then 0%float else t) b.

Definition RemoveJob (s : Scheduler) (addr : Z) (now : Z) : option (Scheduler * Job) :=
  match _clients s !! addr with
  | None => None
  | Some c =>
    match pendingJobs c with
    | [] => None                               (* assert(!c.pendingJobs.empty()) *)
    | pJob :: rest =>
      let c := set_pendingJobs rest c in
      let c := match rest with
               | [] => set_occupancy (u64 (occupancy c + u64 (now - lastOccupancyTime c))) c
               | _ :: _ => c
               end in
      if geb (jobSize pJob) 0 then             (* assert(pJob->jobSize >= 0) *)
        let pJob := {| rq_proc := rq_proc pJob; s_addr := s_addr pJob;
                       immediate := immediate pJob; requestSize := requestSize pJob;
                       arrivalTime := arrivalTime pJob; jobSize := jobSize pJob;
                       job_rateLimitObeyed := rateLimitObeyed c |} in
        let c := set_rateLimits (map (charge (jobSize pJob)) (rateLimits c)) c in
        let c := set_rateLimitObeyed false c in
        Some ({| _clients := <[addr := c]> (_clients s);
                 _pendingJobCount := _pendingJobCount s - 1 |}, pJob)
      else None
    end
  end.

(** ** [Scheduler::FindBestClient]

    [std::map] iterates in increasing key order. *)
Definition clientKeys (clients : gmap Z Client) : list Z := sortedKeys clients.

(** One turn of the loop: [UpdateTokens(it->second, now)], then the
    comparison with the best client so far. *)
Definition FindBestClient_step (now : Z) (acc : gmap Z Client * Z) (it : Z)
  : gmap Z Client * Z :=
  let '(clients, best) := acc in
  match clients !! it with
  | None => acc
  | Some c =>
    let c := UpdateTokens c now in
    let clients := <[it := c]> clients in
    match clients !! best with
    | None => (clients, best)
    | Some b => if (CompareClient c b >? 0)%Z then (clients, it) else (clients, best)
    end
  end.

(** The address of the best client, with the clients as the loop leaves
    them; [None] when there is no client ([begin()] is [end()]). *)
Definition FindBestClient (s : Scheduler) (now : Z) : option (Scheduler * Z) :=
  let keys := clientKeys (_clients s) in
  match keys with
  | [] => None
  | first :: _ =>
    let '(clients, best) := fold_left (FindBestClient_step now) keys (_clients s, first) in
    Some ({| _clients := clients; _pendingJobCount := _pendingJobCount s |}, best)
  end.

End WithEnvironment.

(** ** The arbitration order, as the specification words it *)

(** The tenant for which a criterion holds beats the one for which it does
    not. *)
Definition prefer (b1 b2 : bool) : Z :=
  match b1, b2 with
  | true, false => PREFER_1
  | false, true => PREFER_2
  | _, _ => PREFER_EQUAL
  end.

Definition preferSmaller (x y : Z) : Z :=
  if (x <? y)%Z then PREFER_1 else if (y <? x)%Z then PREFER_2 else PREFER_EQUAL.

(** Lexicographic combination: the later criterion decides only when the
    earlier one does not. *)
Definition orElse (a b : Z) : Z := if (a =? PREFER_EQUAL)%Z then b else a.

Definition nonEmpty (c : Client) : bool :=
  match pendingJobs c with [] => false | _ :: _ => true end.
Definition headImmediate (c : Client) : bool :=
  match pendingJobs c with [] => false | j :: _ => immediate j end.
Definition headArrival (c : Client) : Z :=
  match pendingJobs c with [] => 0 | j :: _ => arrivalTime j end.

(** 1. non-empty queue; 2. immediate head job; 3. within rate limits, and
    the smaller priority when both are; 4. FCFS on the head job's arrival.
    Criteria 2 to 4 are about head jobs: they apply to two non-empty
    queues. *)
Definition arbitrationOrder (c1 c2 : Client) : Z :=
  orElse (prefer (nonEmpty c1) (nonEmpty c2))
    (if nonEmpty c1 && nonEmpty c2 then
       orElse (prefer (headImmediate c1) (headImmediate c2))
      (orElse (prefer (rateLimitObeyed c1) (rateLimitObeyed c2))
      (orElse (if rateLimitObeyed c1 && rateLimitObeyed c2
               then preferSmaller (priority c1) (priority c2)
               else PREFER_EQUAL)
              (preferSmaller (headArrival c1) (headArrival c2))))
     else PREFER_EQUAL).

(** ** The token-bucket refill, as the specification words it *)

(** Bucket [k] is refilled at [rate k] from the last update to the
    empty-to-nonempty timestamp [t_e = lastOccupancyTime], capped at
    [burst k]; then, without a cap, from [max(lastUpdate, t_e)] to [now]. *)
Definition spec_refill (secs : Z -> float) (c : Client) (now : Z) (b : Bucket) : float :=
  let lastUpdate := rateLimitUpdateTime c in
  let t_e := lastOccupancyTime c in
  let capped :=
    if (lastUpdate <? t_e)%Z then
      let t := (token b + secs (u64 (t_e - lastUpdate)) * rate b)%float in
      if gtb t (burst b) then burst b else t
    else token b in
  (capped + secs (u64 (now - Z.max lastUpdate t_e)) * rate b)%float.

(** The head job's size is covered by bucket [b]. *)
Definition covers (size : float) (b : Bucket) : bool := negb (gtb size (token b)).

(** Nanoseconds to seconds, for the examples. *)
Definition nsToSeconds (t : Z) : float := (of_Z t / 1000000000)%float.

(** Work is counted in bytes in the examples. *)
Definition bytesOfWork (size : Z) (isRead : bool) : float := of_Z size.

(** ** A run of the scheduler, for the examples

    Tenants 1 (priority 0) and 2 (priority 1) each get one bucket of rate
    1 per second and burst 8, and each submits a one-byte read at second 1.
    The first scheduling step, at second 2, picks tenant 1, whose job is
    dispatched.  A second step follows at second 4. *)
Definition second : Z := 1000000000.
Definition readJob (addr : Z) : Job :=
  {| rq_proc := NFSPROC3_READ; s_addr := addr; immediate := false; requestSize := 1;
     arrivalTime := 0; jobSize := 0; job_rateLimitObeyed := false |}.
Definition run0 : Scheduler := {| _clients := ∅; _pendingJobCount := 0 |}.
Definition run1 : Scheduler :=
  UpdateClient (UpdateClient run0 1 0 [(1, 8)%float] 0) 2 1 [(1, 8)%float] 0.
Definition run2 : Scheduler :=
  SubmitJob bytesOfWork (SubmitJob bytesOfWork run1 (readJob 1) second second)
    (readJob 2) second second.
Definition run3 : option (Scheduler * Z) := FindBestClient nsToSeconds run2 (2 * second).
Definition run4 : option (Scheduler * Job) :=
  match run3 with
  | Some (s, best) => RemoveJob s best (2 * second)
  | None => None
  end.
Definition run5 : option (Scheduler * Z) :=
  match run4 with
  | Some (s, _) => FindBestClient nsToSeconds s (4 * second)
  | None => None
  end.

(** ** Properties of the scheduler *)

Section Properties.
Variable ConvertTimeToSeconds : Z -> float.

(** C7.  For every pair of tenants, [CompareClient] is the lexicographic
    arbitration order of the specification: a non-empty queue beats an
    empty one; then an immediate head job beats a non-immediate one; then
    a tenant within its rate limits beats one outside, the smaller
    priority number winning when both are within and priorities being
    ignored otherwise; remaining ties go to the earlier head-job arrival. *)
Theorem CompareClient_arbitration_order (c1 c2 : Client) :
  CompareClient c1 c2 = arbitrationOrder c1 c2.
Proof.
  unfold CompareClient, arbitrationOrder, nonEmpty, headImmediate, headArrival,
    preferSmaller.
  destruct (pendingJobs c1) as [|j1 l1], (pendingJobs c2) as [|j2 l2]; try reflexivity.
  destruct (immediate j1), (immediate j2),
    (rateLimitObeyed c1), (rateLimitObeyed c2); simpl; try reflexivity;
    rewrite ?Z.gtb_ltb;
    repeat match goal with
    | |- context [(?a <? ?b)%Z] => destruct (Z.ltb_spec a b)
    end; simpl; try reflexivity; try lia.
Qed.

(** Swapping the tenants swaps the verdict. *)
Lemma CompareClient_antisym (c1 c2 : Client) :
  CompareClient c2 c1 = (- CompareClient c1 c2)%Z.
Proof.
  unfold CompareClient.
  destruct (pendingJobs c1) as [|j1 l1], (pendingJobs c2) as [|j2 l2]; try reflexivity.
  destruct (immediate j1), (immediate j2),
    (rateLimitObeyed c1), (rateLimitObeyed c2); simpl; try reflexivity;
    rewrite ?Z.gtb_ltb;
    repeat match goal with
    | |- context [(?a <? ?b)%Z] => destruct (Z.ltb_spec a b)
    end; simpl; try reflexivity; try lia.
Qed.

(** What the loop of [FindBestClient] does to the table of clients. *)
Lemma FindBestClient_step_clients now m best it :
  (FindBestClient_step ConvertTimeToSeconds now (m, best) it).1 =
  match m !! it with
  | Some c => <[it := UpdateTokens ConvertTimeToSeconds c now]> m
  | None => m
  end.
Proof.
  unfold FindBestClient_step. destruct (m !! it) as [c|]; [|reflexivity].
  destruct (<[it:=_]> m !! best) as [b|]; [|reflexivity].
  destruct (_ >? 0)%Z; reflexivity.
Qed.

Lemma FindBestClient_fold_clients now keys :
  NoDup keys -> forall m best k,
  (fold_left (FindBestClient_step ConvertTimeToSeconds now) keys (m, best)).1 !! k =
  if decide (k ∈ keys)
  then (fun c => UpdateTokens ConvertTimeToSeconds c now) <$> m !! k
  else m !! k.
Proof.
  induction 1 as [|it keys Hnotin Hnd IH]; intros m best k; cbn [fold_left].
  - reflexivity.
  - destruct (FindBestClient_step ConvertTimeToSeconds now (m, best) it) as [m1 best1] eqn:E.
    pose proof (FindBestClient_step_clients now m best it) as Hm1. rewrite E in Hm1.
    simpl in Hm1. rewrite IH. subst m1.
    destruct (decide (k = it)) as [->|Hne].
    + rewrite decide_False by assumption. rewrite decide_True by (left; reflexivity).
      destruct (m !! it) as [c|] eqn:Ec; [rewrite lookup_insert_eq|rewrite Ec]; reflexivity.
    + assert (Hm : (match m !! it with
                    | Some c => <[it:=UpdateTokens ConvertTimeToSeconds c now]> m
                    | None => m end) !! k = m !! k).
      { destruct (m !! it); [apply lookup_insert_ne; congruence | reflexivity]. }
      rewrite Hm.
      destruct (decide (k ∈ keys)) as [Hin|Hnin].
      * rewrite decide_True by (right; assumption). reflexivity.
      * rewrite decide_False; [reflexivity|].
        intros Hc. apply elem_of_cons in Hc. tauto.
Qed.

Lemma clientKeys_spec (m : gmap Z Client) k : k ∈ clientKeys m <-> is_Some (m !! k).
Proof. apply sortedKeys_spec. Qed.

Lemma clientKeys_NoDup (m : gmap Z Client) : NoDup (clientKeys m).
Proof. apply sortedKeys_NoDup. Qed.

(** A scheduling step considers every tenant once: [FindBestClient]
    leaves each of them as [UpdateTokens] makes it. *)
Lemma FindBestClient_updates_every_client s now s' best :
  FindBestClient ConvertTimeToSeconds s now = Some (s', best) ->
  _clients s' = (fun c => UpdateTokens ConvertTimeToSeconds c now) <$> _clients s.
Proof.
  unfold FindBestClient. cbv zeta.
  pose proof (FindBestClient_fold_clients now (clientKeys (_clients s))
                (clientKeys_NoDup _) (_clients s)) as H.
  pose proof (clientKeys_spec (_clients s)) as Hkeys.
  destruct (clientKeys (_clients s)) as [|first keys]; [discriminate|].
  specialize (H first).
  destruct (fold_left _ (first :: keys) _) as [clients b]. intros E; inversion E; subst; clear E.
  apply map_eq. intros k. rewrite lookup_fmap. cbn [_clients]. cbn [fst] in H. rewrite H.
  destruct (decide (k ∈ first :: keys)) as [Hin|Hnin]; [reflexivity|].
  rewrite Hkeys in Hnin.
  destruct (_clients s !! k) as [c|] eqn:Ec; [|reflexivity].
  exfalso. apply Hnin. eauto.
Qed.

End Properties.

(** C8 (as amended).  A tenant with a non-empty queue whose within-limits
    flag is already set is left as it is.  Otherwise every bucket [k] is
    refilled at [rate k] from the last update to the empty-to-nonempty
    timestamp, capped at [burst k], and then without a cap from
    [max(lastUpdate, t_e)] to [now]; the tenant is within its limits iff
    every bucket then covers the head job's size.  Charging the dispatched
    job, whose work estimate the source asserts to be non-negative,
    subtracts the estimate from every bucket, flooring at 0. *)
Theorem UpdateTokens_refill (secs : Z -> float) (c : Client) (now : Z)
    (pJob : Job) (rest : list Job) :
  pendingJobs c = pJob :: rest ->
  (rateLimitObeyed c = true -> UpdateTokens secs c now = c) /\
  (rateLimitObeyed c = false ->
     map token (rateLimits (UpdateTokens secs c now)) =
       map (spec_refill secs c now) (rateLimits c) /\
     map rate (rateLimits (UpdateTokens secs c now)) = map rate (rateLimits c) /\
     map burst (rateLimits (UpdateTokens secs c now)) = map burst (rateLimits c) /\
     rateLimitUpdateTime (UpdateTokens secs c now) = now /\
     rateLimitObeyed (UpdateTokens secs c now) =
       forallb (covers (jobSize pJob)) (rateLimits (UpdateTokens secs c now))) /\
  (geb (jobSize pJob) 0 = true -> forall s addr t, _clients s !! addr = Some c ->
     exists s' c',
       RemoveJob s addr t = Some (s', {| rq_proc := rq_proc pJob; s_addr := s_addr pJob;
                                         immediate := immediate pJob;
                                         requestSize := requestSize pJob;
                                         arrivalTime := arrivalTime pJob;
                                         jobSize := jobSize pJob;
                                         job_rateLimitObeyed := rateLimitObeyed c |}) /\
       _clients s' !! addr = Some c' /\
       map token (rateLimits c') =
         map (fun b => if (token b - jobSize pJob <? 0)%float then 0%float
                       else (token b - jobSize pJob)%float) (rateLimits c)).
Proof.
  intros Hq. split; [|split].
  - intros Hf. unfold UpdateTokens. rewrite Hq, Hf. reflexivity.
  - intros Hf. unfold UpdateTokens. rewrite Hq, Hf.
    destruct (Z.ltb_spec (rateLimitUpdateTime c) (lastOccupancyTime c)) as [Hlt|Hge];
      cbn [rateLimits rateLimitUpdateTime rateLimitObeyed set_rateLimits
           set_rateLimitUpdateTime set_rateLimitObeyed lastOccupancyTime];
      rewrite ?map_map; repeat split; try reflexivity;
      try (apply map_ext; intros b; reflexivity).
    + apply map_ext. intros b. unfold spec_refill.
      destruct (Z.ltb_spec (rateLimitUpdateTime c) (lastOccupancyTime c)); [|lia].
      rewrite Z.max_r by lia. reflexivity.
    + apply map_ext. intros b. unfold spec_refill.
      destruct (Z.ltb_spec (rateLimitUpdateTime c) (lastOccupancyTime c)); [lia|].
      rewrite Z.max_l by lia. reflexivity.
  - intros Hsize s addr t Hc. unfold RemoveJob. rewrite Hc, Hq, Hsize.
    destruct rest; (eexists _, _; split; [reflexivity|]; cbn [_clients];
      rewrite lookup_insert_eq; split; [reflexivity|]);
      cbn [rateLimits set_rateLimitObeyed set_rateLimits set_pendingJobs
           set_occupancy jobSize]; rewrite map_map; apply map_ext; intros b; reflexivity.
Qed.

(** On numbers, "[b] covers [size]" is [size <= token b]. *)
Lemma covers_leb (size : float) (b : Bucket) :
  is_number size -> is_number (token b) ->
  covers size b = true <-> (size <=? token b)%float = true.
Proof.
  intros Hs Ht. unfold covers, gtb. rewrite negb_true_iff.
  apply not_ltb_leb; assumption.
Qed.

(** The run reaches its second scheduling step. *)
Lemma run5_defined : exists s best, run5 = Some (s, best).
Proof. vm_compute. eauto. Qed.

(** The flagged tenant of the run: tenant 2 before the second step. *)
Definition tenant2_before : option Client :=
  match run4 with Some (s, _) => _clients s !! 2%Z | None => None end.
Definition tenant2_after : option Client :=
  match run5 with Some (s, _) => _clients s !! 2%Z | None => None end.

Lemma float_neq (a b : float) : PrimFloat.Leibniz.eqb a b = false -> a <> b.
Proof.
  intros H E. apply FloatAxioms.Leibniz.eqb_spec in E. congruence.
Qed.

(** Tenant 2 of the run between the two scheduling steps. *)
Definition tenant2_flagged : Client :=
  {| pendingJobs := [{| rq_proc := NFSPROC3_READ; s_addr := 2; immediate := false;
                        requestSize := 1; arrivalTime := second; jobSize := 1;
                        job_rateLimitObeyed := false |}];
     priority := 1; rateLimits := [{| rate := 1; burst := 8; token := 9 |}];
     rateLimitUpdateTime := 2 * second; rateLimitObeyed := true; occupancy := 0;
     lastOccupancyTime := second; getOccupancyTime := 0 |}.

(** C8, as stated, fails: in the run, tenant 2 has a non-empty queue at
    the second scheduling step (second 4) and holds 9 tokens from the first
    step (second 2).  The claimed refill would bring the bucket to 11; the
    scheduler leaves it at 9, because the tenant's within-limits flag is
    still set. *)
Lemma UpdateTokens_skips_flagged_tenant :
  tenant2_before = Some tenant2_flagged /\
  tenant2_after = Some (UpdateTokens nsToSeconds tenant2_flagged (4 * second)) /\
  nonEmpty tenant2_flagged = true /\
  map token (rateLimits (UpdateTokens nsToSeconds tenant2_flagged (4 * second))) =
    [9%float] /\
  map (spec_refill nsToSeconds tenant2_flagged (4 * second)) (rateLimits tenant2_flagged) =
    [11%float] /\
  map token (rateLimits (UpdateTokens nsToSeconds tenant2_flagged (4 * second))) <>
    map (spec_refill nsToSeconds tenant2_flagged (4 * second)) (rateLimits tenant2_flagged).
Proof.
  repeat split; try (vm_compute; reflexivity).
  vm_compute. intros H.
  generalize (f_equal (fun l => List.hd 0%float l) H). cbn [List.hd].
  apply float_neq. vm_compute. reflexivity.
Qed.

(** [UpdateTokens_refill] at tenant 1 of the run, first scheduling step. *)
Definition tenant1_submitted : Client :=
  {| pendingJobs := [{| rq_proc := NFSPROC3_READ; s_addr := 1; immediate := false;
                        requestSize := 1; arrivalTime := second; jobSize := 1;
                        job_rateLimitObeyed := false |}];
     priority := 0; rateLimits := [{| rate := 1; burst := 8; token := 8 |}];
     rateLimitUpdateTime := 0; rateLimitObeyed := false; occupancy := 0;
     lastOccupancyTime := second; getOccupancyTime := 0 |}.

Lemma UpdateTokens_refill_witness :
  _clients run2 !! 1%Z = Some tenant1_submitted /\
  map token (rateLimits (UpdateTokens nsToSeconds tenant1_submitted (2 * second))) =
    [9%float] /\
  rateLimitObeyed (UpdateTokens nsToSeconds tenant1_submitted (2 * second)) = true.
Proof.
  split; [vm_compute; reflexivity|].
  destruct (UpdateTokens_refill nsToSeconds tenant1_submitted (2 * second)
              _ [] eq_refl) as (_ & H & _).
  destruct (H eq_refl) as (Ht & _ & _ & _ & Ho).
  split; [rewrite Ht | rewrite Ho]; vm_compute; reflexivity.
Defined.

(** C10.  [UpdateClient], [GetOccupancy], [GetNumPendingJobs] and
    [SubmitJob] all start with [GetClient], which for an address the
    scheduler has never seen silently creates the tenant with priority 0
    and no rate-limit bucket ([rateLimitLength] 0).  The three queries and
    submissions leave those defaults in place ([UpdateClient] then installs
    the parameters of its call).  A tenant with no bucket is within its
    rate limits whenever its queue is non-empty. *)
Theorem unknown_tenant_defaults (est : Z -> bool -> float) (secs : Z -> float)
    (s : Scheduler) (addr : Z) :
  _clients s !! addr = None ->
  (forall t, GetClient (_clients s) addr t =
             (<[addr := newClient t]> (_clients s), newClient t)) /\
  (forall t, priority (newClient t) = 0%Z /\ rateLimitLength (newClient t) = 0%Z) /\
  (forall t now, exists c,
     _clients (GetOccupancy s addr t now).1 !! addr = Some c /\
     priority c = 0%Z /\ rateLimitLength c = 0%Z) /\
  (forall t, exists c,
     _clients (GetNumPendingJobs s addr t).1 !! addr = Some c /\
     priority c = 0%Z /\ rateLimitLength c = 0%Z) /\
  (forall j now t, s_addr j = addr -> exists c,
     _clients (SubmitJob est s j now t) !! addr = Some c /\
     priority c = 0%Z /\ rateLimitLength c = 0%Z) /\
  (forall prio limits t,
     _clients (UpdateClient s addr prio limits t) !! addr =
     Some (set_rateLimitObeyed false
             (set_rateLimits
                (map (fun rb => {| rate := fst rb; burst := snd rb; token := snd rb |}) limits)
                (set_priority prio (newClient t))))) /\
  (forall c now, rateLimitLength c = 0%Z -> pendingJobs c <> [] ->
     rateLimitObeyed (UpdateTokens secs c now) = true).
Proof.
  intros Hnew.
  assert (HG : forall t, GetClient (_clients s) addr t =
                         (<[addr := newClient t]> (_clients s), newClient t)).
  { intros t. unfold GetClient. rewrite Hnew. reflexivity. }
  split; [exact HG|]. split; [intros t; split; reflexivity|].
  split; [|split; [|split; [|split]]].
  - intros t now. unfold GetOccupancy. rewrite HG. cbn [_clients fst].
    rewrite lookup_insert_eq. eexists. split; [reflexivity|]. split; reflexivity.
  - intros t. unfold GetNumPendingJobs. rewrite HG. cbn [_clients fst].
    rewrite lookup_insert_eq. eexists. split; [reflexivity|]. split; reflexivity.
  - intros j now t <-. unfold SubmitJob, AddJob. unfold GetClient. rewrite Hnew.
    cbn [_clients s_addr]. rewrite lookup_insert_eq.
    eexists. split; [reflexivity|]. split; reflexivity.
  - intros prio limits t. unfold UpdateClient. rewrite HG. cbn [_clients].
    rewrite lookup_insert_eq. reflexivity.
  - intros c now Hlen Hq. unfold UpdateTokens.
    destruct (pendingJobs c) as [|pJob rest]; [congruence|].
    destruct (rateLimitObeyed c) eqn:Ho; [exact Ho|].
    assert (Hnil : rateLimits c = []).
    { unfold rateLimitLength in Hlen. destruct (rateLimits c); [reflexivity|].
      simpl in Hlen. lia. }
    destruct (rateLimitUpdateTime c <? lastOccupancyTime c)%Z;
      cbn [rateLimits rateLimitObeyed set_rateLimits set_rateLimitUpdateTime
           set_rateLimitObeyed]; rewrite Hnil; reflexivity.
Qed.

(** [unknown_tenant_defaults] on the scheduler with no tenant. *)
Lemma unknown_tenant_defaults_witness :
  _clients run0 !! 7%Z = None /\
  exists c, _clients (SubmitJob bytesOfWork run0 (readJob 7) second second) !! 7%Z = Some c /\
            priority c = 0%Z /\ rateLimitLength c = 0%Z.
Proof.
  split; [reflexivity|].
  destruct (unknown_tenant_defaults bytesOfWork nsToSeconds run0 7 eq_refl)
    as (_ & _ & _ & _ & H & _).
  exact (H (readJob 7) second second eq_refl).
Defined.

End Scheduler.

(* ===================================================================== *)
(** * Curves and the DNC operators ([src/DNC-Library/DNC.hpp], [DNC.cpp]) *)
(* ===================================================================== *)

Module Curves.
Import Double.

(** ** Data ([DNC.hpp]) *)

(** An (x,y) point and slope. *)
Record PointSlope := { x : float; y : float; slope : float }.

(** A piecewise linear curve. *)
Definition Curve := list PointSlope.

(** A simple arrival curve: a single rate limit (r,b) pair. *)
Record SimpleArrivalCurve := { r : float; b : float }.

(** A simple service curve: a rate R with a delay T. *)
Record SimpleServiceCurve := { R : float; T : float }.

Definition xIntercept (px py pslope : float) : float := (px - py / pslope)%float.
Definition yIntercept (px py pslope : float) : float := (py - pslope * px)%float.

(** ** Operators on simple arrival and service curves ([DNC.cpp]) *)

Definition ZeroArrivalCurve : SimpleArrivalCurve := {| r := 0; b := 0 |}.

(** [ConstantServiceCurve(q)] reads [q->bandwidth] only. *)
Definition ConstantServiceCurve (bandwidth : float) : SimpleServiceCurve :=
  {| R := bandwidth; T := 0 |}.

Definition AggregateArrivalCurve (A B : SimpleArrivalCurve) : SimpleArrivalCurve :=
  {| r := r A + r B; b := b A + b B |}%float.

Definition ConvolutionServiceCurve (S S' : SimpleServiceCurve) : SimpleServiceCurve :=
  {| R := std_min (R S) (R S'); T := (T S + T S')%float |}.

Definition OutputArrivalCurve (A : SimpleArrivalCurve) (S : SimpleServiceCurve)
  : SimpleArrivalCurve :=
  {| r := r A; b := (b A + r A * T S)%float |}.

Definition LeftoverServiceCurve (A : SimpleArrivalCurve) (S : SimpleServiceCurve)
  : SimpleServiceCurve :=
  let leftoverR := (R S - r A)%float in
  {| R := leftoverR; T := (T S + (b A + r A * T S) / leftoverR)%float |}.

Definition DNCLatencyBound (A : SimpleArrivalCurve) (S : SimpleServiceCurve) : float :=
  if gtb (r A) (R S) then infinity else (T S + b A / R S)%float.

(** ** [calcLatency]: the largest horizontal distance between two
       piecewise linear curves *)

(** [curve[i].y], or infinity past the end of the curve. *)
Definition curveY (curve : Curve) (i : nat) : float :=
  match curve !! i with Some p => y p | None => infinity end.

(** [curve[i - 1]]: nothing is there for [i = 0] (the index is unsigned). *)
Definition curvePrev (curve : Curve) (i : nat) : option PointSlope :=
  match i with O => None | S j => curve !! j end.

(** The loop of [calcLatency].  Every turn advances an index that is still
    inside its curve, so [length arrivalCurve + length serviceCurve] turns
    are enough; [fuel] counts them. *)
Fixpoint calcLatency_loop (fuel : nat) (arrivalCurve serviceCurve : Curve)
    (arrivalIndex serviceIndex : nat) (maxLatency : float) : option float :=
  if negb ((arrivalIndex <? length arrivalCurve)%nat
           || (serviceIndex <? length serviceCurve)%nat)
  then Some maxLatency
  else
    match fuel with
    | O => None
    | S fuel =>
      let arrivalY := curveY arrivalCurve arrivalIndex in
      let serviceY := curveY serviceCurve serviceIndex in
      let next (latency : float) (arrivalIndex serviceIndex : nat) :=
        calcLatency_loop fuel arrivalCurve serviceCurve arrivalIndex serviceIndex
          (if gtb latency maxLatency then latency else maxLatency) in
      if (arrivalY <? serviceY)%float then
        arrivalPoint ← arrivalCurve !! arrivalIndex;
        servicePoint ← curvePrev serviceCurve serviceIndex;
        let deltaY := (y arrivalPoint - y servicePoint)%float in
        let deltaX := (deltaY / slope servicePoint)%float in
        next ((x servicePoint + deltaX) - x arrivalPoint)%float
             (S arrivalIndex) serviceIndex
      else if gtb arrivalY serviceY then
        arrivalPoint ← curvePrev arrivalCurve arrivalIndex;
        servicePoint ← serviceCurve !! serviceIndex;
        let deltaY := (y servicePoint - y arrivalPoint)%float in
        let deltaX := (deltaY / slope arrivalPoint)%float in
        next (x servicePoint - (x arrivalPoint + deltaX))%float
             arrivalIndex (S serviceIndex)
      else
        arrivalPoint ← arrivalCurve !! arrivalIndex;
        servicePoint ← serviceCurve !! serviceIndex;
        next (x servicePoint - x arrivalPoint)%float (S arrivalIndex) (S serviceIndex)
    end.

Definition calcLatency (arrivalCurve serviceCurve : Curve) : option float :=
  calcLatency_loop (length arrivalCurve + length serviceCurve)
    arrivalCurve serviceCurve 0 0 0%float.

(** The latency due to a (r,b) rate limiter (i.e., shaper). *)
Definition calcShaperLatency (arrivalCurve : Curve) (shaperCurve : SimpleArrivalCurve)
  : option float :=
  calcLatency arrivalCurve
    [ {| x := 0; y := 0; slope := infinity |};
      {| x := 0; y := b shaperCurve; slope := r shaperCurve |} ].

(** ** Curves of the unit tests ([DNCTest.cpp]) *)
Definition testArrivalCurve : Curve :=
  [ {| x := 0; y := 0; slope := infinity |};
    {| x := 0; y := 1; slope := 1 |};
    {| x := 2; y := 3; slope := 0.5 |};
    {| x := 6; y := 5; slope := 0.25 |} ].
Definition testServiceCurve : Curve :=
  [ {| x := 0; y := 0; slope := 0 |};
    {| x := 1; y := 0; slope := 0.25 |};
    {| x := 9; y := 2; slope := 0.5 |};
    {| x := 13; y := 4; slope := 1 |} ].

(** ** Properties of the operators *)

(** [testCalcLatency], "unaligned y values". *)
Example calcLatency_unaligned : calcLatency testArrivalCurve testServiceCurve = Some 9%float.
Proof. vm_compute. reflexivity. Qed.

(** More fuel than the points left on the two curves changes nothing: the
    loop of [calcLatency] never stops for lack of fuel. *)
Lemma calcLatency_loop_fuel (arrivalCurve serviceCurve : Curve) fuel :
  forall fuel' arrivalIndex serviceIndex maxLatency,
    ((length arrivalCurve - arrivalIndex) + (length serviceCurve - serviceIndex)
     <= fuel)%nat ->
    ((length arrivalCurve - arrivalIndex) + (length serviceCurve - serviceIndex)
     <= fuel')%nat ->
    calcLatency_loop fuel arrivalCurve serviceCurve arrivalIndex serviceIndex maxLatency
    = calcLatency_loop fuel' arrivalCurve serviceCurve arrivalIndex serviceIndex maxLatency.
Proof.
  induction fuel as [|fuel IH]; intros fuel' ai si m H H'.
  - assert (E : negb ((ai <? length arrivalCurve)%nat || (si <? length serviceCurve)%nat)
                = true).
    { destruct (Nat.ltb_spec ai (length arrivalCurve));
        destruct (Nat.ltb_spec si (length serviceCurve)); first [reflexivity | lia]. }
    destruct fuel'; cbn [calcLatency_loop]; rewrite E; reflexivity.
  - destruct (negb ((ai <? length arrivalCurve)%nat || (si <? length serviceCurve)%nat))
      eqn:E.
    { destruct fuel'; cbn [calcLatency_loop]; rewrite E; reflexivity. }
    destruct fuel' as [|fuel'].
    { destruct (Nat.ltb_spec ai (length arrivalCurve));
        destruct (Nat.ltb_spec si (length serviceCurve)); first [discriminate | lia]. }
    cbn [calcLatency_loop]. rewrite E. cbv zeta.
    destruct (curveY arrivalCurve ai <? curveY serviceCurve si)%float.
    + destruct (arrivalCurve !! ai) as [ap|] eqn:Ea; [|reflexivity].
      cbn [mbind option_bind].
      destruct (curvePrev serviceCurve si) as [sp|]; [|reflexivity].
      cbn [mbind option_bind]. apply lookup_lt_Some in Ea. apply IH; lia.
    + destruct (gtb (curveY arrivalCurve ai) (curveY serviceCurve si)).
      * destruct (curvePrev arrivalCurve ai) as [ap|]; [|reflexivity].
        cbn [mbind option_bind].
        destruct (serviceCurve !! si) as [sp|] eqn:Es; [|reflexivity].
        cbn [mbind option_bind]. apply lookup_lt_Some in Es. apply IH; lia.
      * destruct (arrivalCurve !! ai) as [ap|] eqn:Ea; [|reflexivity].
        cbn [mbind option_bind].
        destruct (serviceCurve !! si) as [sp|] eqn:Es; [|reflexivity].
        cbn [mbind option_bind]. apply lookup_lt_Some in Ea. apply lookup_lt_Some in Es.
        apply IH; lia.
Qed.

(** [std::min] on numbers is the smaller of the two. *)
Lemma std_min_spec (u v : float) :
  (std_min u v = u \/ std_min u v = v) /\
  (is_number u -> is_number v ->
   (std_min u v <=? u)%float = true /\ (std_min u v <=? v)%float = true).
Proof.
  unfold std_min. split.
  - destruct (v <? u)%float; auto.
  - intros Hu Hv. destruct (v <? u)%float eqn:E.
    + split.
      * rewrite FloatAxioms.leb_spec. rewrite FloatAxioms.ltb_spec in E.
        unfold SFleb. unfold SFltb in E.
        destruct (SFcompare (Prim2SF v) (Prim2SF u)) as [[]|]; congruence.
      * apply not_ltb_leb; [assumption..|]. apply ltb_irrefl.
    + split.
      * apply not_ltb_leb; [assumption..|]. apply ltb_irrefl.
      * apply not_ltb_leb; assumption.
Qed.

(** C2.  For all simple arrival curves A, B and simple service curves S,
    S': Aggregate(A,B) = (r_A+r_B, b_A+b_B); Convolve(S,S') =
    (min(R_S,R_S'), T_S+T_S'); Output(A,S) = (r_A, b_A + r_A*T_S); and
    LatencyBound(A,S) = T_S + b_A/R_S when r_A <= R_S, +infinity
    otherwise (the rates being numbers).  The minimum is one of the two
    rates and, on numbers, below both. *)
Theorem simple_curve_operators (A B : SimpleArrivalCurve) (S S' : SimpleServiceCurve) :
  AggregateArrivalCurve A B = {| r := r A + r B; b := b A + b B |}%float /\
  ConvolutionServiceCurve S S' = {| R := std_min (R S) (R S'); T := (T S + T S')%float |} /\
  (R (ConvolutionServiceCurve S S') = R S \/ R (ConvolutionServiceCurve S S') = R S') /\
  (is_number (R S) -> is_number (R S') ->
   (R (ConvolutionServiceCurve S S') <=? R S)%float = true /\
   (R (ConvolutionServiceCurve S S') <=? R S')%float = true) /\
  OutputArrivalCurve A S = {| r := r A; b := (b A + r A * T S)%float |} /\
  ((r A <=? R S)%float = true -> DNCLatencyBound A S = (T S + b A / R S)%float) /\
  (is_number (r A) -> is_number (R S) -> (r A <=? R S)%float = false ->
   DNCLatencyBound A S = infinity).
Proof.
  split; [reflexivity|]. split; [reflexivity|].
  split; [apply std_min_spec|]. split; [apply std_min_spec|].
  split; [reflexivity|]. split.
  - intros H. unfold DNCLatencyBound. rewrite (leb_not_gtb _ _ H). reflexivity.
  - intros Hr HR H. unfold DNCLatencyBound. rewrite (not_leb_gtb _ _ Hr HR H). reflexivity.
Qed.

(** The concrete operators of scenario 2 of the specification: the
    latency of the priority-2 flows is 6.4. *)
Example scenario2_latency :
  DNCLatencyBound
    (AggregateArrivalCurve {| r := 0.5; b := 2.25 |}
       (AggregateArrivalCurve {| r := 0.125; b := 0.25 |} ZeroArrivalCurve))
    (LeftoverServiceCurve {| r := 0.125; b := 1 |}
       (LeftoverServiceCurve {| r := 0.25; b := 0.5 |} (ConstantServiceCurve 1)))
  = 6.4%float.
Proof. vm_compute. reflexivity. Qed.

End Curves.

(* ===================================================================== *)
(** * The topology: queues, flows and clients ([NC.hpp], [NC.cpp]) *)
(* ===================================================================== *)

(** [NC.hpp] and [NC.cpp] are not among the sources.  The data below is
    what [DNC.cpp], [WorkloadCompactor.cpp] and [AdmissionController.cpp]
    read and write through the [NC] interface; the operations are modelled
    from the specification (section 4.2) and documented as such.  The three
    classes [NC], [DNC] and [WorkloadCompactor] extend one another: their
    fields are the fields of one record here, and a virtual method is an
    argument of the function that calls it. *)

Module NC.
Import Double Containers Curves.

Abbreviation QueueId := Z (only parsing).
Abbreviation FlowId := Z (only parsing).
Abbreviation ClientId := Z (only parsing).

(** The [Invalid] sentinel ids, never assigned. *)
Definition InvalidQueueId : QueueId := 0.
Definition InvalidFlowId : FlowId := 0.
Definition InvalidClientId : ClientId := 0.

(** A flow at the [fi_index]-th queue of its path. *)
Record FlowIndex := { fi_flowId : FlowId; fi_index : nat }.

Record Queue := {
  q_queueId : QueueId;
  q_name : string;
  q_bandwidth : float;
  q_flows : list FlowIndex;      (* vector<FlowIndex> flows *)
}.

(** [DNCFlow : Flow]: the flow with its arrival and shaper curves. *)
Record Flow := {
  f_flowId : FlowId;
  f_name : string;
  f_clientId : ClientId;
  f_queueIds : list QueueId;     (* the path *)
  f_priority : Z;                (* unsigned int *)
  f_latency : float;
  f_ignoreLatency : bool;
  f_arrivalCurve : Curve;
  f_shaperCurve : SimpleArrivalCurve;
}.

Record Client := {
  c_clientId : ClientId;
  c_name : string;
  c_flowIds : list FlowId;
  c_SLO : float;
  c_SLOpercentile : option float;
  c_latency : float;
}.

Inductive DNCAlgorithm :=
  | DNC_SIMPLE_ALGORITHM_AGGREGATE
  | DNC_SIMPLE_ALGORITHM_HOP_BY_HOP.

(** The engine: the tables of [NC], the algorithm of [DNC], and the
    affected queues of [WorkloadCompactor].  [solverCalls] records the
    client groups handed to the LP solver, latest first: the solver is an
    external library, and a call to it is an effect. *)
Record State := {
  queues : gmap Z Queue;
  flows : gmap Z Flow;
  clients : gmap Z Client;
  queueIds : gmap string Z;      (* name -> id *)
  flowIds : gmap string Z;
  clientIds : gmap string Z;
  nextQueueId : Z;
  nextFlowId : Z;
  nextClientId : Z;
  _algorithm : DNCAlgorithm;
  _affectedQueueIds : gset Z;
  solverCalls : list (list ClientId);
}.

(** The JSON descriptors of section 6 of the specification, as far as the
    engine reads them; a field is [None] when the member is absent. *)
Record FlowInfo := {
  jf_name : option string;
  jf_queues : option (list string);
  jf_arrivalInfo : option Curve;
  jf_priority : option Z;
  jf_ignoreLatency : option bool;
}.
Record ClientInfo := {
  jc_name : option string;
  jc_SLO : option float;
  jc_SLOpercentile : option float;
  jc_admitted : option bool;
  jc_flows : option (list FlowInfo);
}.
Record QueueInfo := {
  jq_name : option string;
  jq_bandwidth : option float;
}.

(** Field updates. *)
Definition set_f_priority (v : Z) (s : Flow) : Flow :=
  {| f_flowId := f_flowId s;
     f_name := f_name s;
     f_clientId := f_clientId s;
     f_queueIds := f_queueIds s;
     f_priority := v;
     f_latency := f_latency s;
     f_ignoreLatency := f_ignoreLatency s;
     f_arrivalCurve := f_arrivalCurve s;
     f_shaperCurve := f_shaperCurve s |}.
Definition set_f_latency (v : float) (s : Flow) : Flow :=
  {| f_flowId := f_flowId s;
     f_name := f_name s;
     f_clientId := f_clientId s;
     f_queueIds := f_queueIds s;
     f_priority := f_priority s;
     f_latency := v;
     f_ignoreLatency := f_ignoreLatency s;
     f_arrivalCurve := f_arrivalCurve s;
     f_shaperCurve := f_shaperCurve s |}.
Definition set_f_shaperCurve (v : SimpleArrivalCurve) (s : Flow) : Flow :=
  {| f_flowId := f_flowId s;
     f_name := f_name s;
     f_clientId := f_clientId s;
     f_queueIds := f_queueIds s;
     f_priority := f_priority s;
     f_latency := f_latency s;
     f_ignoreLatency := f_ignoreLatency s;
     f_arrivalCurve := f_arrivalCurve s;
     f_shaperCurve := v |}.
Definition set_c_latency (v : float) (s : Client) : Client :=
  {| c_clientId := c_clientId s;
     c_name := c_name s;
     c_flowIds := c_flowIds s;
     c_SLO := c_SLO s;
     c_SLOpercentile := c_SLOpercentile s;
     c_latency := v |}.
Definition set_q_flows (v : list FlowIndex) (s : Queue) : Queue :=
  {| q_queueId := q_queueId s;
     q_name := q_name s;
     q_bandwidth := q_bandwidth s;
     q_flows := v |}.
Definition set_queues (v : gmap Z Queue) (s : State) : State :=
  {| queues := v;
     flows := flows s;
     clients := clients s;
     queueIds := queueIds s;
     flowIds := flowIds s;
     clientIds := clientIds s;
     nextQueueId := nextQueueId s;
     nextFlowId := nextFlowId s;
     nextClientId := nextClientId s;
     _algorithm := _algorithm s;
     _affectedQueueIds := _affectedQueueIds s;
     solverCalls := solverCalls s |}.
Definition set_flows (v : gmap Z Flow) (s : State) : State :=
  {| queues := queues s;
     flows := v;
     clients := clients s;
     queueIds := queueIds s;
     flowIds := flowIds s;
     clientIds := clientIds s;
     nextQueueId := nextQueueId s;
     nextFlowId := nextFlowId s;
     nextClientId := nextClientId s;
     _algorithm := _algorithm s;
     _affectedQueueIds := _affectedQueueIds s;
     solverCalls := solverCalls s |}.
Definition set_clients (v : gmap Z Client) (s : State) : State :=
  {| queues := queues s;
     flows := flows s;
     clients := v;
     queueIds := queueIds s;
     flowIds := flowIds s;
     clientIds := clientIds s;
     nextQueueId := nextQueueId s;
     nextFlowId := nextFlowId s;
     nextClientId := nextClientId s;
     _algorithm := _algorithm s;
     _affectedQueueIds := _affectedQueueIds s;
     solverCalls := solverCalls s |}.
Definition set_queueIds (v : gmap string Z) (s : State) : State :=
  {| queues := queues s;
     flows := flows s;
     clients := clients s;
     queueIds := v;
     flowIds := flowIds s;
     clientIds := clientIds s;
     nextQueueId := nextQueueId s;
     nextFlowId := nextFlowId s;
     nextClientId := nextClientId s;
     _algorithm := _algorithm s;
     _affectedQueueIds := _affectedQueueIds s;
     solverCalls := solverCalls s |}.
Definition set_flowIds (v : gmap string Z) (s : State) : State :=
  {| queues := queues s;
     flows := flows s;
     clients := clients s;
     queueIds := queueIds s;
     flowIds := v;
     clientIds := clientIds s;
     nextQueueId := nextQueueId s;
     nextFlowId := nextFlowId s;
     nextClientId := nextClientId s;
     _algorithm := _algorithm s;
     _affectedQueueIds := _affectedQueueIds s;
     solverCalls := solverCalls s |}.
Definition set_clientIds (v : gmap string Z) (s : State) : State :=
  {| queues := queues s;
     flows := flows s;
     clients := clients s;
     queueIds := queueIds s;
     flowIds := flowIds s;
     clientIds := v;
     nextQueueId := nextQueueId s;
     nextFlowId := nextFlowId s;
     nextClientId := nextClientId s;
     _algorithm := _algorithm s;
     _affectedQueueIds := _affectedQueueIds s;
     solverCalls := solverCalls s |}.
Definition set_nextQueueId (v : Z) (s : State) : State :=
  {| queues := queues s;
     flows := flows s;
     clients := clients s;
     queueIds := queueIds s;
     flowIds := flowIds s;
     clientIds := clientIds s;
     nextQueueId := v;
     nextFlowId := nextFlowId s;
     nextClientId := nextClientId s;
     _algorithm := _algorithm s;
     _affectedQueueIds := _affectedQueueIds s;
     solverCalls := solverCalls s |}.
Definition set_nextFlowId (v : Z) (s : State) : State :=
  {| queues := queues s;
     flows := flows s;
     clients := clients s;
     queueIds := queueIds s;
     flowIds := flowIds s;
     clientIds := clientIds s;
     nextQueueId := nextQueueId s;
     nextFlowId := v;
     nextClientId := nextClientId s;
     _algorithm := _algorithm s;
     _affectedQueueIds := _affectedQueueIds s;
     solverCalls := solverCalls s |}.
Definition set_nextClientId (v : Z) (s : State) : State :=
  {| queues := queues s;
     flows := flows s;
     clients := clients s;
     queueIds := queueIds s;
     flowIds := flowIds s;
     clientIds := clientIds s;
     nextQueueId := nextQueueId s;
     nextFlowId := nextFlowId s;
     nextClientId := v;
     _algorithm := _algorithm s;
     _affectedQueueIds := _affectedQueueIds s;
     solverCalls := solverCalls s |}.
Definition set_affectedQueueIds (v : gset Z) (s : State) : State :=
  {| queues := queues s;
     flows := flows s;
     clients := clients s;
     queueIds := queueIds s;
     flowIds := flowIds s;
     clientIds := clientIds s;
     nextQueueId := nextQueueId s;
     nextFlowId := nextFlowId s;
     nextClientId := nextClientId s;
     _algorithm := _algorithm s;
     _affectedQueueIds := v;
     solverCalls := solverCalls s |}.
Definition set_solverCalls (v : list (list Z)) (s : State) : State :=
  {| queues := queues s;
     flows := flows s;
     clients := clients s;
     queueIds := queueIds s;
     flowIds := flowIds s;
     clientIds := clientIds s;
     nextQueueId := nextQueueId s;
     nextFlowId := nextFlowId s;
     nextClientId := nextClientId s;
     _algorithm := _algorithm s;
     _affectedQueueIds := _affectedQueueIds s;
     solverCalls := v |}.

(** ** Lookups *)

Definition getQueue (s : State) (queueId : QueueId) : option Queue := queues s !! queueId.
Definition getFlow (s : State) (flowId : FlowId) : option Flow := flows s !! flowId.
Definition getClient (s : State) (clientId : ClientId) : option Client :=
  clients s !! clientId.
Definition getQueueIdByName (s : State) (name : string) : QueueId :=
  default InvalidQueueId (queueIds s !! name).
Definition getFlowIdByName (s : State) (name : string) : FlowId :=
  default InvalidFlowId (flowIds s !! name).
Definition getClientIdByName (s : State) (name : string) : ClientId :=
  default InvalidClientId (clientIds s !! name).

(** The engine before any queue or client is added. *)
Definition newState (algorithm : DNCAlgorithm) : State :=
  {| queues := ∅; flows := ∅; clients := ∅;
     queueIds := ∅; flowIds := ∅; clientIds := ∅;
     nextQueueId := 1; nextFlowId := 1; nextClientId := 1;
     _algorithm := algorithm; _affectedQueueIds := ∅; solverCalls := [] |}.

(** ** Mutations *)

(** Modelled from the spec: [NC::addQueue] (NC.cpp is not among the
    sources).  "addQueue(info) - requires positive bandwidth and a name not
    already in use.  Returns the fresh id." *)
Definition addQueue (s : State) (queueInfo : QueueInfo) : option (State * QueueId) :=
  name ← jq_name queueInfo;
  bandwidth ← jq_bandwidth queueInfo;
  let queueId := nextQueueId s in
  let q := {| q_queueId := queueId; q_name := name; q_bandwidth := bandwidth;
              q_flows := [] |} in
  Some (set_nextQueueId (queueId + 1)
          (set_queueIds (<[name := queueId]> (queueIds s))
             (set_queues (<[queueId := q]> (queues s)) s)),
        queueId).

(** Modelled from the spec: [NC::delQueue] (NC.cpp is not among the
    sources); the admission service checks that no flow is left. *)
Definition delQueue (s : State) (queueId : QueueId) : option State :=
  q ← getQueue s queueId;
  Some (set_queueIds (delete (q_name q) (queueIds s))
          (set_queues (delete queueId (queues s)) s)).

(** [q->flows.push_back({flowId, index})] for every queue of a path. *)
Fixpoint wireFlow (flowId : FlowId) (index : nat) (path : list QueueId)
    (qs : gmap Z Queue) : gmap Z Queue :=
  match path with
  | [] => qs
  | queueId :: path =>
    wireFlow flowId (S index) path
      (alter (fun q => set_q_flows
                         (q_flows q ++ [{| fi_flowId := flowId; fi_index := index |}]) q)
             queueId qs)
  end.

(** The ids of the named queues; [None] when a name is unknown (the
    source would dereference the null queue). *)
Fixpoint resolveQueues (s : State) (names : list string) : option (list QueueId) :=
  match names with
  | [] => Some []
  | name :: names =>
    let queueId := getQueueIdByName s name in
    _ ← getQueue s queueId;
    ids ← resolveQueues s names;
    Some (queueId :: ids)
  end.

(** Modelled from the spec: [NC::initFlow] (NC.cpp is not among the
    sources), with what [DNC::initFlow] (DNC.cpp) adds to it.  "creates
    flows and wires them into the client and into each referenced queue's
    flow set".  [DNC::initFlow] prepends the initial point (0, 0, +inf) to
    the arrival curve of the descriptor and sets the shaper curve to 0. *)
Definition initFlow (s : State) (flowInfo : FlowInfo) (clientId : ClientId)
  : option (State * FlowId) :=
  name ← jf_name flowInfo;
  queueNames ← jf_queues flowInfo;
  path ← resolveQueues s queueNames;
  let flowId := nextFlowId s in
  let f := {| f_flowId := flowId; f_name := name; f_clientId := clientId;
              f_queueIds := path;
              f_priority := default 0%Z (jf_priority flowInfo);
              f_latency := 0;
              f_ignoreLatency := default false (jf_ignoreLatency flowInfo);
              f_arrivalCurve :=
                {| x := 0; y := 0; slope := infinity |}
                  :: default [] (jf_arrivalInfo flowInfo);
              f_shaperCurve := ZeroArrivalCurve |} in
  Some (set_nextFlowId (flowId + 1)
          (set_flowIds (<[name := flowId]> (flowIds s))
             (set_flows (<[flowId := f]> (flows s))
                (set_queues (wireFlow flowId 0 path (queues s)) s))),
        flowId).

(** The flows of a client descriptor, in order. *)
Fixpoint initFlows (s : State) (flowInfos : list FlowInfo) (clientId : ClientId)
  : option (State * list FlowId) :=
  match flowInfos with
  | [] => Some (s, [])
  | flowInfo :: flowInfos =>
    '(s, flowId) ← initFlow s flowInfo clientId;
    '(s, ids) ← initFlows s flowInfos clientId;
    Some (s, flowId :: ids)
  end.

(** Modelled from the spec: [NC::addClient] (NC.cpp is not among the
    sources).  "addClient(info) - ... creates flows and wires them into the
    client and into each referenced queue's flow set; returns a client
    id."  Validation is the caller's (the admission service's). *)
Definition addClient (s : State) (clientInfo : ClientInfo) : option (State * ClientId) :=
  name ← jc_name clientInfo;
  SLO ← jc_SLO clientInfo;
  flowInfos ← jc_flows clientInfo;
  let clientId := nextClientId s in
  '(s, ids) ← initFlows s flowInfos clientId;
  let c := {| c_clientId := clientId; c_name := name; c_flowIds := ids;
              c_SLO := SLO; c_SLOpercentile := jc_SLOpercentile clientInfo;
              c_latency := 0 |} in
  Some (set_nextClientId (clientId + 1)
          (set_clientIds (<[name := clientId]> (clientIds s))
             (set_clients (<[clientId := c]> (clients s)) s)),
        clientId).

(** The entries of a flow leave a queue. *)
Definition unwireFlow (flowId : FlowId) (q : Queue) : Queue :=
  set_q_flows (filter (fun fi => fi_flowId fi <> flowId) (q_flows q)) q.

(** Modelled from the spec: removing one flow of a client in
    [NC::delClient]. *)
Definition delFlow (s : State) (flowId : FlowId) : option State :=
  f ← getFlow s flowId;
  Some (set_flowIds (delete (f_name f) (flowIds s))
          (set_flows (delete flowId (flows s))
             (set_queues
                (foldr (fun queueId qs => alter (unwireFlow flowId) queueId qs)
                       (queues s) (f_queueIds f)) s))).

(** Modelled from the spec: [NC::delClient] (NC.cpp is not among the
    sources).  "delClient(id) - removes all flows of the client from their
    queues, then the client." *)
Definition delClient (s : State) (clientId : ClientId) : option State :=
  c ← getClient s clientId;
  s ← foldM delFlow (c_flowIds c) s;
  Some (set_clientIds (delete (c_name c) (clientIds s))
          (set_clients (delete clientId (clients s)) s)).

(** Modelled from the spec: [NC::setFlowPriority] (NC.cpp is not among
    the sources) stores the priority in the flow. *)
Definition setFlowPriority (s : State) (flowId : FlowId) (priority : Z) : State :=
  set_flows (alter (set_f_priority priority) flowId (flows s)) s.

(** Modelled from the spec: [NC::calcClientLatency] (NC.cpp is not among
    the sources).  The specification has the admission service "recompute
    client latencies" from the flows' latencies; the latency of a client is
    taken to be the sum of the latencies of its flows, each computed by the
    virtual [calcFlowLatency], and is stored in the client. *)
Definition calcClientLatency
    (calcFlowLatency : State -> FlowId -> option (State * float))
    (s : State) (clientId : ClientId) : option (State * float) :=
  c ← getClient s clientId;
  '(s, latency) ←
     foldM (fun (acc : State * float) flowId =>
              '(s, l) ← calcFlowLatency acc.1 flowId;
              Some (s, (acc.2 + l)%float))
           (c_flowIds c) (s, 0%float);
  c ← getClient s clientId;
  Some (set_clients (<[clientId := set_c_latency latency c]> (clients s)) s, latency).

End NC.

(* ===================================================================== *)
(** * The latency analyses ([src/DNC-Library/DNC.cpp]) *)
(* ===================================================================== *)

Module DNC.
Import Double Containers Curves NC.

(** [assert(cond)]: the program stops when the condition fails. *)
Definition assert (cond : bool) : option unit := if cond then Some tt else None.

Definition getShaperCurve (s : State) (flowId : FlowId) : option SimpleArrivalCurve :=
  f ← getFlow s flowId; Some (f_shaperCurve f).

Definition setShaperCurve (s : State) (flowId : FlowId) (shaperCurve : SimpleArrivalCurve)
  : State :=
  set_flows (alter (set_f_shaperCurve shaperCurve) flowId (flows s)) s.

(** ** Hop-by-hop analysis

    [calcArrivalCurveAtQueue] and [calcServiceCurveAtQueue] call each
    other; [fuel] bounds the depth of the calls.  On a topology whose flows
    depend on one another in a cycle the source does not return, and no
    fuel is enough. *)
Fixpoint calcArrivalCurveAtQueue (fuel : nat) (s : State) (f : Flow) (index : nat)
  : option SimpleArrivalCurve :=
  match fuel with
  | O => None
  | S fuel =>
    match index with
    | O => Some (f_shaperCurve f)
    | S prev =>
      prevArrivalCurve ← calcArrivalCurveAtQueue fuel s f prev;
      prevServiceCurve ← calcServiceCurveAtQueue fuel s f prev;
      Some (OutputArrivalCurve prevArrivalCurve prevServiceCurve)
    end
  end
with calcServiceCurveAtQueue (fuel : nat) (s : State) (f : Flow) (index : nat)
  : option SimpleServiceCurve :=
  match fuel with
  | O => None
  | S fuel =>
    queueId ← f_queueIds f !! index;
    q ← getQueue s queueId;
    foldM (fun serviceCurve it =>
             flow ← getFlow s (fi_flowId it);
             (* only other flows of higher (or equal) priority *)
             if (f_priority flow <=? f_priority f)%Z
                && negb (f_flowId flow =? f_flowId f)%Z
             then
               arrivalCurve ← calcArrivalCurveAtQueue fuel s flow (fi_index it);
               Some (LeftoverServiceCurve arrivalCurve serviceCurve)
             else Some serviceCurve)
          (q_flows q) (ConstantServiceCurve (q_bandwidth q))
  end.

(** Twice the number of (flow, hop) pairs, and two: a chain of calls that
    is longer visits a pair twice, and then never ends. *)
Definition hopFuel (s : State) : nat :=
  2 * map_fold (fun _ f n => length (f_queueIds f) + n)%nat 0%nat (flows s) + 2.

(** [hopByHopAnalysis]: the new value of [flow->latency]. *)
Definition hopByHopAnalysis (s : State) (flow : Flow) : option float :=
  '(_, latency) ←
    foldM (fun '(arrivalCurve, latency) index =>
             serviceCurve ← calcServiceCurveAtQueue (hopFuel s) s flow index;
             Some (OutputArrivalCurve arrivalCurve serviceCurve,
                   (latency + DNCLatencyBound arrivalCurve serviceCurve)%float))
          (seq 0 (length (f_queueIds flow))) (f_shaperCurve flow, 0%float);
  Some latency.

(** ** Aggregate analysis, one hop *)

(** The loop over the flows of the only queue: the aggregated arrival
    curve of the flows of equal priority and the service left over by the
    flows of higher priority. *)
Definition oneHopCurves (s : State) (flow : Flow) (firstQueueId : QueueId)
  : option (SimpleArrivalCurve * SimpleServiceCurve) :=
  firstQueue ← getQueue s firstQueueId;
  foldM (fun '(arrivalCurve, serviceCurve) fi =>
           _ ← assert (fi_index fi =? 0)%nat;
           f ← getFlow s (fi_flowId fi);
           q0 ← f_queueIds f !! 0%nat;
           _ ← assert (q0 =? firstQueueId)%Z;
           if (f_priority f <=? f_priority flow)%Z then
             if (f_priority f =? f_priority flow)%Z
             then Some (AggregateArrivalCurve (f_shaperCurve f) arrivalCurve, serviceCurve)
             else Some (arrivalCurve, LeftoverServiceCurve (f_shaperCurve f) serviceCurve)
           else Some (arrivalCurve, serviceCurve))
        (q_flows firstQueue)
        (ZeroArrivalCurve, ConstantServiceCurve (q_bandwidth firstQueue)).

(** ** Aggregate analysis, two hops *)

(** [firstQueueIds]: the first queues, other than the flow's own, that feed
    into its second queue, each with the lowest priority (largest number)
    among its competing flows. *)
Definition competingFirstQueues (s : State) (flow : Flow)
    (firstQueueId secondQueueId : QueueId) : option (gmap Z Z) :=
  secondQueue ← getQueue s secondQueueId;
  foldM (fun (firstQueueIds : gmap Z Z) fi =>
           _ ← assert (fi_index fi =? 1)%nat;
           f ← getFlow s (fi_flowId fi);
           q1 ← f_queueIds f !! 1%nat;
           _ ← assert (q1 =? secondQueueId)%Z;
           q0 ← f_queueIds f !! 0%nat;
           if negb (q0 =? firstQueueId)%Z && (f_priority f <=? f_priority flow)%Z then
             match firstQueueIds !! q0 with
             | None => Some (<[q0 := f_priority f]> firstQueueIds)
             | Some p => if (f_priority f >? p)%Z
                         then Some (<[q0 := f_priority f]> firstQueueIds)
                         else Some firstQueueIds
             end
           else Some firstQueueIds)
        (q_flows secondQueue) ∅.

(** The inner loop over the flows of one competing first queue: the
    aggregated arrival curve of those that go on to the second queue, and
    the service that those branching away leave over. *)
Definition crossTraffic (s : State) (secondQueueId : QueueId)
    (queueId : QueueId) (priority : Z)
  : option (SimpleArrivalCurve * SimpleServiceCurve) :=
  q ← getQueue s queueId;
  foldM (fun '(firstQueueArrivalCurve, firstQueueServiceCurve) fi =>
           _ ← assert (fi_index fi =? 0)%nat;
           f ← getFlow s (fi_flowId fi);
           q0 ← f_queueIds f !! 0%nat;
           _ ← assert (q0 =? queueId)%Z;
           if (f_priority f <=? priority)%Z then
             q1 ← f_queueIds f !! 1%nat;
             if (q1 =? secondQueueId)%Z
             then Some (AggregateArrivalCurve (f_shaperCurve f) firstQueueArrivalCurve,
                        firstQueueServiceCurve)
             else Some (firstQueueArrivalCurve,
                        LeftoverServiceCurve (f_shaperCurve f) firstQueueServiceCurve)
           else Some (firstQueueArrivalCurve, firstQueueServiceCurve))
        (q_flows q) (ZeroArrivalCurve, ConstantServiceCurve (q_bandwidth q)).

(** The loop over the competing first queues: what they leave of the
    second queue's service. *)
Definition secondQueueService (s : State) (secondQueueId : QueueId)
    (firstQueueIds : gmap Z Z) : option SimpleServiceCurve :=
  secondQueue ← getQueue s secondQueueId;
  foldM (fun secondQueueServiceCurve queueId =>
           priority ← firstQueueIds !! queueId;
           '(firstQueueArrivalCurve, firstQueueServiceCurve) ←
             crossTraffic s secondQueueId queueId priority;
           let outputArrivalCurve :=
             OutputArrivalCurve firstQueueArrivalCurve firstQueueServiceCurve in
           Some (LeftoverServiceCurve outputArrivalCurve secondQueueServiceCurve))
        (sortedKeys firstQueueIds) (ConstantServiceCurve (q_bandwidth secondQueue)).

(** The loop over the flows of the flow's own first queue:
    [arrivalCurve], [shareArrivalCurve] and [serviceCurveForConvolution]. *)
Definition firstHopCurves (s : State) (flow : Flow) (firstQueueId secondQueueId : QueueId)
  : option (SimpleArrivalCurve * SimpleArrivalCurve * SimpleServiceCurve) :=
  firstQueue ← getQueue s firstQueueId;
  foldM (fun '(arrivalCurve, shareArrivalCurve, serviceCurveForConvolution) fi =>
           _ ← assert (fi_index fi =? 0)%nat;
           f ← getFlow s (fi_flowId fi);
           q0 ← f_queueIds f !! 0%nat;
           _ ← assert (q0 =? firstQueueId)%Z;
           if (f_priority f <=? f_priority flow)%Z then
             q1 ← f_queueIds f !! 1%nat;
             if (q1 =? secondQueueId)%Z then
               if (f_priority f =? f_priority flow)%Z
               then Some (AggregateArrivalCurve (f_shaperCurve f) arrivalCurve,
                          shareArrivalCurve, serviceCurveForConvolution)
               else Some (arrivalCurve,
                          AggregateArrivalCurve (f_shaperCurve f) shareArrivalCurve,
                          serviceCurveForConvolution)
             else Some (arrivalCurve, shareArrivalCurve,
                        LeftoverServiceCurve (f_shaperCurve f) serviceCurveForConvolution)
           else Some (arrivalCurve, shareArrivalCurve, serviceCurveForConvolution))
        (q_flows firstQueue)
        (ZeroArrivalCurve, ZeroArrivalCurve, ConstantServiceCurve (q_bandwidth firstQueue)).

(** ** [DNC::aggregateAnalysisTwoHop] *)

(** The arrival curve and the service curve that the analysis hands to
    [DNCLatencyBound]; nothing for a flow with no queue. *)
Definition aggregateCurves (s : State) (flow : Flow)
  : option (option (SimpleArrivalCurve * SimpleServiceCurve)) :=
  match f_queueIds flow with
  | [] => Some None
  | [firstQueueId] => curves ← oneHopCurves s flow firstQueueId; Some (Some curves)
  | [firstQueueId; secondQueueId] =>
    firstQueueIds ← competingFirstQueues s flow firstQueueId secondQueueId;
    secondQueueServiceCurve ← secondQueueService s secondQueueId firstQueueIds;
    '(arrivalCurve, shareArrivalCurve, serviceCurveForConvolution) ←
      firstHopCurves s flow firstQueueId secondQueueId;
    let convolutedServiceCurve :=
      ConvolutionServiceCurve serviceCurveForConvolution secondQueueServiceCurve in
    let finalService := LeftoverServiceCurve shareArrivalCurve convolutedServiceCurve in
    Some (Some (arrivalCurve, finalService))
  | _ => None                      (* assert(flow->queueIds.size() <= 2) *)
  end.

(** The new value of [flow->latency]: unchanged for a flow with no queue. *)
Definition aggregateAnalysisTwoHop (s : State) (flow : Flow) : option float :=
  curves ← aggregateCurves s flow;
  match curves with
  | None => Some (f_latency flow)
  | Some (arrivalCurve, serviceCurve) => Some (DNCLatencyBound arrivalCurve serviceCurve)
  end.

(** ** [DNC::calcFlowLatency] *)

(** The latency of the queues, by the algorithm of the engine. *)
Definition queueLatency (s : State) (f : Flow) : option float :=
  match _algorithm s with
  | DNC_SIMPLE_ALGORITHM_AGGREGATE => aggregateAnalysisTwoHop s f
  | DNC_SIMPLE_ALGORITHM_HOP_BY_HOP => hopByHopAnalysis s f
  end.

Definition calcFlowLatency (s : State) (flowId : FlowId) : option (State * float) :=
  f ← getFlow s flowId;
  if f_ignoreLatency f then
    Some (set_flows (<[flowId := set_f_latency 0%float f]> (flows s)) s, 0%float)
  else
    latency ← queueLatency s f;
    shaperLatency ← calcShaperLatency (f_arrivalCurve f) (f_shaperCurve f);
    let latency := (latency + shaperLatency)%float in
    Some (set_flows (<[flowId := set_f_latency latency f]> (flows s)) s, latency).

(** [NC::calcClientLatency] on a [DNC] object. *)
Definition calcClientLatency (s : State) (clientId : ClientId) : option (State * float) :=
  NC.calcClientLatency calcFlowLatency s clientId.

(** ** The topologies of the unit tests and of the examples *)

Definition unitQueue (name : string) : QueueInfo :=
  {| jq_name := Some name; jq_bandwidth := Some 1%float |}.

(** A client with one flow whose arrival curve is the rate limit (r,b). *)
Definition testClient (clientName flowName : string) (path : list string)
    (priority : Z) (rate burst : float) : ClientInfo :=
  {| jc_name := Some clientName; jc_SLO := Some 1%float;
     jc_SLOpercentile := Some 99.9%float; jc_admitted := None;
     jc_flows :=
       Some [ {| jf_name := Some flowName; jf_queues := Some path;
                 jf_arrivalInfo := Some [ {| x := 0; y := burst; slope := rate |} ];
                 jf_priority := Some priority; jf_ignoreLatency := None |} ] |}.

Definition addTestQueue (s : State) (name : string) : option State :=
  '(s, _) ← addQueue s (unitQueue name); Some s.

(** [TestDNC::initFlow] of [DNCTest.cpp]: the shaper curve of the flow is
    the rate limit (r,b) of the descriptor. *)
Definition addTestClient (s : State) (clientName flowName : string)
    (path : list string) (priority : Z) (rate burst : float) : option State :=
  '(s, clientId) ← addClient s (testClient clientName flowName path priority rate burst);
  c ← getClient s clientId;
  flowId ← head (c_flowIds c);
  Some (setShaperCurve s flowId {| r := rate; b := burst |}).

Definition fourQueues (algorithm : DNCAlgorithm) : option State :=
  s ← addTestQueue (newState algorithm) "Q0";
  s ← addTestQueue s "Q1";
  s ← addTestQueue s "Q2";
  addTestQueue s "Q3".

(** [DNCTestTwoHops] of [DNCTest.cpp]. *)
Definition DNCTestTwoHops : option State :=
  s ← fourQueues DNC_SIMPLE_ALGORITHM_AGGREGATE;
  s ← addTestClient s "C0" "F0" ["Q0"; "Q2"] 1 0.25 0.5;
  s ← addTestClient s "C1" "F1" ["Q0"; "Q2"] 1 0.125 1;
  s ← addTestClient s "C2" "F2" ["Q0"; "Q3"] 2 0.125 0.25;
  s ← addTestClient s "C3" "F3" ["Q0"; "Q3"] 2 0.5 2.25;
  s ← addTestClient s "C4" "F4" ["Q1"; "Q2"] 3 0.125 0.25;
  s ← addTestClient s "C5" "F5" ["Q1"; "Q2"] 3 0.125 0.75;
  s ← addTestClient s "C6" "F6" ["Q1"; "Q3"] 4 0.125 0.25;
  s ← addTestClient s "C7" "F7" ["Q1"; "Q3"] 4 0.125 1.25;
  s ← addTestClient s "C8" "F8" ["Q1"; "Q3"] 5 0 0.25;
  addTestClient s "C9" "F9" ["Q1"; "Q3"] 5 0 0.25.

Definition clientLatencies (s : option State) (clientIds : list ClientId)
  : list (option float) :=
  map (fun clientId => s ← s; '(_, l) ← calcClientLatency s clientId; Some l) clientIds.



(** ** Properties of the analyses *)

(** The repository's test of the aggregate analysis: [DNCTestTwoHops]
    expects exactly these client latencies. *)
Example DNCTestTwoHops_latencies :
  clientLatencies DNCTestTwoHops [1; 2; 3; 4; 5; 6; 7; 8; 9; 10]%Z =
  map Some [1.5; 1.5; 6.4; 6.4; 4; 4; 16; 16; 52; 52]%float.
Proof. vm_compute. reflexivity. Qed.




(** ** The leftovers taken on the path of a flow *)

(** The service that is left of [S] when the leftovers of the arrival
    curves [As] are taken in turn. *)
Definition leftovers (As : list SimpleArrivalCurve) (S : SimpleServiceCurve)
  : SimpleServiceCurve :=
  fold_left (fun S A => LeftoverServiceCurve A S) As S.

(** The arguments (A, S) of these calls of [LeftoverServiceCurve]. *)
Fixpoint taken (As : list SimpleArrivalCurve) (S : SimpleServiceCurve)
  : list (SimpleArrivalCurve * SimpleServiceCurve) :=
  match As with
  | [] => []
  | A :: As => (A, S) :: taken As (LeftoverServiceCurve A S)
  end.

(** The arrival curves of which a loop over [l] takes the leftover:
    [subtrahend x] is the curve of the turn of [x], if there is one. *)
Fixpoint subtracted {X} (subtrahend : X -> option (option SimpleArrivalCurve))
    (l : list X) : option (list SimpleArrivalCurve) :=
  match l with
  | [] => Some []
  | x :: l =>
    a ← subtrahend x;
    As ← subtracted subtrahend l;
    Some (match a with Some A => A :: As | None => As end)
  end.

(** [calcServiceCurveAtQueue]: the arrival curve at the queue of another
    flow of higher (or equal) priority. *)
Definition competitor (fuel : nat) (s : State) (f : Flow) (it : FlowIndex)
  : option (option SimpleArrivalCurve) :=
  flow ← getFlow s (fi_flowId it);
  if (f_priority flow <=? f_priority f)%Z && negb (f_flowId flow =? f_flowId f)%Z
  then arrivalCurve ← calcArrivalCurveAtQueue fuel s flow (fi_index it);
       Some (Some arrivalCurve)
  else Some None.

(** [oneHopCurves]: the shaper curve of a flow of higher priority. *)
Definition higherPriority (s : State) (flow : Flow) (fi : FlowIndex)
  : option (option SimpleArrivalCurve) :=
  f ← getFlow s (fi_flowId fi);
  Some (if (f_priority f <=? f_priority flow)%Z
        then if (f_priority f =? f_priority flow)%Z then None else Some (f_shaperCurve f)
        else None).

(** [firstHopCurves]: the shaper curve of a flow of higher (or equal)
    priority that does not go on to the second queue. *)
Definition branchingAway (s : State) (flow : Flow) (secondQueueId : QueueId)
    (fi : FlowIndex) : option (option SimpleArrivalCurve) :=
  f ← getFlow s (fi_flowId fi);
  if (f_priority f <=? f_priority flow)%Z then
    q1 ← f_queueIds f !! 1%nat;
    Some (if (q1 =? secondQueueId)%Z then None else Some (f_shaperCurve f))
  else Some None.

(** [secondQueueService]: what a competing first queue sends on to the
    second queue. *)
Definition crossOutput (s : State) (secondQueueId : QueueId) (firstQueueIds : gmap Z Z)
    (queueId : QueueId) : option (option SimpleArrivalCurve) :=
  priority ← firstQueueIds !! queueId;
  curves ← crossTraffic s secondQueueId queueId priority;
  Some (Some (OutputArrivalCurve curves.1 curves.2)).

(** The arguments (A, S) of the calls of [LeftoverServiceCurve] that the
    hop-by-hop analysis makes for the [index]-th queue of the flow
    itself. *)
Definition hopLeftovers (s : State) (f : Flow) (index : nat)
  : option (list (SimpleArrivalCurve * SimpleServiceCurve)) :=
  queueId ← f_queueIds f !! index;
  q ← getQueue s queueId;
  As ← subtracted (competitor (pred (hopFuel s)) s f) (q_flows q);
  Some (taken As (ConstantServiceCurve (q_bandwidth q))).

(** The same for the aggregate analysis: the leftovers taken from the
    service of the first queue, from the service of the second queue, and
    from their convolution.  Those that [crossTraffic] takes from the
    service of a competing first queue are not on the path of the flow. *)
Definition aggregateLeftovers (s : State) (flow : Flow)
  : option (list (SimpleArrivalCurve * SimpleServiceCurve)) :=
  match f_queueIds flow with
  | [] => Some []
  | [firstQueueId] =>
    firstQueue ← getQueue s firstQueueId;
    As ← subtracted (higherPriority s flow) (q_flows firstQueue);
    Some (taken As (ConstantServiceCurve (q_bandwidth firstQueue)))
  | [firstQueueId; secondQueueId] =>
    firstQueue ← getQueue s firstQueueId;
    secondQueue ← getQueue s secondQueueId;
    firstQueueIds ← competingFirstQueues s flow firstQueueId secondQueueId;
    As1 ← subtracted (branchingAway s flow secondQueueId) (q_flows firstQueue);
    As2 ← subtracted (crossOutput s secondQueueId firstQueueIds) (sortedKeys firstQueueIds);
    curves ← firstHopCurves s flow firstQueueId secondQueueId;
    let shareArrivalCurve := curves.1.2 in
    let S1 := ConstantServiceCurve (q_bandwidth firstQueue) in
    let S2 := ConstantServiceCurve (q_bandwidth secondQueue) in
    Some (taken As1 S1 ++ taken As2 S2 ++
          [(shareArrivalCurve,
            ConvolutionServiceCurve (leftovers As1 S1) (leftovers As2 S2))])
  | _ => None
  end.

(** The leftovers taken on the path of a flow, by the algorithm of the
    engine. *)
Definition ownLeftovers (s : State) (f : Flow)
  : option (list (SimpleArrivalCurve * SimpleServiceCurve)) :=
  match _algorithm s with
  | DNC_SIMPLE_ALGORITHM_AGGREGATE => aggregateLeftovers s f
  | DNC_SIMPLE_ALGORITHM_HOP_BY_HOP =>
    logs ← mapM (hopLeftovers s f) (seq 0 (length (f_queueIds f)));
    Some (concat logs)
  end.


(** *** Chains of leftovers *)





(** *** The service curves of the analyses are chains of leftovers *)





(** *** An overcommitted leftover on the path leaves no service *)







(** *** The latency *)









(** The rate of the bounded arrival curve has to be positive.  Z, whose
    shaper curve is uninitialized, shares Q0 with a flow of higher
    priority whose rate is the bandwidth of Q0: the leftover is
    overcommitted, its rate is 0 and its delay is infinite, and the
    latency of Z is NaN. *)
Definition saturated (algorithm : DNCAlgorithm) : option State :=
  s ← fourQueues algorithm;
  s ← addTestClient s "CH" "H" ["Q0"] 1 1 1;
  addTestClient s "CZ" "Z" ["Q0"] 2 0 0.

Example overcommitted_leftover_zero_rate :
  (s ← saturated DNC_SIMPLE_ALGORITHM_AGGREGATE; z ← getFlow s 2; ownLeftovers s z)
    = Some [({| r := 1; b := 1 |}, ConstantServiceCurve 1)] /\
  (s ← saturated DNC_SIMPLE_ALGORITHM_HOP_BY_HOP; z ← getFlow s 2; ownLeftovers s z)
    = Some [({| r := 1; b := 1 |}, ConstantServiceCurve 1)] /\
  LeftoverServiceCurve {| r := 1; b := 1 |} (ConstantServiceCurve 1)
    = {| R := 0; T := infinity |} /\
  (s ← saturated DNC_SIMPLE_ALGORITHM_AGGREGATE;
   is_nan <$> (snd <$> calcFlowLatency s 2)) = Some true /\
  (s ← saturated DNC_SIMPLE_ALGORITHM_HOP_BY_HOP;
   is_nan <$> (snd <$> calcFlowLatency s 2)) = Some true.
Proof. conjuncts; vm_compute; reflexivity. Qed.

End DNC.

(* ===================================================================== *)
(** * The compactor ([src/DNC-Library/WorkloadCompactor.cpp]) *)
(* ===================================================================== *)

Module WorkloadCompactor.
Import Double Containers Curves NC.

(** ** The map [SLOs] of [calcShaperParameters]

    A [std::map<double, unsigned int>]: the entries in increasing order of
    their keys, no two keys equivalent under [<]. *)

(** [SLOs[key] = 0]. *)
Fixpoint SLOs_insert (key : float) (SLOs : list (float * Z)) : list (float * Z) :=
  match SLOs with
  | [] => [(key, 0%Z)]
  | (k, v) :: rest =>
    if (key <? k)%float then (key, 0%Z) :: SLOs
    else if (k <? key)%float then (k, v) :: SLOs_insert key rest
    else (k, 0%Z) :: rest
  end.

(** The loop that numbers the entries: [it->second = priority; priority++]. *)
Fixpoint SLOs_number (priority : Z) (SLOs : list (float * Z)) : list (float * Z) :=
  match SLOs with
  | [] => []
  | (k, _) :: rest => (k, priority) :: SLOs_number (priority + 1) rest
  end.

(** [SLOs[key]], read: the value of the entry with an equivalent key, 0
    (the value of a fresh entry) when there is none. *)
Fixpoint SLOs_lookup (key : float) (SLOs : list (float * Z)) : Z :=
  match SLOs with
  | [] => 0%Z
  | (k, v) :: rest =>
    if (k <? key)%float then SLOs_lookup key rest
    else if (key <? k)%float then 0%Z
    else v
  end.

(** [c->SLO * 0.999], the key of a client ("avoid rounding errors"). *)
Definition scaledSLO (c : Client) : float := (c_SLO c * 0.999)%float.

(** "Get SLOs in client group", then the numbering. *)
Definition groupSLOs (s : State) (clientGroup : list ClientId) : option (list (float * Z)) :=
  SLOs ← foldM (fun SLOs clientId =>
                  c ← getClient s clientId;
                  Some (SLOs_insert (scaledSLO c) SLOs))
               clientGroup [];
  Some (SLOs_number 0 SLOs).

(** ** Group discovery *)

(** The sets and the stack of the two nested [while] loops.
    [pendingQueueIds] is a vector used as a stack: its back is the head of
    the list. *)
Record Discovery := {
  remainingQueueIds : gset Z;
  affectedQueueIds : gset Z;
  clientGroup : gset Z;
  pendingQueueIds : list QueueId;
}.

(** The loop over the queues of one flow. *)
Definition visitFlow (d : Discovery) (f : Flow) : Discovery :=
  fold_left (fun d queueId =>
               if decide (queueId ∈ remainingQueueIds d) then
                 {| remainingQueueIds := remainingQueueIds d ∖ {[queueId]};
                    affectedQueueIds := affectedQueueIds d ∖ {[queueId]};
                    clientGroup := clientGroup d;
                    pendingQueueIds := queueId :: pendingQueueIds d |}
               else d)
            (f_queueIds f) d.

(** The loop over the flows of a queue: the client of each flow joins the
    group, and every queue of every flow of that client is visited. *)
Definition visitQueue (s : State) (d : Discovery) (queue : Queue) : option Discovery :=
  foldM (fun d it =>
           flow ← getFlow s (fi_flowId it);
           c ← getClient s (f_clientId flow);
           let d := {| remainingQueueIds := remainingQueueIds d;
                       affectedQueueIds := affectedQueueIds d;
                       clientGroup := clientGroup d ∪ {[c_clientId c]};
                       pendingQueueIds := pendingQueueIds d |} in
           foldM (fun d flowId => f ← getFlow s flowId; Some (visitFlow d f))
                 (c_flowIds c) d)
        (q_flows queue) d.

(** [while (!pendingQueueIds.empty())]: every turn takes a queue off the
    stack, and only queues taken out of [remainingQueueIds] are put on it,
    so there are at most [size remainingQueueIds + length pendingQueueIds]
    turns; [fuel] counts them. *)
Fixpoint discoverGroup (fuel : nat) (s : State) (d : Discovery) : option Discovery :=
  match pendingQueueIds d with
  | [] => Some d
  | queueId :: pending =>
    match fuel with
    | O => None
    | S fuel =>
      queue ← getQueue s queueId;
      d ← visitQueue s {| remainingQueueIds := remainingQueueIds d;
                          affectedQueueIds := affectedQueueIds d;
                          clientGroup := clientGroup d;
                          pendingQueueIds := pending |} queue;
      discoverGroup fuel s d
    end
  end.

(** [while (!_affectedQueueIds.empty())]: every turn takes at least the
    first affected queue out of the set. *)
Fixpoint discoverGroups (fuel : nat) (s : State) (remaining affected : gset Z)
    (clientGroups : list (gset Z)) : option (list (gset Z)) :=
  match sortedElements affected with
  | [] => Some clientGroups
  | firstQueueId :: _ =>
    match fuel with
    | O => None
    | S fuel =>
      let remaining := remaining ∖ {[firstQueueId]} in
      let affected := affected ∖ {[firstQueueId]} in
      d ← discoverGroup (size remaining + 1) s
            {| remainingQueueIds := remaining; affectedQueueIds := affected;
               clientGroup := ∅; pendingQueueIds := [firstQueueId] |};
      discoverGroups fuel s (remainingQueueIds d) (affectedQueueIds d)
        (clientGroups ++ [clientGroup d])
    end
  end.

(** ** One client group *)

(** What building the LP reads, and the assertions on the way: the first
    queue of every flow, its bandwidth, and an arrival curve whose
    segments, normalized by that bandwidth, have non-decreasing
    y-intercepts and non-increasing slopes. *)
Fixpoint checkSegments (bw r1 b1 : float) (segments : list PointSlope) : option unit :=
  match segments with
  | [] => Some tt
  | p2 :: segments =>
    let r2 := (slope p2 / bw)%float in
    let b2 := (yIntercept (x p2) (y p2) (slope p2) / bw)%float in
    _ ← DNC.assert (geb b2 b1);
    _ ← DNC.assert (geb r1 r2);
    checkSegments bw r2 b2 segments
  end.

Definition checkFlow (s : State) (flowId : FlowId) : option unit :=
  f ← getFlow s flowId;
  queueId ← head (f_queueIds f);
  q ← getQueue s queueId;
  let bw := q_bandwidth q in
  p1 ← f_arrivalCurve f !! 1%nat;
  checkSegments bw (slope p1 / bw)%float
    (yIntercept (x p1) (y p1) (slope p1) / bw)%float
    (drop 2 (f_arrivalCurve f)).

Definition checkGroup (s : State) (clientGroup : list ClientId) : option unit :=
  foldM (fun _ clientId =>
           c ← getClient s clientId;
           foldM (fun _ flowId => checkFlow s flowId) (c_flowIds c) tt)
        clientGroup tt.

Section WithSolver.

(** The linear program of a client group is built from the SLOs of its
    clients and from the arrival curves and first queues of their flows,
    and handed to GLPK.  Neither its constraints nor the solver are
    modelled: [solveLP s clientGroup] is the outcome, [None] when there is
    no optimal solution, and otherwise the values of the variables
    [(rVars[i], bVars[i])] in the order in which the flows are visited. *)
Variable solveLP : State -> list ClientId -> option (nat -> float * float).

(** "Extract solution" ([solution = Some _]) and "Set shaper curve to be
    uninitialized" ([solution = None]): the loops over the flows of the
    clients of the group; [i] counts the flows. *)

(** The body of the loop over the flows of a client. *)
Definition writeFlow (SLOs : list (float * Z)) (solution : option (nat -> float * float))
    (SLO : float) (acc : State * nat) (flowId : FlowId) : option (State * nat) :=
  let '(s, i) := acc in
  f ← getFlow s flowId;
  shaperCurve ←
    match solution with
    | Some variables =>
      queueId ← head (f_queueIds f);
      q ← getQueue s queueId;
      let bw := q_bandwidth q in
      Some {| r := ((variables i).1 * bw)%float;
              b := ((variables i).2 * bw)%float |}
    | None => Some ZeroArrivalCurve
    end;
  let s := DNC.setShaperCurve s flowId shaperCurve in
  Some (setFlowPriority s flowId (SLOs_lookup SLO SLOs), S i).

(** The body of the loop over the clients of the group. *)
Definition writeClient (SLOs : list (float * Z)) (solution : option (nat -> float * float))
    (acc : State * nat) (clientId : ClientId) : option (State * nat) :=
  c ← getClient acc.1 clientId;
  let SLO := scaledSLO c in
  foldM (writeFlow SLOs solution SLO) (c_flowIds c) acc.

Definition writeBack (SLOs : list (float * Z)) (solution : option (nat -> float * float))
    (clientGroup : list ClientId) (s : State) : option (State * nat) :=
  foldM (writeClient SLOs solution) clientGroup (s, 0%nat).

(** The body of the loop "Optimize shaper curves": the state after it,
    and whether the LP was solved. *)
Definition optimizeGroup (s : State) (clientGroup : list ClientId) : option (State * bool) :=
  SLOs ← groupSLOs s clientGroup;
  _ ← checkGroup s clientGroup;
  let solution := solveLP s clientGroup in
  let s := set_solverCalls (clientGroup :: solverCalls s) s in
  '(s, _) ← writeBack SLOs solution clientGroup s;
  Some (s, bool_decide (is_Some solution)).

(** ** [WorkloadCompactor::calcShaperParameters] *)
Definition calcShaperParameters (s : State) : option (State * bool) :=
  clientGroups ← discoverGroups (size (_affectedQueueIds s)) s
                    (dom (queues s)) (_affectedQueueIds s) [];
  let s := set_affectedQueueIds ∅ s in
  foldM (fun '(s, result) clientGroup =>
           '(s, solved) ← optimizeGroup s (sortedElements clientGroup);
           Some (s, result && solved))
        clientGroups (s, true).

(** ** [WorkloadCompactor::calcFlowLatency] *)
Definition calcFlowLatency (s : State) (flowId : FlowId) : option (State * float) :=
  s ← (if decide (_affectedQueueIds s = ∅) then Some s
       else '(s, _) ← calcShaperParameters s; Some (set_affectedQueueIds ∅ s));
  DNC.calcFlowLatency s flowId.

(** [NC::calcClientLatency] on a [WorkloadCompactor] object. *)
Definition calcClientLatency (s : State) (clientId : ClientId) : option (State * float) :=
  NC.calcClientLatency calcFlowLatency s clientId.

End WithSolver.

(** ** [WorkloadCompactor::addClient] and [delClient] *)

(** "Mark queues affected by workload addition" (or deletion). *)
Definition markAffected (s : State) (c : Client) : option State :=
  foldM (fun s flowId =>
           f ← getFlow s flowId;
           Some (fold_left (fun s queueId =>
                              set_affectedQueueIds (_affectedQueueIds s ∪ {[queueId]}) s)
                           (f_queueIds f) s))
        (c_flowIds c) s.

Definition addClient (s : State) (clientInfo : ClientInfo) : option (State * ClientId) :=
  '(s, clientId) ← NC.addClient s clientInfo;
  c ← getClient s clientId;
  s ← markAffected s c;
  Some (s, clientId).

Definition delClient (s : State) (clientId : ClientId) : option State :=
  c ← getClient s clientId;
  s ← markAffected s c;
  NC.delClient s clientId.

(** ** Dense ranks, as the specification words them *)

(** [x] occurs in [xs] ([==]). *)
Definition occurs (x : float) (xs : list float) : bool :=
  existsb (fun v => (v =? x)%float) xs.

(** The distinct values of [xs]. *)
Fixpoint distinct (xs : list float) : list float :=
  match xs with
  | [] => []
  | x :: xs => if occurs x xs then distinct xs else x :: distinct xs
  end.

(** The 0-based dense rank of [x] among the distinct values of [xs],
    smallest first: the number of distinct values below [x]. *)
Definition denseRank (x : float) (xs : list float) : nat :=
  length (filter (fun v => (v <? x)%float = true) (distinct xs)).

(** ** Properties of the map [SLOs] *)

Definition keys (SLOs : list (float * Z)) : list float := map fst SLOs.

Definition ascending (ks : list float) : Prop :=
  StronglySorted (fun u v => (u <? v)%float = true) ks.

Definition insertAll (ks : list float) (SLOs : list (float * Z)) : list (float * Z) :=
  fold_left (fun SLOs k => SLOs_insert k SLOs) ks SLOs.

Lemma SLOs_insert_keys_in key SLOs k :
  k ∈ keys (SLOs_insert key SLOs) -> k = key \/ k ∈ keys SLOs.
Proof.
  unfold keys. induction SLOs as [|[k0 v0] rest IH]; simpl.
  - intros H. apply list_elem_of_singleton in H. auto.
  - destruct (key <? k0)%float; [|destruct (k0 <? key)%float]; simpl;
      rewrite !elem_of_cons; tauto.
Qed.

Lemma SLOs_insert_keeps key SLOs k :
  k ∈ keys SLOs -> k ∈ keys (SLOs_insert key SLOs).
Proof.
  unfold keys. induction SLOs as [|[k0 v0] rest IH]; simpl.
  - intros H. inversion H.
  - destruct (key <? k0)%float; [|destruct (k0 <? key)%float]; simpl;
      rewrite !elem_of_cons; tauto.
Qed.

Lemma SLOs_insert_has key SLOs :
  is_number key -> Forall is_number (keys SLOs) ->
  exists k, k ∈ keys (SLOs_insert key SLOs) /\ valueOf k = valueOf key.
Proof.
  unfold keys. intros Hkey. induction SLOs as [|[k0 v0] rest IH]; simpl; intros Hnum.
  - exists key. split; [left | reflexivity].
  - apply Forall_cons in Hnum as [Hk0 Hrest].
    destruct (key <? k0)%float eqn:E1; [|destruct (k0 <? key)%float eqn:E2]; simpl.
    + exists key. split; [left | reflexivity].
    + destruct (IH Hrest) as (k & Hin & Hv). exists k. split; [right; exact Hin | exact Hv].
    + exists k0. split; [left|]. apply not_ltb_valueOf; assumption.
Qed.

Lemma SLOs_insert_ascending key SLOs :
  ascending (keys SLOs) -> ascending (keys (SLOs_insert key SLOs)).
Proof.
  unfold ascending. induction SLOs as [|[k0 v0] rest IH]; simpl; intros Hs.
  - repeat constructor.
  - apply StronglySorted_inv in Hs as [Hrest Hall].
    destruct (key <? k0)%float eqn:E1; [|destruct (k0 <? key)%float eqn:E2]; simpl.
    + constructor; [constructor; assumption|].
      constructor; [exact E1|].
      eapply Forall_impl; [exact Hall|]. intros v Hv. simpl in Hv.
      eapply ltb_trans; eassumption.
    + constructor; [apply IH, Hrest|].
      apply Forall_forall. intros v Hv.
      apply (SLOs_insert_keys_in key rest v) in Hv as [->|Hv]; [exact E2|].
      rewrite Forall_forall in Hall. apply Hall, Hv.
    + constructor; assumption.
Qed.

Lemma insertAll_ascending ks : forall SLOs,
  ascending (keys SLOs) -> ascending (keys (insertAll ks SLOs)).
Proof.
  induction ks as [|k ks IH]; simpl; intros SLOs H; [exact H|].
  apply IH, SLOs_insert_ascending, H.
Qed.

Lemma insertAll_keys_in ks : forall SLOs k,
  k ∈ keys (insertAll ks SLOs) -> k ∈ ks \/ k ∈ keys SLOs.
Proof.
  induction ks as [|k0 ks IH]; simpl; intros SLOs k H; [auto|].
  apply IH in H as [H|H]; [left; right; exact H|].
  apply SLOs_insert_keys_in in H as [->|H]; [left; left | right; exact H].
Qed.

Lemma insertAll_keeps ks : forall SLOs k,
  k ∈ keys SLOs -> k ∈ keys (insertAll ks SLOs).
Proof.
  induction ks as [|k0 ks IH]; simpl; intros SLOs k H; [exact H|].
  apply IH, SLOs_insert_keeps, H.
Qed.

Lemma insertAll_has ks : forall SLOs key,
  Forall is_number ks -> Forall is_number (keys SLOs) ->
  key ∈ ks ->
  exists k, k ∈ keys (insertAll ks SLOs) /\ valueOf k = valueOf key.
Proof.
  induction ks as [|k0 ks IH]; simpl; intros SLOs key Hks HSLOs Hin; [inversion Hin|].
  apply Forall_cons in Hks as [Hk0 Hks].
  assert (Hnum : Forall is_number (keys (SLOs_insert k0 SLOs))).
  { apply Forall_forall. intros v Hv.
    apply SLOs_insert_keys_in in Hv as [->|Hv]; [exact Hk0|].
    rewrite Forall_forall in HSLOs. apply HSLOs, Hv. }
  apply elem_of_cons in Hin as [->|Hin].
  - destruct (SLOs_insert_has k0 SLOs Hk0 HSLOs) as (k & Hk & Hv).
    exists k. split; [apply insertAll_keeps, Hk | exact Hv].
  - apply IH; assumption.
Qed.

Lemma SLOs_number_keys SLOs : forall priority,
  keys (SLOs_number priority SLOs) = keys SLOs.
Proof.
  unfold keys. induction SLOs as [|[k v] rest IH]; simpl; intros p; [reflexivity|].
  rewrite IH. reflexivity.
Qed.

(** In a numbered map, the value found for a key is the number of the
    first entry plus the number of keys below the key. *)
Lemma SLOs_lookup_number key SLOs : forall priority,
  ascending (keys SLOs) -> Forall is_number (keys SLOs) -> is_number key ->
  (exists k, k ∈ keys SLOs /\ valueOf k = valueOf key) ->
  SLOs_lookup key (SLOs_number priority SLOs) =
  (priority + Z.of_nat (length (filter (fun v => (v <? key)%float = true) (keys SLOs))))%Z.
Proof.
  unfold keys, ascending. intros p Hs Hnum Hkey Hex. revert p.
  induction SLOs as [|[k0 v0] rest IH]; simpl; intros p.
  - destruct Hex as (k & Hk & _). inversion Hk.
  - simpl in Hs, Hnum. apply StronglySorted_inv in Hs as [Hrest Hall].
    apply Forall_cons in Hnum as [Hk0 Hnum]. rewrite Forall_forall in Hall.
    destruct Hex as (k & Hk & Hv). simpl in Hk. apply elem_of_cons in Hk.
    rewrite filter_cons. destruct (k0 <? key)%float eqn:E1.
    + rewrite decide_True by reflexivity. simpl length.
      rewrite IH; [lia | assumption | assumption |].
      destruct Hk as [->|Hk]; [|eauto].
      exfalso. apply (ltb_valueOf _ _ E1). exact Hv.
    + rewrite decide_False by congruence.
      assert (Hk0key : valueOf k0 = valueOf key).
      { destruct Hk as [->|Hk]; [exact Hv|].
        exfalso. specialize (Hall k Hk). simpl in Hall.
        rewrite Forall_forall in Hnum.
        rewrite (valueOf_ltb_r k key k0 (Hnum k Hk) Hkey Hv) in Hall. congruence. }
      rewrite (valueOf_ltb_r k0 key key Hk0 Hkey Hk0key), ltb_irrefl.
      assert (Hnone : filter (fun v => (v <? key)%float = true) (map fst rest) = []).
      { destruct (filter (fun v => (v <? key)%float = true) (map fst rest)) as [|v l] eqn:E;
          [reflexivity | exfalso].
        assert (Hv' : v ∈ filter (fun v => (v <? key)%float = true) (map fst rest))
          by (rewrite E; left).
        apply list_elem_of_filter in Hv' as [Hlt Hv'].
        specialize (Hall v Hv'). simpl in Hall.
        rewrite (valueOf_ltb_l k0 key v Hk0 Hkey Hk0key) in Hall.
        rewrite (ltb_asym _ _ Hall) in Hlt. discriminate. }
      rewrite Hnone. simpl. lia.
Qed.

Lemma ascending_NoDup ks : ascending ks -> NoDup (valueOf <$> ks).
Proof.
  unfold ascending. induction 1 as [|k ks Hs IH Hall]; [constructor|].
  rewrite fmap_cons. apply NoDup_cons. split; [|exact IH].
  intros Hin. apply list_elem_of_fmap in Hin as (v & Hv & Hin).
  rewrite Forall_forall in Hall. apply (ltb_valueOf k v (Hall v Hin)), Hv.
Qed.

Lemma occurs_spec x xs :
  occurs x xs = true <-> exists v, v ∈ xs /\ (v =? x)%float = true.
Proof.
  unfold occurs. rewrite existsb_exists. split; intros (v & H1 & H2); exists v.
  - split; [apply list_elem_of_In, H1 | exact H2].
  - split; [apply list_elem_of_In, H1 | exact H2].
Qed.

Lemma distinct_in xs v : v ∈ distinct xs -> v ∈ xs.
Proof.
  induction xs as [|x xs IH]; simpl; [auto|].
  destruct (occurs x xs); rewrite ?elem_of_cons; tauto.
Qed.

Lemma distinct_has xs v :
  Forall is_number xs -> v ∈ xs ->
  exists v', v' ∈ distinct xs /\ valueOf v' = valueOf v.
Proof.
  revert v. induction xs as [|x xs IH]; simpl; intros v Hnum Hin; [inversion Hin|].
  apply Forall_cons in Hnum as [Hx Hnum].
  assert (Hrest : forall u, u ∈ xs ->
            exists v', v' ∈ (if occurs x xs then distinct xs else x :: distinct xs)
                       /\ valueOf v' = valueOf u).
  { intros u Hu. destruct (IH u Hnum Hu) as (v' & Hv' & E). exists v'.
    split; [|exact E]. destruct (occurs x xs); [exact Hv' | right; exact Hv']. }
  apply elem_of_cons in Hin as [->|Hin]; [|apply Hrest, Hin].
  destruct (occurs x xs) eqn:E.
  - apply occurs_spec in E as (u & Hu & Hux).
    destruct (Hrest u Hu) as (v' & Hv' & Ev').
    exists v'. split; [exact Hv'|].
    rewrite Ev'. apply eqb_valueOf, Hux.
  - exists x. split; [left | reflexivity].
Qed.

Lemma distinct_NoDup xs : Forall is_number xs -> NoDup (valueOf <$> distinct xs).
Proof.
  induction xs as [|x xs IH]; simpl; intros Hnum; [constructor|].
  apply Forall_cons in Hnum as [Hx Hnum].
  destruct (occurs x xs) eqn:E; [apply IH, Hnum|].
  rewrite fmap_cons. apply NoDup_cons. split; [|apply IH, Hnum].
  intros Hin. apply list_elem_of_fmap in Hin as (v & Hv & Hin).
  apply distinct_in in Hin.
  assert (Hocc : occurs x xs = true); [|congruence].
  apply occurs_spec. exists v. split; [exact Hin|].
  apply eqb_valueOf. rewrite Forall_forall in Hnum. auto.
Qed.

(** Two lists of numbers that hold the same values, each once, have the
    same number of elements below [x]. *)
Lemma length_filter_below x (l1 l2 : list float) :
  Forall is_number l1 -> Forall is_number l2 ->
  NoDup (valueOf <$> l1) -> NoDup (valueOf <$> l2) ->
  (forall v, v ∈ l1 -> exists v', v' ∈ l2 /\ valueOf v' = valueOf v) ->
  (forall v, v ∈ l2 -> exists v', v' ∈ l1 /\ valueOf v' = valueOf v) ->
  length (filter (fun v => (v <? x)%float = true) l1) =
  length (filter (fun v => (v <? x)%float = true) l2).
Proof.
  intros N1 N2 D1 D2 H12 H21.
  rewrite <- (length_fmap valueOf (filter _ l1)), <- (length_fmap valueOf (filter _ l2)).
  apply Permutation_length, NoDup_Permutation.
  - eapply sublist_NoDup; [exact D1|]. apply fmap_sublist, sublist_filter; apply _.
  - eapply sublist_NoDup; [exact D2|]. apply fmap_sublist, sublist_filter; apply _.
  - rewrite Forall_forall in N1, N2.
    intros w. rewrite !list_elem_of_fmap. split; intros (v & -> & Hv);
      apply list_elem_of_filter in Hv as [Hlt Hv].
    + destruct (H12 v Hv) as (v' & Hv' & E). exists v'. split; [auto|].
      apply list_elem_of_filter. split; [|exact Hv'].
      rewrite (valueOf_ltb_l v' v x); auto.
    + destruct (H21 v Hv) as (v' & Hv' & E). exists v'. split; [auto|].
      apply list_elem_of_filter. split; [|exact Hv'].
      rewrite (valueOf_ltb_l v' v x); auto.
Qed.

(** The number found in the numbered map for one of the inserted keys is
    its dense rank among the inserted keys. *)
Lemma SLOs_lookup_denseRank ks key :
  Forall is_number ks -> key ∈ ks ->
  SLOs_lookup key (SLOs_number 0 (insertAll ks [])) = Z.of_nat (denseRank key ks).
Proof.
  intros Hnum Hin.
  assert (Hks : forall v, v ∈ keys (insertAll ks []) -> v ∈ ks).
  { intros v Hv. apply insertAll_keys_in in Hv as [Hv|Hv]; [exact Hv | inversion Hv]. }
  assert (HnumL : Forall is_number (keys (insertAll ks []))).
  { rewrite Forall_forall in Hnum |- *. auto. }
  assert (Hasc : ascending (keys (insertAll ks []))).
  { apply insertAll_ascending. constructor. }
  rewrite SLOs_lookup_number.
  - rewrite Z.add_0_l. f_equal. unfold denseRank.
    apply length_filter_below.
    + exact HnumL.
    + rewrite Forall_forall in Hnum |- *. intros v Hv. apply Hnum, distinct_in, Hv.
    + apply ascending_NoDup, Hasc.
    + apply distinct_NoDup, Hnum.
    + intros v Hv. apply distinct_has; auto.
    + intros v Hv. apply insertAll_has; [exact Hnum | constructor | apply distinct_in, Hv].
  - exact Hasc.
  - exact HnumL.
  - rewrite Forall_forall in Hnum. auto.
  - apply insertAll_has; [exact Hnum | constructor | exact Hin].
Qed.

(** ** What the write-back loops change *)

(** The part of a flow that the loops do not touch. *)
Definition skeleton (f : Flow) : ClientId * list QueueId := (f_clientId f, f_queueIds f).

(** [s] differs from [s0] at most in the shaper curves, the priorities
    and the latencies of the flows. *)
Definition frame (s0 s : State) : Prop :=
  s = set_flows (flows s) s0 /\
  forall flowId, skeleton <$> flows s !! flowId = skeleton <$> flows s0 !! flowId.

(** The flows of the clients of the group belong to them. *)
Definition owned (s : State) (clientGroup : list ClientId) : Prop :=
  forall clientId c flowId f,
    clientId ∈ clientGroup -> getClient s clientId = Some c ->
    flowId ∈ c_flowIds c -> getFlow s flowId = Some f -> f_clientId f = clientId.

(** What the loop body reads of a flow is there. *)
Definition flowReady (solution : option (nat -> float * float)) (s : State)
    (flowId : FlowId) : Prop :=
  exists f, getFlow s flowId = Some f /\
    (is_Some solution ->
     exists queueId q, head (f_queueIds f) = Some queueId /\ getQueue s queueId = Some q).

Definition hasPriority (s : State) (flowId : FlowId) (priority : Z) : Prop :=
  exists f, getFlow s flowId = Some f /\ f_priority f = priority.

Lemma frame_refl s : frame s s.
Proof. split; [destruct s; reflexivity | reflexivity]. Qed.

Lemma frame_trans s0 s1 s2 : frame s0 s1 -> frame s1 s2 -> frame s0 s2.
Proof.
  intros [E1 H1] [E2 H2]. split.
  - rewrite E2 at 1. rewrite E1. reflexivity.
  - intros flowId. rewrite H2. apply H1.
Qed.

Lemma frame_clients s0 s : frame s0 s -> clients s = clients s0.
Proof. intros [E _]. rewrite E. reflexivity. Qed.

Lemma frame_queues s0 s : frame s0 s -> queues s = queues s0.
Proof. intros [E _]. rewrite E. reflexivity. Qed.

Lemma frame_getClient s0 s clientId : frame s0 s -> getClient s clientId = getClient s0 clientId.
Proof. intros H. unfold getClient. rewrite (frame_clients _ _ H). reflexivity. Qed.

Lemma frame_getFlow s0 s flowId f :
  frame s0 s -> getFlow s flowId = Some f ->
  exists f0, getFlow s0 flowId = Some f0 /\ skeleton f0 = skeleton f.
Proof.
  intros [_ H] E. specialize (H flowId). unfold getFlow in *. rewrite E in H.
  destruct (flows s0 !! flowId) as [f0|]; [|discriminate].
  exists f0. split; [reflexivity|]. simpl in H. congruence.
Qed.

Lemma flowReady_frame solution s0 s flowId :
  frame s0 s -> flowReady solution s0 flowId -> flowReady solution s flowId.
Proof.
  intros Hf (f0 & E0 & Hq). pose proof Hf as [_ H]. specialize (H flowId).
  unfold getFlow in *. rewrite E0 in H.
  destruct (flows s !! flowId) as [f|] eqn:E; [|discriminate].
  exists f. split; [exact E|]. intros Hsol.
  destruct (Hq Hsol) as (queueId & q & Hhead & Hget).
  exists queueId, q. simpl in H. unfold skeleton in H.
  split; [congruence|]. unfold getQueue in *. rewrite (frame_queues _ _ Hf). exact Hget.
Qed.

Lemma setShaperCurve_setFlowPriority s flowId f shaperCurve priority :
  getFlow s flowId = Some f ->
  let s' := setFlowPriority (DNC.setShaperCurve s flowId shaperCurve) flowId priority in
  frame s s' /\
  hasPriority s' flowId priority /\
  (forall flowId', flowId' <> flowId -> getFlow s' flowId' = getFlow s flowId').
Proof.
  intros E s'. subst s'.
  unfold setFlowPriority, DNC.setShaperCurve, hasPriority, getFlow, frame in *.
  unfold set_flows. cbn [flows].
  split; [split|split].
  - reflexivity.
  - intros flowId'. rewrite !lookup_alter.
    destruct (decide (flowId = flowId')) as [->|Hne]; [|reflexivity].
    rewrite decide_True by reflexivity. rewrite E. reflexivity.
  - rewrite !lookup_alter, !decide_True by reflexivity. rewrite E. cbn. eauto.
  - intros flowId' Hne. rewrite !lookup_alter. rewrite !decide_False by congruence.
    reflexivity.
Qed.

Lemma writeFlow_spec SLOs solution SLO s i flowId :
  flowReady solution s flowId ->
  exists s', writeFlow SLOs solution SLO (s, i) flowId = Some (s', S i) /\
    frame s s' /\
    hasPriority s' flowId (SLOs_lookup SLO SLOs) /\
    (forall flowId', flowId' <> flowId -> getFlow s' flowId' = getFlow s flowId').
Proof.
  intros (f & E & Hq). unfold writeFlow. rewrite E.
  destruct solution as [variables|].
  - destruct (Hq (ltac:(eauto))) as (queueId & q & Hhead & Hget).
    cbn [mbind option_bind]. rewrite Hhead. cbn [mbind option_bind].
    rewrite Hget. cbn [mbind option_bind].
    eexists. split; [reflexivity|].
    apply (setShaperCurve_setFlowPriority s flowId f), E.
  - cbn [mbind option_bind].
    eexists. split; [reflexivity|].
    apply (setShaperCurve_setFlowPriority s flowId f), E.
Qed.

Lemma writeFlows_spec SLOs solution SLO flowIds : forall s i,
  (forall flowId, flowId ∈ flowIds -> flowReady solution s flowId) ->
  exists s' i', foldM (writeFlow SLOs solution SLO) flowIds (s, i) = Some (s', i') /\
    frame s s' /\
    (forall flowId, flowId ∈ flowIds -> hasPriority s' flowId (SLOs_lookup SLO SLOs)) /\
    (forall flowId, flowId ∉ flowIds -> getFlow s' flowId = getFlow s flowId).
Proof.
  induction flowIds as [|a rest IH]; intros s i Hready.
  - exists s, i. split; [reflexivity|]. split; [apply frame_refl|].
    split; [intros flowId H; inversion H | reflexivity].
  - destruct (writeFlow_spec SLOs solution SLO s i a) as (s1 & E1 & F1 & P1 & O1).
    { apply Hready. left. }
    destruct (IH s1 (S i)) as (s' & i' & E' & F' & P' & O').
    { intros flowId H. eapply flowReady_frame; [exact F1|]. apply Hready. right. exact H. }
    exists s', i'. cbn [foldM]. rewrite E1. split; [exact E'|].
    split; [eapply frame_trans; eassumption|]. split.
    + intros flowId H. destruct (decide (flowId ∈ rest)) as [Hin|Hout]; [auto|].
      apply elem_of_cons in H as [->|H]; [|contradiction].
      destruct P1 as (f & Ef & Hp). exists f. rewrite (O' a Hout). auto.
    + intros flowId H. apply not_elem_of_cons in H as [Hne Hout].
      rewrite (O' _ Hout). apply O1, Hne.
Qed.

Definition groupReady (solution : option (nat -> float * float)) (s : State)
    (clientGroup : list ClientId) : Prop :=
  forall clientId, clientId ∈ clientGroup ->
    exists c, getClient s clientId = Some c /\
      forall flowId, flowId ∈ c_flowIds c -> flowReady solution s flowId.

Lemma writeClients_spec SLOs solution s0 clientGroup : forall s i,
  frame s0 s -> owned s0 clientGroup -> groupReady solution s0 clientGroup ->
  exists s' i', foldM (writeClient SLOs solution) clientGroup (s, i) = Some (s', i') /\
    frame s s' /\
    (forall clientId c flowId,
       clientId ∈ clientGroup -> getClient s0 clientId = Some c ->
       flowId ∈ c_flowIds c ->
       hasPriority s' flowId (SLOs_lookup (scaledSLO c) SLOs)) /\
    (forall flowId,
       (forall clientId c, clientId ∈ clientGroup -> getClient s0 clientId = Some c ->
                           flowId ∉ c_flowIds c) ->
       getFlow s' flowId = getFlow s flowId).
Proof.
  induction clientGroup as [|a rest IH]; intros s i F0 Hown Hready.
  - exists s, i. split; [reflexivity|]. split; [apply frame_refl|].
    split; [intros ? ? ? H; inversion H | reflexivity].
  - destruct (Hready a) as (ca & Eca & Hflows); [left|].
    destruct (writeFlows_spec SLOs solution (scaledSLO ca) (c_flowIds ca) s i)
      as (s1 & i1 & E1 & F1 & P1 & O1).
    { intros flowId H. eapply flowReady_frame; [exact F0 | apply Hflows, H]. }
    destruct (IH s1 i1) as (s' & i' & E' & F' & P' & O').
    { eapply frame_trans; eassumption. }
    { intros clientId c flowId f H. apply Hown. right. exact H. }
    { intros clientId H. apply Hready. right. exact H. }
    exists s', i'. cbn [foldM]. unfold writeClient at 1. cbn [fst].
    rewrite (frame_getClient _ _ a F0), Eca. cbn [mbind option_bind]. rewrite E1.
    split; [exact E'|]. split; [eapply frame_trans; eassumption|]. split.
    + intros clientId c flowId Hin Ec Hflow.
      destruct (decide (clientId ∈ rest)) as [Hrest|Hrest]; [eauto|].
      apply elem_of_cons in Hin as [->|Hin]; [|contradiction].
      assert (c = ca) by congruence. subst c.
      destruct (P1 flowId Hflow) as (f & Ef & Hp). exists f. split; [|exact Hp].
      rewrite <- Ef. apply O'. intros clientId' c' Hin' Ec' Hflow'.
      destruct (Hflows flowId Hflow) as (f0 & Ef0 & _).
      assert (H1 : f_clientId f0 = a).
      { apply (Hown a ca flowId f0); [left | assumption..]. }
      assert (H2 : f_clientId f0 = clientId').
      { apply (Hown clientId' c' flowId f0); [right | ..]; assumption. }
      apply Hrest. congruence.
    + intros flowId H. rewrite O'.
      * apply O1. apply (H a ca); [left | exact Eca].
      * intros clientId c Hin. apply H. right. exact Hin.
Qed.

Lemma foldM_unit {A} (f : unit -> A -> option unit) l :
  foldM f l tt = Some tt -> forall a, a ∈ l -> f tt a = Some tt.
Proof.
  induction l as [|a0 l IH]; cbn [foldM]; intros H a Hin; [inversion Hin|].
  destruct (f tt a0) as [[]|] eqn:E; [|discriminate].
  apply elem_of_cons in Hin as [->|Hin]; auto.
Qed.

Lemma checkGroup_ready solution s clientGroup :
  checkGroup s clientGroup = Some tt -> groupReady solution s clientGroup.
Proof.
  intros H clientId Hin. unfold checkGroup in H.
  pose proof (foldM_unit _ _ H clientId Hin) as Hc. cbn beta in Hc.
  destruct (getClient s clientId) as [c|]; [|discriminate].
  exists c. split; [reflexivity|]. intros flowId Hflow. cbn [mbind option_bind] in Hc.
  pose proof (foldM_unit _ _ Hc flowId Hflow) as Hf. cbn beta in Hf.
  unfold checkFlow in Hf.
  destruct (getFlow s flowId) as [f|] eqn:Ef; [|discriminate].
  exists f. split; [exact Ef|]. intros _. cbn [mbind option_bind] in Hf.
  destruct (head (f_queueIds f)) as [queueId|]; [|discriminate].
  cbn [mbind option_bind] in Hf.
  destruct (getQueue s queueId) as [q|] eqn:Eq; [|discriminate].
  eauto.
Qed.

(** The keys inserted in the map [SLOs]. *)
Definition groupKeys (s : State) (clientGroup : list ClientId) : list float :=
  omap (fun clientId => scaledSLO <$> getClient s clientId) clientGroup.

Lemma groupSLOs_insertAll s clientGroup : forall SLOs,
  (forall clientId, clientId ∈ clientGroup -> is_Some (getClient s clientId)) ->
  foldM (fun SLOs clientId =>
           c ← getClient s clientId;
           Some (SLOs_insert (scaledSLO c) SLOs))
        clientGroup SLOs
  = Some (insertAll (groupKeys s clientGroup) SLOs).
Proof.
  induction clientGroup as [|a rest IH]; intros SLOs H; [reflexivity|].
  destruct (H a) as [c Ec]; [left|].
  cbn [foldM groupKeys omap list_omap]. rewrite Ec. cbn [mbind option_bind fmap option_fmap option_map].
  rewrite IH by (intros clientId Hin; apply H; right; exact Hin). reflexivity.
Qed.

Lemma groupKeys_spec s clientGroup k :
  k ∈ groupKeys s clientGroup <->
  exists clientId c, clientId ∈ clientGroup /\ getClient s clientId = Some c /\ k = scaledSLO c.
Proof.
  unfold groupKeys. rewrite list_elem_of_omap. split.
  - intros (clientId & Hin & E). destruct (getClient s clientId) as [c|] eqn:Ec; [|discriminate].
    exists clientId, c. cbn in E. split; [exact Hin|]. split; [exact Ec | unfold scaledSLO; congruence].
  - intros (clientId & c & Hin & Ec & ->). exists clientId. rewrite Ec. auto.
Qed.

Section Priorities.

Variable solveLP : State -> list ClientId -> option (nat -> float * float).

(** One turn of the loop "Optimize shaper curves" returns when the
    assertions of building the LP hold; it changes the flows and the log
    of the solver only, and numbers the flows of the group by the dense
    ranks of the keys of their clients. *)
Lemma optimizeGroup_spec (s : State) (clientGroup : list ClientId) :
  owned s clientGroup ->
  Forall is_number (groupKeys s clientGroup) ->
  checkGroup s clientGroup = Some tt ->
  exists s',
    optimizeGroup solveLP s clientGroup
      = Some (s', bool_decide (is_Some (solveLP s clientGroup))) /\
    frame (set_solverCalls (clientGroup :: solverCalls s) s) s' /\
    (forall clientId c flowId,
       clientId ∈ clientGroup -> getClient s clientId = Some c ->
       flowId ∈ c_flowIds c ->
       hasPriority s' flowId
         (Z.of_nat (denseRank (scaledSLO c) (groupKeys s clientGroup)))) /\
    (forall flowId,
       (forall clientId c, clientId ∈ clientGroup -> getClient s clientId = Some c ->
                           flowId ∉ c_flowIds c) ->
       getFlow s' flowId = getFlow s flowId).
Proof.
  intros Hown Hnum Hcheck.
  pose proof (checkGroup_ready (solveLP s clientGroup) s clientGroup Hcheck) as Hready.
  unfold optimizeGroup, groupSLOs.
  rewrite groupSLOs_insertAll.
  2:{ intros clientId Hin. destruct (Hready clientId Hin) as (c & -> & _). eauto. }
  cbn [mbind option_bind]. rewrite Hcheck. cbn [mbind option_bind]. unfold writeBack.
  destruct (writeClients_spec
              (SLOs_number 0 (insertAll (groupKeys s clientGroup) []))
              (solveLP s clientGroup)
              (set_solverCalls (clientGroup :: solverCalls s) s) clientGroup
              (set_solverCalls (clientGroup :: solverCalls s) s) 0%nat)
    as (s' & i' & E & F & P & O).
  { apply frame_refl. }
  { exact Hown. }
  { exact Hready. }
  rewrite E. cbn [mbind option_bind]. exists s'. split; [reflexivity|].
  split; [exact F|]. split; [|exact O].
  intros clientId c flowId Hin Ec Hflow.
  rewrite <- (SLOs_lookup_denseRank (groupKeys s clientGroup) (scaledSLO c) Hnum).
  - apply (P clientId c flowId Hin Ec Hflow).
  - apply groupKeys_spec. eauto.
Qed.

End Priorities.

(** ** Keys and SLOs *)

(** The SLOs of the clients of a group. *)
Definition groupValues (s : State) (clientGroup : list ClientId) : list float :=
  omap (fun clientId => c_SLO <$> getClient s clientId) clientGroup.

(** [g] keeps the order ([<]) and the equality ([==]) of the values [xs]. *)
Definition orderKept (g : float -> float) (xs : list float) : Prop :=
  forall u v, u ∈ xs -> v ∈ xs ->
    (g u <? g v)%float = (u <? v)%float /\ (g u =? g v)%float = (u =? v)%float.

Lemma groupKeys_groupValues s clientGroup :
  groupKeys s clientGroup = map (fun v => (v * 0.999)%float) (groupValues s clientGroup).
Proof.
  unfold groupKeys, groupValues. induction clientGroup as [|a rest IH]; [reflexivity|].
  cbn [omap list_omap]. destruct (getClient s a) as [c|]; cbn; [|exact IH].
  rewrite IH. reflexivity.
Qed.

Lemma occurs_map g xs x :
  (forall v, v ∈ xs -> (g v =? g x)%float = (v =? x)%float) ->
  occurs (g x) (map g xs) = occurs x xs.
Proof.
  unfold occurs. induction xs as [|a xs IH]; intros H; [reflexivity|].
  cbn [map existsb]. rewrite (H a) by left.
  rewrite IH by (intros v Hv; apply H; right; exact Hv). reflexivity.
Qed.

Lemma distinct_map g xs :
  orderKept g xs -> distinct (map g xs) = map g (distinct xs).
Proof.
  induction xs as [|a xs IH]; intros H; [reflexivity|].
  assert (Hxs : orderKept g xs).
  { intros u v Hu Hv. apply H; right; assumption. }
  cbn [map distinct]. rewrite occurs_map.
  - destruct (occurs a xs); cbn [map]; rewrite IH by exact Hxs; reflexivity.
  - intros v Hv. apply H; [right; exact Hv | left].
Qed.

Lemma length_filter_map g (l : list float) x :
  (forall v, v ∈ l -> (g v <? g x)%float = (v <? x)%float) ->
  length (filter (fun v => (v <? g x)%float = true) (map g l)) =
  length (filter (fun v => (v <? x)%float = true) l).
Proof.
  induction l as [|a l IH]; intros H; [reflexivity|].
  cbn [map]. rewrite !filter_cons. rewrite (H a) by left.
  assert (IH' := IH (fun v Hv => H v (ltac:(right; exact Hv)))).
  destruct (decide ((a <? x)%float = true)); cbn [length]; rewrite IH'; reflexivity.
Qed.

Lemma denseRank_map g xs x :
  x ∈ xs -> orderKept g xs -> denseRank (g x) (map g xs) = denseRank x xs.
Proof.
  intros Hx H. unfold denseRank. rewrite distinct_map by exact H.
  apply length_filter_map. intros v Hv. apply H; [apply distinct_in, Hv | exact Hx].
Qed.

(** Where the scaling by 0.999 keeps the order and the equality of the
    SLOs of a group, the rank of a key is the rank of its SLO. *)
Lemma denseRank_scaledSLO s clientGroup clientId c :
  orderKept (fun v => (v * 0.999)%float) (groupValues s clientGroup) ->
  clientId ∈ clientGroup -> getClient s clientId = Some c ->
  denseRank (scaledSLO c) (groupKeys s clientGroup)
  = denseRank (c_SLO c) (groupValues s clientGroup).
Proof.
  intros H Hin Ec. rewrite groupKeys_groupValues. unfold scaledSLO.
  apply (denseRank_map (fun v => (v * 0.999)%float)); [|exact H].
  unfold groupValues. apply list_elem_of_omap. exists clientId.
  split; [exact Hin|]. rewrite Ec. reflexivity.
Qed.

Section Ranks.

Variable solveLP : State -> list ClientId -> option (nat -> float * float).

(** C6 (amended).  After the re-optimization of a connected component
    (client group), whether the LP was solved or not, the priority of every
    flow of every client of the group is the 0-based dense rank of the key
    [SLO * 0.999] of its client (the product as the double arithmetic
    rounds it) among the distinct keys of the clients of the group, the
    smallest key having rank 0.  Where the scaling by 0.999 keeps the
    order and the equality of the SLOs of the group, this is the dense
    rank of the SLO of the client among the distinct SLOs of the group.
    The re-optimization returns whenever the assertions made while the LP
    is built hold. *)
Theorem optimizeGroup_priorities (s : State) (clientGroup : list ClientId) :
  owned s clientGroup ->
  Forall is_number (groupKeys s clientGroup) ->
  checkGroup s clientGroup = Some tt ->
  exists s',
    optimizeGroup solveLP s clientGroup
      = Some (s', bool_decide (is_Some (solveLP s clientGroup))) /\
    forall clientId c flowId,
      clientId ∈ clientGroup -> getClient s clientId = Some c ->
      flowId ∈ c_flowIds c ->
      exists f, getFlow s' flowId = Some f /\
        f_priority f = Z.of_nat (denseRank (scaledSLO c) (groupKeys s clientGroup)) /\
        (orderKept (fun v => (v * 0.999)%float) (groupValues s clientGroup) ->
         f_priority f = Z.of_nat (denseRank (c_SLO c) (groupValues s clientGroup))).
Proof.
  intros Hown Hnum Hcheck.
  destruct (optimizeGroup_spec solveLP s clientGroup Hown Hnum Hcheck)
    as (s' & E & _ & P & _).
  exists s'. split; [exact E|].
  intros clientId c flowId Hin Ec Hflow.
  destruct (P clientId c flowId Hin Ec Hflow) as (f & Ef & Hp).
  exists f. split; [exact Ef|]. split; [exact Hp|].
  intros Hkept. rewrite Hp. f_equal.
  eapply denseRank_scaledSLO; eassumption.
Qed.

End Ranks.

(** ** Examples *)

(** [owned], decided. *)
Definition ownedb (s : State) (clientGroup : list ClientId) : bool :=
  forallb (fun clientId =>
             match getClient s clientId with
             | Some c =>
               forallb (fun flowId =>
                          match getFlow s flowId with
                          | Some f => bool_decide (f_clientId f = clientId)
                          | None => true
                          end)
                       (c_flowIds c)
             | None => true
             end)
          clientGroup.

Lemma ownedb_spec s clientGroup : ownedb s clientGroup = true -> owned s clientGroup.
Proof.
  unfold ownedb, owned. rewrite forallb_forall.
  intros H clientId c flowId f Hin Ec Hflow Ef.
  specialize (H clientId (proj1 (list_elem_of_In _ _) Hin)). rewrite Ec in H.
  rewrite forallb_forall in H.
  specialize (H flowId (proj1 (list_elem_of_In _ _) Hflow)). rewrite Ef in H.
  apply bool_decide_eq_true in H. exact H.
Qed.

(** [Forall is_number], decided. *)
Lemma numbers_spec (ks : list float) :
  forallb (fun k => negb (is_nan k)) ks = true -> Forall is_number ks.
Proof.
  rewrite forallb_forall, Forall_forall. intros H k Hk.
  specialize (H k (proj1 (list_elem_of_In _ _) Hk)).
  unfold is_number. destruct (is_nan k); [discriminate | reflexivity].
Qed.

(** The descriptor of a client with one flow on [path], whose arrival
    curve is the rate limit (rate, burst). *)
Definition sloClient (clientName flowName : string) (path : list string)
    (SLO rate burst : float) (admitted : option bool) : ClientInfo :=
  {| jc_name := Some clientName; jc_SLO := Some SLO;
     jc_SLOpercentile := Some 99.9%float; jc_admitted := admitted;
     jc_flows :=
       Some [ {| jf_name := Some flowName; jf_queues := Some path;
                 jf_arrivalInfo := Some [ {| x := 0; y := burst; slope := rate |} ];
                 jf_priority := None; jf_ignoreLatency := None |} ] |}.

(** An LP oracle: a client alone gets the normalized rate 0.25 and burst
    0.5; the LP of any other group has no solution. *)
Definition exampleLP (s : State) (clientGroup : list ClientId)
  : option (nat -> float * float) :=
  match clientGroup with
  | [_] => Some (fun _ => (0.25, 0.5)%float)
  | _ => None
  end.

(** An LP oracle: every flow gets the normalized rate 0.25 and burst 0.5. *)
Definition uniformLP (s : State) (clientGroup : list ClientId)
  : option (nat -> float * float) :=
  Some (fun _ => (0.25, 0.5)%float).

(** One queue Q of bandwidth 1 (queue id 1). *)
Definition oneQueue : option State :=
  '(s, _) ← addQueue (newState DNC_SIMPLE_ALGORITHM_AGGREGATE) (DNC.unitQueue "Q");
  Some s.

(** Three clients on Q; the SLOs of A and B are adjacent doubles. *)
Definition closeSLOs : State :=
  default (newState DNC_SIMPLE_ALGORITHM_AGGREGATE)
    (s ← oneQueue;
     '(s, _) ← addClient s (sloClient "A" "FA" ["Q"] 8.61 0.25 0.5 None);
     '(s, _) ← addClient s (sloClient "B" "FB" ["Q"] (next_down 8.61) 0.25 0.5 None);
     '(s, _) ← addClient s (sloClient "C" "FC" ["Q"] 5 0.25 0.5 None);
     Some s).

Definition flowPriorities (s : option State) (flowIds : list FlowId) : list (option Z) :=
  map (fun flowId => s ← s; f ← getFlow s flowId; Some (f_priority f)) flowIds.

(** C6, as stated, fails.  In [closeSLOs] the SLOs of the clients A, B
    and C are three distinct values, 8.61, the double just below 8.61,
    and 5, whose dense ranks are 2, 1 and 0.  The keys of A and B, their
    SLOs times 0.999, are the same double, so the map [SLOs] has two
    entries and the flows of A and B both get priority 1. *)
Lemma close_SLOs_share_priority :
  groupValues closeSLOs [1; 2; 3]%Z = [8.61; next_down 8.61; 5]%float /\
  (next_down 8.61 <? 8.61)%float = true /\
  groupKeys closeSLOs [1; 2; 3]%Z
    = [8.6013899999999985; 8.6013899999999985; 4.9950000000000001]%float /\
  map (fun v => denseRank v (groupValues closeSLOs [1; 2; 3]%Z))
      (groupValues closeSLOs [1; 2; 3]%Z) = [2; 1; 0]%nat /\
  flowPriorities (fst <$> optimizeGroup exampleLP closeSLOs [1; 2; 3]%Z) [1; 2; 3]%Z
    = [Some 1; Some 1; Some 0]%Z /\
  flowPriorities (fst <$> optimizeGroup uniformLP closeSLOs [1; 2; 3]%Z) [1; 2; 3]%Z
    = [Some 1; Some 1; Some 0]%Z.
Proof. conjuncts; vm_compute; reflexivity. Qed.

(** Three clients on Q with the SLOs 10, 5 and 10. *)
Definition threeClients : State :=
  default (newState DNC_SIMPLE_ALGORITHM_AGGREGATE)
    (s ← oneQueue;
     '(s, _) ← addClient s (sloClient "A" "FA" ["Q"] 10 0.25 0.5 None);
     '(s, _) ← addClient s (sloClient "B" "FB" ["Q"] 5 0.25 0.5 None);
     '(s, _) ← addClient s (sloClient "C" "FC" ["Q"] 10 0.25 0.5 None);
     Some s).

(** [orderKept], decided on a list of values. *)
Definition orderKeptb (g : float -> float) (xs : list float) : bool :=
  forallb (fun u =>
             forallb (fun v =>
                        Bool.eqb (g u <? g v)%float (u <? v)%float
                        && Bool.eqb (g u =? g v)%float (u =? v)%float)
                     xs)
          xs.

Lemma orderKeptb_spec g xs : orderKeptb g xs = true -> orderKept g xs.
Proof.
  unfold orderKeptb, orderKept. rewrite forallb_forall. intros H u v Hu Hv.
  specialize (H u (proj1 (list_elem_of_In _ _) Hu)). rewrite forallb_forall in H.
  specialize (H v (proj1 (list_elem_of_In _ _) Hv)).
  apply andb_true_iff in H as [H1 H2].
  apply Bool.eqb_prop in H1. apply Bool.eqb_prop in H2. auto.
Qed.

(** [optimizeGroup_priorities] at the group of [threeClients]: the flows
    of A and C get priority 1, the flow of B priority 0. *)
Lemma optimizeGroup_priorities_witness :
  exists s',
    optimizeGroup uniformLP threeClients [1; 2; 3]%Z = Some (s', true) /\
    flowPriorities (Some s') [1; 2; 3]%Z = [Some 1; Some 0; Some 1]%Z.
Proof.
  destruct (optimizeGroup_priorities uniformLP threeClients [1; 2; 3]%Z)
    as (s' & E & H).
  - apply ownedb_spec. vm_compute. reflexivity.
  - apply numbers_spec. vm_compute. reflexivity.
  - vm_compute. reflexivity.
  - exists s'. split; [exact E|].
    assert (Hkept : orderKept (fun v => (v * 0.999)%float)
                      (groupValues threeClients [1; 2; 3]%Z)).
    { apply orderKeptb_spec. vm_compute. reflexivity. }
    assert (Hflow : forall clientId c,
              clientId ∈ [1; 2; 3]%Z -> getClient threeClients clientId = Some c ->
              c_flowIds c = [clientId] ->
              (s0 ← Some s'; f ← getFlow s0 clientId; Some (f_priority f))
              = Some (Z.of_nat (denseRank (c_SLO c) (groupValues threeClients [1; 2; 3]%Z)))).
    { intros clientId c Hin Ec Hids.
      destruct (H clientId c clientId Hin Ec) as (f & Ef & _ & Hp).
      - rewrite Hids. left.
      - cbn [mbind option_bind]. rewrite Ef. cbn [mbind option_bind].
        rewrite (Hp Hkept). reflexivity. }
    unfold flowPriorities. cbn [map].
    rewrite (Hflow 1%Z _ ltac:(left) eq_refl eq_refl).
    rewrite (Hflow 2%Z _ ltac:(right; left) eq_refl eq_refl).
    rewrite (Hflow 3%Z _ ltac:(right; right; left) eq_refl eq_refl).
    vm_compute. reflexivity.
Defined.

(** ** Lazy re-optimization *)








Section Lazy.

Variable solveLP : State -> list ClientId -> option (nat -> float * float).







End Lazy.

(** A client X (SLO 10) on Q, just added: Q is affected. *)
Definition oneClient : State :=
  default (newState DNC_SIMPLE_ALGORITHM_AGGREGATE)
    (s ← oneQueue;
     '(s, _) ← addClient s (sloClient "X" "FX" ["Q"] 10 0.25 0.5 None);
     Some s).

(** The state after a first and after a second query of the latency of
    the flow of X, and the latencies. *)
Definition oneClientQueried : State * float :=
  default (oneClient, 0%float) (calcFlowLatency exampleLP oneClient 1).

Definition oneClientQueriedAgain : State * float :=
  default (oneClient, 0%float) (calcFlowLatency exampleLP oneClientQueried.1 1).

(** The first query re-optimizes, the second one does not. *)
Example lazy_reoptimization_run :
  _affectedQueueIds oneClient = {[1%Z]} /\
  solverCalls oneClient = [] /\
  calcFlowLatency exampleLP oneClient 1 = Some oneClientQueried /\
  solverCalls oneClientQueried.1 = [[1%Z]] /\
  DNC.getShaperCurve oneClientQueried.1 1 = Some {| r := 0.25; b := 0.5 |} /\
  oneClientQueried.2 = 0.5%float /\
  calcFlowLatency exampleLP oneClientQueried.1 1 = Some oneClientQueriedAgain /\
  oneClientQueriedAgain = oneClientQueried.
Proof. conjuncts; vm_compute; reflexivity. Qed.


(** ** What the operations keep of the clients *)

(** The record of a client without its latency. *)
Definition clientTopology (c : Client)
  : ClientId * string * list FlowId * float * option float :=
  (c_clientId c, c_name c, c_flowIds c, c_SLO c, c_SLOpercentile c).

(** The clients of [s'] are those of [s], up to their latencies. *)
Definition sameClients (s s' : State) : Prop :=
  forall clientId,
    clientTopology <$> getClient s' clientId = clientTopology <$> getClient s clientId.



Lemma sameClients_eq s s' : clients s' = clients s -> sameClients s s'.
Proof. intros E clientId. unfold getClient. rewrite E. reflexivity. Qed.



(** Marking queues changes the set of the affected queues only. *)
Lemma markAffected_only s c s' :
  markAffected s c = Some s' -> s' = set_affectedQueueIds (_affectedQueueIds s') s.
Proof.
  unfold markAffected.
  apply (foldM_invariant (fun a => a = set_affectedQueueIds (_affectedQueueIds a) s)).
  - intros acc flowId acc' Hacc E.
    destruct (getFlow acc flowId) as [f|]; [|discriminate]. cbn [mbind option_bind] in E.
    inversion E; subst. clear E.
    generalize (f_queueIds f). intros l. revert acc Hacc.
    induction l as [|queueId l IH]; intros acc Hacc; cbn [fold_left]; [exact Hacc|].
    apply IH. rewrite Hacc. reflexivity.
  - destruct s; reflexivity.
Qed.


Section Clients.

Variable solveLP : State -> list ClientId -> option (nat -> float * float).




End Clients.

(** ** Deleting a client *)



(** ** What the operations keep of the flows *)








Section Flows.

Variable solveLP : State -> list ClientId -> option (nat -> float * float).





End Flows.

(** ** Deleting a client marks its queues *)




(** ** The fuel of the group discovery is enough *)

(** What bounds the turns of the inner loop: the queues not yet visited
    and the queues on the stack. *)
Definition turnsLeft (d : Discovery) : nat :=
  (size (remainingQueueIds d) + length (pendingQueueIds d))%nat.

Lemma size_remove (X : gset Z) (k : Z) : k ∈ X -> S (size (X ∖ {[k]})) = size X.
Proof.
  intros Hk. rewrite size_difference by (apply singleton_subseteq_l, Hk).
  rewrite size_singleton.
  assert (size X <> 0%nat); [|lia].
  intros H0. apply size_empty_inv in H0. rewrite (H0 k) in Hk.
  exact (not_elem_of_empty (C:=gset Z) k Hk).
Qed.

Lemma visitFlow_turnsLeft d f :
  turnsLeft (visitFlow d f) = turnsLeft d /\
  affectedQueueIds (visitFlow d f) ⊆ affectedQueueIds d.
Proof.
  unfold visitFlow. generalize (f_queueIds f). intros l. revert d.
  induction l as [|queueId l IH]; intros d; cbn [fold_left]; [split; reflexivity|].
  destruct (decide (queueId ∈ remainingQueueIds d)) as [Hin|Hout]; [|apply IH].
  match goal with |- context [fold_left _ l ?d1] => destruct (IH d1) as [E1 E2] end.
  rewrite E1. unfold turnsLeft in *. cbn in *. split.
  - rewrite <- (size_remove _ _ Hin). lia.
  - intros k Hk. apply E2 in Hk. apply elem_of_difference in Hk. tauto.
Qed.

Lemma visitQueue_turnsLeft s d queue d' :
  visitQueue s d queue = Some d' ->
  turnsLeft d' = turnsLeft d /\ affectedQueueIds d' ⊆ affectedQueueIds d.
Proof.
  unfold visitQueue.
  apply (foldM_invariant
           (fun a => turnsLeft a = turnsLeft d /\ affectedQueueIds a ⊆ affectedQueueIds d));
    [|split; reflexivity].
  intros a it a' [Ha1 Ha2] E.
  destruct (getFlow s (fi_flowId it)) as [flow|]; [|discriminate].
  cbn [mbind option_bind] in E.
  destruct (getClient s (f_clientId flow)) as [c|]; [|discriminate].
  cbn [mbind option_bind] in E. revert E.
  apply (foldM_invariant
           (fun a => turnsLeft a = turnsLeft d /\ affectedQueueIds a ⊆ affectedQueueIds d));
    [|split; [exact Ha1 | exact Ha2]].
  intros b flowId b' [Hb1 Hb2] E.
  destruct (getFlow s flowId) as [f|]; [|discriminate].
  cbn [mbind option_bind] in E. inversion E; subst.
  destruct (visitFlow_turnsLeft b f) as [H1 H2]. split; [congruence|].
  intros k Hk. apply Hb2, H2, Hk.
Qed.

(** More fuel than the turns left changes nothing: the inner loop of
    the discovery never stops for lack of fuel. *)
Lemma discoverGroup_fuel s fuel : forall fuel' d,
  (turnsLeft d <= fuel)%nat -> (turnsLeft d <= fuel')%nat ->
  discoverGroup fuel s d = discoverGroup fuel' s d.
Proof.
  induction fuel as [|fuel IH]; intros fuel' d H H'.
  - destruct d as [rem aff grp pending]. unfold turnsLeft in H, H'. cbn in H, H'.
    destruct pending as [|queueId pending]; [|cbn in H; lia].
    destruct fuel'; reflexivity.
  - destruct d as [rem aff grp pending]. destruct pending as [|queueId pending].
    + destruct fuel'; reflexivity.
    + destruct fuel' as [|fuel']; [unfold turnsLeft in H'; cbn in H'; lia|].
      cbn [discoverGroup pendingQueueIds remainingQueueIds affectedQueueIds clientGroup].
      destruct (getQueue s queueId) as [queue|]; [|reflexivity].
      cbn [mbind option_bind].
      destruct (visitQueue s _ queue) as [d1|] eqn:E; [|reflexivity].
      cbn [mbind option_bind].
      apply visitQueue_turnsLeft in E as [E _].
      unfold turnsLeft in *. cbn in *. apply IH; lia.
Qed.

Lemma discoverGroup_affected s fuel : forall d d',
  discoverGroup fuel s d = Some d' -> affectedQueueIds d' ⊆ affectedQueueIds d.
Proof.
  induction fuel as [|fuel IH]; intros d d'.
  - destruct d as [rem aff grp pending]. destruct pending; cbn; [|discriminate].
    intros E. inversion E. reflexivity.
  - destruct d as [rem aff grp pending]. destruct pending as [|queueId pending]; cbn.
    + intros E. inversion E. reflexivity.
    + destruct (getQueue s queueId) as [queue|]; [|discriminate].
      cbn [mbind option_bind].
      destruct (visitQueue s _ queue) as [d1|] eqn:E; [|discriminate].
      cbn [mbind option_bind]. intros H. apply IH in H.
      apply visitQueue_turnsLeft in E as [_ E]. cbn in E.
      intros k Hk. apply E, H, Hk.
Qed.

(** The outer loop never stops for lack of fuel either. *)
Lemma discoverGroups_fuel s fuel : forall fuel' remaining affected clientGroups,
  (size affected <= fuel)%nat -> (size affected <= fuel')%nat ->
  discoverGroups fuel s remaining affected clientGroups
  = discoverGroups fuel' s remaining affected clientGroups.
Proof.
  induction fuel as [|fuel IH]; intros fuel' remaining affected clientGroups H H'.
  - assert (E' : sortedElements affected = []).
    { destruct (sortedElements affected) as [|k l] eqn:Ek; [reflexivity|].
      assert (Hk : k ∈ sortedElements affected) by (rewrite Ek; left).
      apply sortedElements_spec in Hk.
      assert (H0 : size affected = 0%nat) by lia. apply size_empty_inv in H0.
      exfalso. rewrite (H0 k) in Hk. exact (not_elem_of_empty (C:=gset Z) k Hk). }
    destruct fuel'; cbn [discoverGroups]; rewrite E'; reflexivity.
  - destruct (sortedElements affected) as [|first rest] eqn:E.
    + destruct fuel'; cbn [discoverGroups]; rewrite E; reflexivity.
    + assert (Hfirst : first ∈ affected).
      { apply sortedElements_spec. rewrite E. left. }
      pose proof (size_remove _ _ Hfirst) as Hsize.
      destruct fuel' as [|fuel']; [lia|].
      cbn [discoverGroups]. rewrite E.
      destruct (discoverGroup _ s _) as [d|] eqn:Ed; [|reflexivity].
      cbn [mbind option_bind].
      apply discoverGroup_affected in Ed. cbn in Ed.
      apply subseteq_size in Ed. apply IH; lia.
Qed.

(** ** The additions return *)

(** The names resolve to queues of the engine. *)
Definition namesResolve (s : State) (names : list string) : Prop :=
  Forall (fun name => is_Some (getQueue s (getQueueIdByName s name))) names.

(** [s'] has the queue names and the queue ids of [s]. *)
Definition sameQueueNames (s s' : State) : Prop :=
  queueIds s' = queueIds s /\ dom (queues s') = dom (queues s).

(** What [initFlow] and [addClient] read of a descriptor is there. *)
Definition readyFlow (s : State) (flowInfo : FlowInfo) : Prop :=
  exists name names,
    jf_name flowInfo = Some name /\ jf_queues flowInfo = Some names /\
    namesResolve s names.

Definition readyClient (s : State) (clientInfo : ClientInfo) : Prop :=
  exists name SLO flowInfos,
    jc_name clientInfo = Some name /\ jc_SLO clientInfo = Some SLO /\
    jc_flows clientInfo = Some flowInfos /\ Forall (readyFlow s) flowInfos.

Lemma sameQueueNames_refl s : sameQueueNames s s.
Proof. split; reflexivity. Qed.

Lemma sameQueueNames_trans s0 s1 s2 :
  sameQueueNames s0 s1 -> sameQueueNames s1 s2 -> sameQueueNames s0 s2.
Proof. intros [H1 H2] [H3 H4]. split; congruence. Qed.

Lemma namesResolve_same s s' names :
  sameQueueNames s s' -> namesResolve s names -> namesResolve s' names.
Proof.
  intros [Hn Hd] H. unfold namesResolve in *. eapply Forall_impl; [exact H|].
  intros name. unfold getQueue, getQueueIdByName. rewrite Hn, <- !elem_of_dom, Hd. auto.
Qed.

Lemma readyFlow_same s s' flowInfo :
  sameQueueNames s s' -> readyFlow s flowInfo -> readyFlow s' flowInfo.
Proof.
  intros H (name & names & H1 & H2 & H3). exists name, names.
  split; [exact H1|]. split; [exact H2|]. eapply namesResolve_same; eassumption.
Qed.

Lemma readyClient_same s s' clientInfo :
  sameQueueNames s s' -> readyClient s clientInfo -> readyClient s' clientInfo.
Proof.
  intros H (name & SLO & flowInfos & H1 & H2 & H3 & H4). exists name, SLO, flowInfos.
  split; [exact H1|]. split; [exact H2|]. split; [exact H3|].
  eapply Forall_impl; [exact H4|]. intros flowInfo. apply readyFlow_same, H.
Qed.

Lemma resolveQueues_total s names :
  namesResolve s names -> is_Some (resolveQueues s names).
Proof.
  induction 1 as [|name names [q Hq] _ [ids IH]]; cbn [resolveQueues]; [eauto|].
  rewrite Hq, IH. cbn. eauto.
Qed.

Lemma wireFlow_dom path : forall flowId index (qs : gmap Z Queue),
  dom (wireFlow flowId index path qs) = dom qs.
Proof.
  induction path as [|queueId path IH]; intros flowId index qs; cbn [wireFlow];
    [reflexivity|].
  rewrite IH. apply dom_alter_L.
Qed.

Lemma initFlow_total s flowInfo clientId :
  readyFlow s flowInfo ->
  exists s' flowId,
    initFlow s flowInfo clientId = Some (s', flowId) /\
    sameQueueNames s s' /\
    is_Some (getFlow s' flowId) /\
    (forall k, is_Some (getFlow s k) -> is_Some (getFlow s' k)).
Proof.
  intros (name & names & H1 & H2 & H3). unfold initFlow. rewrite H1, H2.
  cbn [mbind option_bind].
  destruct (resolveQueues_total s names H3) as [path ->]. cbn [mbind option_bind].
  eexists _, _. split; [reflexivity|]. unfold sameQueueNames, getFlow. cbn.
  split; [split; [reflexivity | apply wireFlow_dom]|]. split.
  - rewrite lookup_insert_eq. eauto.
  - intros k Hk. destruct (decide (k = nextFlowId s)) as [->|Hne].
    + rewrite lookup_insert_eq. eauto.
    + rewrite lookup_insert_ne by congruence. exact Hk.
Qed.

Lemma initFlows_total flowInfos : forall s clientId,
  Forall (readyFlow s) flowInfos ->
  exists s' ids,
    initFlows s flowInfos clientId = Some (s', ids) /\
    sameQueueNames s s' /\
    (forall flowId, flowId ∈ ids -> is_Some (getFlow s' flowId)) /\
    (forall k, is_Some (getFlow s k) -> is_Some (getFlow s' k)).
Proof.
  induction flowInfos as [|flowInfo rest IH]; intros s clientId H; cbn [initFlows].
  - exists s, []. split; [reflexivity|]. split; [apply sameQueueNames_refl|].
    split; [intros flowId Hin; inversion Hin | auto].
  - apply Forall_cons in H as [Hflow Hrest].
    destruct (initFlow_total s flowInfo clientId Hflow) as (s1 & flowId & E1 & N1 & F1 & K1).
    rewrite E1. cbn [mbind option_bind].
    destruct (IH s1 clientId) as (s2 & ids & E2 & N2 & F2 & K2).
    { eapply Forall_impl; [exact Hrest|]. intros fi. apply readyFlow_same, N1. }
    rewrite E2. cbn [mbind option_bind]. exists s2, (flowId :: ids).
    split; [reflexivity|]. split; [eapply sameQueueNames_trans; eassumption|]. split.
    + intros k Hk. apply elem_of_cons in Hk as [->|Hk]; [apply K2, F1 | apply F2, Hk].
    + intros k Hk. apply K2, K1, Hk.
Qed.

Lemma markAffected_total s c :
  (forall flowId, flowId ∈ c_flowIds c -> is_Some (getFlow s flowId)) ->
  is_Some (markAffected s c).
Proof.
  unfold markAffected. generalize (c_flowIds c). intros l.
  assert (H : forall acc, flows acc = flows s ->
            (forall flowId, flowId ∈ l -> is_Some (getFlow s flowId)) ->
            is_Some (foldM (fun s0 flowId =>
                              f ← getFlow s0 flowId;
                              Some (fold_left
                                      (fun s1 queueId =>
                                         set_affectedQueueIds
                                           (_affectedQueueIds s1 ∪ {[queueId]}) s1)
                                      (f_queueIds f) s0)) l acc)).
  { induction l as [|flowId l IH]; intros acc Hacc Hl; cbn [foldM]; [eauto|].
    destruct (Hl flowId) as [f Hf]; [left|].
    unfold getFlow in *. rewrite Hacc, Hf. cbn [mbind option_bind].
    apply IH; [|intros k Hk; apply Hl; right; exact Hk].
    rewrite <- Hacc. generalize (f_queueIds f). intros qs. clear. revert acc.
    induction qs as [|q qs IHq]; intros acc; cbn [fold_left]; [reflexivity|].
    rewrite IHq. reflexivity. }
  apply H. reflexivity.
Qed.

(** [WorkloadCompactor::addClient] returns on a descriptor that is ready. *)
Lemma addClient_total s clientInfo :
  readyClient s clientInfo ->
  exists s' clientId,
    addClient s clientInfo = Some (s', clientId) /\ sameQueueNames s s'.
Proof.
  intros (name & SLO & flowInfos & H1 & H2 & H3 & H4).
  unfold addClient, NC.addClient. rewrite H1, H2, H3. cbn [mbind option_bind].
  destruct (initFlows_total flowInfos s (nextClientId s) H4) as (s1 & ids & E1 & N1 & F1 & _).
  rewrite E1. cbn [mbind option_bind].
  match goal with
  | |- context [getClient ?s2 (nextClientId s)] =>
      assert (Ec : getClient s2 (nextClientId s)
                   = Some {| c_clientId := nextClientId s; c_name := name; c_flowIds := ids;
                             c_SLO := SLO; c_SLOpercentile := jc_SLOpercentile clientInfo;
                             c_latency := 0 |})
        by (unfold getClient; cbn; apply lookup_insert_eq);
      rewrite Ec; cbn [mbind option_bind];
      match goal with
      | |- context [markAffected s2 ?c] =>
          destruct (markAffected_total s2 c) as [s3 E3]; [exact F1|];
          rewrite E3; cbn [mbind option_bind];
          apply markAffected_only in E3
      end
  end.
  eexists _, _. split; [reflexivity|]. rewrite E3. exact N1.
Qed.

End WorkloadCompactor.

(* ===================================================================== *)
(** * The admission service ([src/AdmissionController/AdmissionController.cpp]) *)
(* ===================================================================== *)

Module AdmissionController.
Import Double Containers Curves NC.

Inductive AdmissionStatus :=
| ADMISSION_SUCCESS
| ADMISSION_ERR_MISSING_ARGUMENT
| ADMISSION_ERR_INVALID_ARGUMENT
| ADMISSION_ERR_CLIENT_NAME_IN_USE
| ADMISSION_ERR_CLIENT_NAME_NONEXISTENT
| ADMISSION_ERR_QUEUE_NAME_IN_USE
| ADMISSION_ERR_QUEUE_NAME_NONEXISTENT
| ADMISSION_ERR_QUEUE_HAS_ACTIVE_FLOWS
| ADMISSION_ERR_FLOW_NAME_IN_USE.

(** The arguments of the AddClients RPC.  [clientInfos] is the JSON
    document after [stringToJson]: [None] when the string does not parse
    or is not an array.  The members "flows" and "queues" of the records
    are arrays when they are present. *)
Record AdmissionAddClientsArgs := {
  clientInfos : option (list ClientInfo);
  fastFirstFit : bool;
}.

Record AdmissionAddClientsRes := {
  admitted : bool;
  status : AdmissionStatus;
}.

(** The globals [nc] (a [WorkloadCompactor], see [main]) and
    [clientInfoStore]. *)
Record Service := {
  nc : State;
  clientInfoStore : gmap Z ClientInfo;
}.

(** ** Validation *)

(** [checkFlowInfo]; the set [flowNames] is passed by reference. *)
Definition checkFlowInfo (s : State) (flowNames : gset string) (flowInfo : FlowInfo)
  : AdmissionStatus * gset string :=
  match jf_name flowInfo with
  | None => (ADMISSION_ERR_MISSING_ARGUMENT, flowNames)
  | Some name =>
    if negb (getFlowIdByName s name =? InvalidFlowId)%Z
    then (ADMISSION_ERR_FLOW_NAME_IN_USE, flowNames)
    else if decide (name ∈ flowNames) then (ADMISSION_ERR_FLOW_NAME_IN_USE, flowNames)
    else
      let flowNames := flowNames ∪ {[name]} in
      match jf_queues flowInfo with
      | None => (ADMISSION_ERR_MISSING_ARGUMENT, flowNames)
      | Some flowQueues =>
        if existsb (fun queueName => (getQueueIdByName s queueName =? InvalidQueueId)%Z)
                   flowQueues
        then (ADMISSION_ERR_QUEUE_NAME_NONEXISTENT, flowNames)
        else match jf_arrivalInfo flowInfo with
             | None => (ADMISSION_ERR_MISSING_ARGUMENT, flowNames)
             | Some _ => (ADMISSION_SUCCESS, flowNames)
             end
      end
  end.

(** The loop over the flows of a client: the first error ends it. *)
Fixpoint checkFlowInfos (s : State) (flowNames : gset string) (flowInfos : list FlowInfo)
  : AdmissionStatus * gset string :=
  match flowInfos with
  | [] => (ADMISSION_SUCCESS, flowNames)
  | flowInfo :: flowInfos =>
    match checkFlowInfo s flowNames flowInfo with
    | (ADMISSION_SUCCESS, flowNames) => checkFlowInfos s flowNames flowInfos
    | failure => failure
    end
  end.

(** [checkClientInfo]. *)
Definition checkClientInfo (s : State) (clientNames flowNames : gset string)
    (clientInfo : ClientInfo) : AdmissionStatus * gset string * gset string :=
  match jc_name clientInfo with
  | None => (ADMISSION_ERR_MISSING_ARGUMENT, clientNames, flowNames)
  | Some name =>
    if negb (getClientIdByName s name =? InvalidClientId)%Z
    then (ADMISSION_ERR_CLIENT_NAME_IN_USE, clientNames, flowNames)
    else if decide (name ∈ clientNames)
    then (ADMISSION_ERR_CLIENT_NAME_IN_USE, clientNames, flowNames)
    else
      let clientNames := clientNames ∪ {[name]} in
      match jc_SLO clientInfo with
      | None => (ADMISSION_ERR_MISSING_ARGUMENT, clientNames, flowNames)
      | Some SLO =>
        if (SLO <=? 0)%float
        then (ADMISSION_ERR_INVALID_ARGUMENT, clientNames, flowNames)
        else if match jc_SLOpercentile clientInfo with
                | Some SLOpercentile =>
                  negb ((0 <? SLOpercentile)%float && (SLOpercentile <? 100)%float)
                | None => false
                end
        then (ADMISSION_ERR_INVALID_ARGUMENT, clientNames, flowNames)
        else match jc_flows clientInfo with
             | None => (ADMISSION_ERR_MISSING_ARGUMENT, clientNames, flowNames)
             | Some clientFlows =>
               let '(status, flowNames) := checkFlowInfos s flowNames clientFlows in
               (status, clientNames, flowNames)
             end
      end
  end.

(** [checkClientInfos], on an array. *)
Fixpoint checkClientInfosFrom (s : State) (clientNames flowNames : gset string)
    (infos : list ClientInfo) : AdmissionStatus :=
  match infos with
  | [] => ADMISSION_SUCCESS
  | clientInfo :: infos =>
    match checkClientInfo s clientNames flowNames clientInfo with
    | (ADMISSION_SUCCESS, clientNames, flowNames) =>
      checkClientInfosFrom s clientNames flowNames infos
    | (failure, _, _) => failure
    end
  end.

Definition checkClientInfos (s : State) (infos : list ClientInfo) : AdmissionStatus :=
  checkClientInfosFrom s ∅ ∅ infos.

(** ** The latency check *)

(** The number of flow entries of the queues: [markAffectedFlows] goes no
    deeper than their number plus one, since every call that goes on
    marks a new entry. *)
Definition markFuel (s : State) : nat :=
  S (S (map_fold (fun _ q n => (length (q_flows q) + n)%nat) 0%nat (queues s))).

(** [markAffectedFlows]; a [FlowIndex] of the set is a pair. *)
Fixpoint markAffectedFlows (fuel : nat) (s : State) (affectedFlows : gset (Z * nat))
    (fi : FlowIndex) (priority : Z) : option (gset (Z * nat)) :=
  match fuel with
  | O => None
  | S fuel =>
    f ← getFlow s (fi_flowId fi);
    if (f_priority f <? priority)%Z then Some affectedFlows
    else if decide ((fi_flowId fi, fi_index fi) ∈ affectedFlows) then Some affectedFlows
    else
      let affectedFlows := affectedFlows ∪ {[ (fi_flowId fi, fi_index fi) ]} in
      foldM (fun affectedFlows queueId =>
               q ← getQueue s queueId;
               foldM (fun affectedFlows itFi =>
                        markAffectedFlows fuel s affectedFlows itFi (f_priority f))
                     (q_flows q) affectedFlows)
            (drop (fi_index fi) (f_queueIds f)) affectedFlows
  end.

(** The clients of the marked flows. *)
Definition affectedClients (s : State) (affectedFlows : gset (Z * nat)) : option (gset Z) :=
  foldM (fun affectedClientIds it =>
           f ← getFlow s it.1;
           Some (affectedClientIds ∪ {[f_clientId f]}))
        (elements affectedFlows) ∅.

Section WithSolver.

Variable solveLP : State -> list ClientId -> option (nat -> float * float).

(** The first loop of [checkLatency], over the added clients; [false]
    is the [break]. *)
Fixpoint checkAdded (s : State) (affectedFlows : gset (Z * nat)) (clientIds : list ClientId)
  : option (State * gset (Z * nat) * bool) :=
  match clientIds with
  | [] => Some (s, affectedFlows, true)
  | clientId :: clientIds =>
    '(s, _) ← WorkloadCompactor.calcClientLatency solveLP s clientId;
    c ← getClient s clientId;
    if gtb (c_latency c) (c_SLO c) then Some (s, affectedFlows, false)
    else
      affectedFlows ←
        foldM (fun affectedFlows flowId =>
                 markAffectedFlows (markFuel s) s affectedFlows
                   {| fi_flowId := flowId; fi_index := 0 |} 0)
              (c_flowIds c) affectedFlows;
      checkAdded s affectedFlows clientIds
  end.

(** The last loop of [checkLatency], over the other affected clients. *)
Fixpoint checkOthers (s : State) (clientIds : list ClientId)
    (affectedClientIds : list ClientId) : option (State * bool) :=
  match affectedClientIds with
  | [] => Some (s, true)
  | clientId :: affectedClientIds =>
    if decide (clientId ∈ clientIds) then checkOthers s clientIds affectedClientIds
    else
      '(s, _) ← WorkloadCompactor.calcClientLatency solveLP s clientId;
      c ← getClient s clientId;
      if gtb (c_latency c) (c_SLO c) then Some (s, false)
      else checkOthers s clientIds affectedClientIds
  end.

(** [checkLatency]; [clientIds] is the set of the added clients in
    increasing order. *)
Definition checkLatency (s : State) (clientIds : list ClientId) : option (State * bool) :=
  match checkAdded s ∅ clientIds with
  | Some (s, affectedFlows, true) =>
    affectedClientIds ← affectedClients s affectedFlows;
    checkOthers s clientIds (sortedElements affectedClientIds)
  | Some (s, _, false) => Some (s, false)
  | None => None
  end.

End WithSolver.

(** ** The fast first-fit check *)

(** How a loop with a [return] in its body goes on. *)
Inductive Scan (A : Type) :=
| Return (result : bool)
| Next (a : A).
Arguments Return {A} result.
Arguments Next {A} a.

Fixpoint scanM {A B} (f : B -> A -> option (Scan B)) (l : list A) (acc : B)
  : option (Scan B) :=
  match l with
  | [] => Some (Next acc)
  | a :: l =>
    match f acc a with
    | Some (Next acc) => scanM f l acc
    | stop => stop
    end
  end.

(** The loop over the flows of a queue. *)
Definition addShaperRate (s : State) (load : float) (it : FlowIndex) : option (Scan float) :=
  shaperCurve ← DNC.getShaperCurve s (fi_flowId it);
  if (r shaperCurve =? 0)%float && (b shaperCurve =? 0)%float then Some (Return false)
  else Some (Next (load + r shaperCurve)%float).

(** The body of the loop over the queues of a flow of the request. *)
Definition checkQueueLoad (s : State) (arrivalCurve : Curve)
    (possibleOverload : bool) (queueName : string) : option (Scan bool) :=
  let queueId := getQueueIdByName s queueName in
  queue ← getQueue s queueId;
  back ← last arrivalCurve;
  result ← scanM (addShaperRate s) (q_flows queue) (slope back);
  match result with
  | Return result => Some (Return result)
  | Next load =>
    Some (Next (if gtb load (0.999999 * q_bandwidth queue)%float then true
                else possibleOverload))
  end.

(** The body of the loop over the flows of a client of the request. *)
Definition checkFlowLoad (s : State) (possibleOverload : bool)
    (flowInfo : FlowInfo) : option (Scan bool) :=
  scanM (checkQueueLoad s (default [] (jf_arrivalInfo flowInfo)))
        (default [] (jf_queues flowInfo)) possibleOverload.

(** The body of the loop over the clients of the request. *)
Definition checkClientLoad (s : State) (possibleOverload : bool)
    (clientInfo : ClientInfo) : option (Scan bool) :=
  if default false (jc_admitted clientInfo) then Some (Next possibleOverload)
  else scanM (checkFlowLoad s) (default [] (jc_flows clientInfo)) possibleOverload.

(** [checkOverload]. *)
Definition checkOverload (s : State) (infos : list ClientInfo) : option bool :=
  result ← scanM (checkClientLoad s) infos false;
  match result with
  | Return result => Some result
  | Next possibleOverload => Some possibleOverload
  end.

(** ** The AddClients RPC *)

Definition rejected (status : AdmissionStatus) : AdmissionAddClientsRes :=
  {| admitted := false; status := status |}.

(** "Add clients": [nc->addClient] on the [WorkloadCompactor], the set
    [clientIds] and the store. *)
Definition addClients (svc : Service) (infos : list ClientInfo)
  : option (Service * gset Z) :=
  foldM (fun (acc : Service * gset Z) clientInfo =>
           '(s, clientId) ← WorkloadCompactor.addClient (nc acc.1) clientInfo;
           Some ({| nc := s;
                    clientInfoStore := <[clientId := clientInfo]> (clientInfoStore acc.1) |},
                 acc.2 ∪ {[clientId]}))
        infos (svc, ∅).

(** "Delete clients". *)
Definition delClients (svc : Service) (clientIds : list ClientId) : option Service :=
  foldM (fun svc clientId =>
           let store := delete clientId (clientInfoStore svc) in
           s ← WorkloadCompactor.delClient (nc svc) clientId;
           Some {| nc := s; clientInfoStore := store |})
        clientIds svc.

(** The loop that sets [admitOverride]. *)
Definition admitOverride (infos : list ClientInfo) : bool :=
  forallb (fun clientInfo => default false (jc_admitted clientInfo)) infos.

Section Service.

Variable solveLP : State -> list ClientId -> option (nat -> float * float).

(** [admission_controller_add_clients_svc].  The RPCs to the enforcers of
    an admitted request read the engine and change nothing in it; they are
    left out. *)
Definition admission_controller_add_clients_svc (svc : Service)
    (argp : AdmissionAddClientsArgs) : option (Service * AdmissionAddClientsRes) :=
  match clientInfos argp with
  | None => Some (svc, rejected ADMISSION_ERR_INVALID_ARGUMENT)
  | Some infos =>
    match checkClientInfos (nc svc) infos with
    | ADMISSION_SUCCESS =>
      match (if fastFirstFit argp then checkOverload (nc svc) infos else Some false) with
      | None => None
      | Some true => Some (svc, rejected ADMISSION_SUCCESS)
      | Some false =>
        added ← addClients svc infos;
        let svc := added.1 in
        let clientIds := sortedElements added.2 in
        match (if admitOverride infos then Some (nc svc, true)
               else checkLatency solveLP (nc svc) clientIds) with
        | None => None
        | Some (s, true) =>
          Some ({| nc := s; clientInfoStore := clientInfoStore svc |},
                {| admitted := true; status := ADMISSION_SUCCESS |})
        | Some (s, false) =>
          svc ← delClients {| nc := s; clientInfoStore := clientInfoStore svc |} clientIds;
          Some (svc, rejected ADMISSION_SUCCESS)
        end
      end
    | failure => Some (svc, rejected failure)
    end
  end.

End Service.

(** ** The fast first-fit check, as the specification words it *)

(** "Every not-yet-admitted client's flow and every queue it would
    touch": the arrival curve of the flow and the name of the queue. *)
Definition inspectedOfFlow (flowInfo : FlowInfo) : list (Curve * string) :=
  map (fun queueName => (default [] (jf_arrivalInfo flowInfo), queueName))
      (default [] (jf_queues flowInfo)).

Definition inspectedOfClient (clientInfo : ClientInfo) : list (Curve * string) :=
  if default false (jc_admitted clientInfo) then []
  else flat_map inspectedOfFlow (default [] (jc_flows clientInfo)).

Definition inspected (infos : list ClientInfo) : list (Curve * string) :=
  flat_map inspectedOfClient infos.

(** The shaper curve of a flow is uninitialized. *)
Definition uninitialized (shaperCurve : SimpleArrivalCurve) : bool :=
  (r shaperCurve =? 0)%float && (b shaperCurve =? 0)%float.

(** "load = new flow's arrival rate + the sum of the shaper rates of the
    existing flows at that queue", summed in the order of the flows. *)
Definition loadOf (s : State) (arrivalRate : float) (queue : Queue) : float :=
  fold_left (fun load it =>
               (load + r (default ZeroArrivalCurve (DNC.getShaperCurve s (fi_flowId it))))%float)
            (q_flows queue) arrivalRate.

(** The load of an inspected pair exceeds [threshold] times the bandwidth
    of the queue. *)
Definition exceeds (threshold : float) (s : State) (pair : Curve * string) : bool :=
  match getQueue s (getQueueIdByName s pair.2), last pair.1 with
  | Some queue, Some back =>
    gtb (loadOf s (slope back) queue) (threshold * q_bandwidth queue)%float
  | _, _ => false
  end.

(** The queue of an inspected pair is there, the arrival curve has a last
    segment, and the flows at the queue have initialized shaper curves. *)
Definition initialized (s : State) (pair : Curve * string) : bool :=
  match getQueue s (getQueueIdByName s pair.2), last pair.1 with
  | Some queue, Some back =>
    forallb (fun it =>
               match DNC.getShaperCurve s (fi_flowId it) with
               | Some shaperCurve => negb (uninitialized shaperCurve)
               | None => false
               end)
            (q_flows queue)
  | _, _ => false
  end.

(** ** Properties of the fast first-fit check *)

Lemma scanM_app {A B} (f : B -> A -> option (Scan B)) l1 l2 acc :
  scanM f (l1 ++ l2) acc =
  match scanM f l1 acc with
  | Some (Next acc) => scanM f l2 acc
  | stop => stop
  end.
Proof.
  revert acc. induction l1 as [|a l1 IH]; intros acc; cbn [scanM app]; [reflexivity|].
  destruct (f acc a) as [[result|acc']|]; [reflexivity | apply IH | reflexivity].
Qed.

(** The three nested loops are one loop over the inspected pairs. *)
Definition checkPair (s : State) (possibleOverload : bool) (pair : Curve * string)
  : option (Scan bool) :=
  checkQueueLoad s pair.1 possibleOverload pair.2.

Lemma checkFlowLoad_inspected s flowInfo possibleOverload :
  checkFlowLoad s possibleOverload flowInfo
  = scanM (checkPair s) (inspectedOfFlow flowInfo) possibleOverload.
Proof.
  unfold checkFlowLoad, inspectedOfFlow.
  generalize (default [] (jf_arrivalInfo flowInfo)). intros curve.
  revert possibleOverload.
  induction (default [] (jf_queues flowInfo)) as [|queueName l IH]; intros po;
    cbn [scanM map]; [reflexivity|].
  unfold checkPair at 1. cbn [fst snd].
  destruct (checkQueueLoad s curve po queueName) as [[result|po']|]; auto.
Qed.

Lemma checkClientLoad_inspected s clientInfo possibleOverload :
  checkClientLoad s possibleOverload clientInfo
  = scanM (checkPair s) (inspectedOfClient clientInfo) possibleOverload.
Proof.
  unfold checkClientLoad, inspectedOfClient.
  destruct (default false (jc_admitted clientInfo)); [reflexivity|].
  revert possibleOverload.
  induction (default [] (jc_flows clientInfo)) as [|flowInfo l IH]; intros po;
    cbn [scanM flat_map]; [reflexivity|].
  rewrite scanM_app, checkFlowLoad_inspected.
  destruct (scanM (checkPair s) (inspectedOfFlow flowInfo) po) as [[result|po']|]; auto.
Qed.

Lemma checkOverload_inspected s infos possibleOverload :
  scanM (checkClientLoad s) infos possibleOverload
  = scanM (checkPair s) (inspected infos) possibleOverload.
Proof.
  unfold inspected. revert possibleOverload.
  induction infos as [|clientInfo l IH]; intros po; cbn [scanM flat_map]; [reflexivity|].
  rewrite scanM_app, checkClientLoad_inspected.
  destruct (scanM (checkPair s) (inspectedOfClient clientInfo) po) as [[result|po']|]; auto.
Qed.

Definition shaperInitialized (s : State) (it : FlowIndex) : bool :=
  match DNC.getShaperCurve s (fi_flowId it) with
  | Some shaperCurve => negb (uninitialized shaperCurve)
  | None => false
  end.

Lemma scan_flows_initialized s flows : forall load,
  forallb (shaperInitialized s) flows = true ->
  scanM (addShaperRate s) flows load
  = Some (Next (fold_left
                  (fun load it =>
                     (load + r (default ZeroArrivalCurve
                                  (DNC.getShaperCurve s (fi_flowId it))))%float)
                  flows load)).
Proof.
  induction flows as [|it flows IH]; intros load H; [reflexivity|].
  cbn [forallb] in H. apply andb_true_iff in H as [Hit H].
  cbn [scanM fold_left]. unfold addShaperRate at 1. unfold shaperInitialized in Hit.
  destruct (DNC.getShaperCurve s (fi_flowId it)) as [shaperCurve|]; [|discriminate].
  cbn [mbind option_bind default]. unfold uninitialized in Hit.
  destruct ((r shaperCurve =? 0)%float && (b shaperCurve =? 0)%float); [discriminate|].
  apply IH, H.
Qed.

Lemma scan_flows_Next s flows : forall load load',
  scanM (addShaperRate s) flows load = Some (Next load') ->
  forallb (shaperInitialized s) flows = true.
Proof.
  induction flows as [|it flows IH]; intros load load' H; [reflexivity|].
  cbn [scanM] in H. cbn [forallb]. unfold addShaperRate in H at 1.
  unfold shaperInitialized at 1, uninitialized.
  destruct (DNC.getShaperCurve s (fi_flowId it)) as [shaperCurve|]; [|discriminate].
  cbn [mbind option_bind] in H.
  destruct ((r shaperCurve =? 0)%float && (b shaperCurve =? 0)%float); [discriminate|].
  cbn [negb andb]. eapply IH, H.
Qed.

Lemma scan_flows_Return s flows : forall load result,
  scanM (addShaperRate s) flows load = Some (Return result) -> result = false.
Proof.
  induction flows as [|it flows IH]; intros load result H; [discriminate|].
  cbn [scanM] in H. unfold addShaperRate in H at 1.
  destruct (DNC.getShaperCurve s (fi_flowId it)) as [shaperCurve|]; [|discriminate].
  cbn [mbind option_bind] in H.
  destruct ((r shaperCurve =? 0)%float && (b shaperCurve =? 0)%float).
  - congruence.
  - eapply IH, H.
Qed.

Lemma checkPair_initialized s possibleOverload pair :
  initialized s pair = true ->
  checkPair s possibleOverload pair
  = Some (Next (exceeds 0.999999 s pair || possibleOverload)).
Proof.
  unfold initialized, checkPair, checkQueueLoad, exceeds, loadOf.
  destruct (getQueue s (getQueueIdByName s pair.2)) as [queue|]; [|discriminate].
  destruct (last pair.1) as [back|]; [|discriminate].
  intros H. cbn [mbind option_bind].
  rewrite (scan_flows_initialized s (q_flows queue) (slope back) H).
  cbn [mbind option_bind]. destruct (gtb _ _); reflexivity.
Qed.

Lemma checkPair_Next s possibleOverload pair possibleOverload' :
  checkPair s possibleOverload pair = Some (Next possibleOverload') ->
  initialized s pair = true.
Proof.
  unfold initialized, checkPair, checkQueueLoad.
  destruct (getQueue s (getQueueIdByName s pair.2)) as [queue|]; [|discriminate].
  destruct (last pair.1) as [back|]; [|discriminate].
  cbn [mbind option_bind].
  destruct (scanM (addShaperRate s) (q_flows queue) (slope back)) as [[result|load]|] eqn:E;
    [discriminate | | discriminate].
  intros _. eapply scan_flows_Next, E.
Qed.

Lemma checkPair_Return s possibleOverload pair result :
  checkPair s possibleOverload pair = Some (Return result) -> result = false.
Proof.
  unfold checkPair, checkQueueLoad.
  destruct (getQueue s (getQueueIdByName s pair.2)) as [queue|]; [|discriminate].
  destruct (last pair.1) as [back|]; [|discriminate].
  cbn [mbind option_bind].
  destruct (scanM (addShaperRate s) (q_flows queue) (slope back)) as [[result'|load]|] eqn:E;
    [|discriminate..].
  cbn [mbind option_bind]. intros H. inversion H; subst.
  eapply scan_flows_Return, E.
Qed.

Lemma scan_pairs_initialized s pairs : forall possibleOverload,
  forallb (initialized s) pairs = true ->
  scanM (checkPair s) pairs possibleOverload
  = Some (Next (possibleOverload || existsb (exceeds 0.999999 s) pairs)).
Proof.
  induction pairs as [|pair pairs IH]; intros po H.
  - cbn. rewrite orb_false_r. reflexivity.
  - cbn [forallb] in H. apply andb_true_iff in H as [Hpair H].
    cbn [scanM existsb]. rewrite (checkPair_initialized s po pair Hpair).
    rewrite (IH _ H). do 2 f_equal.
    destruct (exceeds 0.999999 s pair), po; reflexivity.
Qed.

Lemma scan_pairs_Next s pairs : forall possibleOverload possibleOverload',
  scanM (checkPair s) pairs possibleOverload = Some (Next possibleOverload') ->
  forallb (initialized s) pairs = true.
Proof.
  induction pairs as [|pair pairs IH]; intros po po' H; [reflexivity|].
  cbn [scanM] in H. cbn [forallb].
  destruct (checkPair s po pair) as [[result|po1]|] eqn:E; [discriminate | | discriminate].
  rewrite (checkPair_Next _ _ _ _ E). eapply IH, H.
Qed.

Lemma scan_pairs_Return s pairs : forall possibleOverload result,
  scanM (checkPair s) pairs possibleOverload = Some (Return result) -> result = false.
Proof.
  induction pairs as [|pair pairs IH]; intros po result H; [discriminate|].
  cbn [scanM] in H.
  destruct (checkPair s po pair) as [[result'|po1]|] eqn:E; [| |discriminate].
  - inversion H; subst. eapply checkPair_Return, E.
  - eapply IH, H.
Qed.

(** [checkOverload] returns true exactly when the scan meets no
    uninitialized shaper curve and some load exceeds 0.999999 of the
    bandwidth. *)
Lemma checkOverload_true_iff s infos :
  checkOverload s infos = Some true <->
  forallb (initialized s) (inspected infos) = true /\
  existsb (exceeds 0.999999 s) (inspected infos) = true.
Proof.
  unfold checkOverload. rewrite checkOverload_inspected. split.
  - destruct (scanM (checkPair s) (inspected infos) false) as [[result|po]|] eqn:E;
      [| |discriminate]; cbn [mbind option_bind]; intros H; inversion H; subst.
    + apply scan_pairs_Return in E. discriminate.
    + pose proof (scan_pairs_Next _ _ _ _ E) as Hinit. split; [exact Hinit|].
      rewrite (scan_pairs_initialized _ _ _ Hinit) in E. inversion E. reflexivity.
  - intros [Hinit Hex]. rewrite (scan_pairs_initialized _ _ _ Hinit), Hex. reflexivity.
Qed.

Lemma checkOverload_all_admitted s infos :
  Forall (fun clientInfo => jc_admitted clientInfo = Some true) infos ->
  checkOverload s infos = Some false.
Proof.
  intros H. unfold checkOverload. rewrite checkOverload_inspected.
  assert (E : inspected infos = []).
  { unfold inspected. induction H as [|clientInfo l Hx Hl IH]; [reflexivity|].
    cbn [flat_map]. unfold inspectedOfClient at 1. rewrite Hx, IH. reflexivity. }
  rewrite E. reflexivity.
Qed.

Lemma admitOverride_all_admitted infos :
  Forall (fun clientInfo => jc_admitted clientInfo = Some true) infos ->
  admitOverride infos = true.
Proof.
  unfold admitOverride. induction 1 as [|clientInfo l Hx Hl IH]; [reflexivity|].
  cbn [forallb]. rewrite Hx, IH. reflexivity.
Qed.

Section Properties.

Variable solveLP : State -> list ClientId -> option (nat -> float * float).

(** C4 (amended).  For a request with [fastFirstFit] that passes the
    validation, the fast first-fit check scans the queues of the flows of
    the clients that are not marked admitted.  It finds an overload
    exactly when the scan meets no flow whose shaper curve is
    uninitialized (rate and burst both 0) and some load, the last slope of
    the arrival curve of the new flow plus the shaper rates of the flows
    at the queue, exceeds 0.999999 times the bandwidth of the queue.  On an
    overload the request is rejected at once and the service is left as it
    is: no client is added and no LP is solved.  When the check finds no
    overload, the request is handled as it is without [fastFirstFit]. *)
Theorem fastFirstFit_rejects (svc : Service) (argp : AdmissionAddClientsArgs)
    (infos : list ClientInfo) :
  clientInfos argp = Some infos ->
  fastFirstFit argp = true ->
  checkClientInfos (nc svc) infos = ADMISSION_SUCCESS ->
  (checkOverload (nc svc) infos = Some true <->
   forallb (initialized (nc svc)) (inspected infos) = true /\
   existsb (exceeds 0.999999 (nc svc)) (inspected infos) = true) /\
  (checkOverload (nc svc) infos = Some true ->
   admission_controller_add_clients_svc solveLP svc argp
   = Some (svc, rejected ADMISSION_SUCCESS)) /\
  (checkOverload (nc svc) infos = Some false ->
   admission_controller_add_clients_svc solveLP svc argp
   = admission_controller_add_clients_svc solveLP svc
       {| clientInfos := Some infos; fastFirstFit := false |}).
Proof.
  intros Hinfos Hfast Hvalid. split; [apply checkOverload_true_iff|].
  unfold admission_controller_add_clients_svc. cbn [clientInfos fastFirstFit].
  rewrite Hinfos, Hvalid, Hfast.
  split; intros H; rewrite H; reflexivity.
Qed.

End Properties.

(** ** Properties of a rejected request *)

Import WorkloadCompactor.

Section Rejection.

Variable solveLP : State -> list ClientId -> option (nat -> float * float).







End Rejection.




(** ** What a rejected request restores *)










Section Wiring.

Variable solveLP : State -> list ClientId -> option (nat -> float * float).








End Wiring.

(** ** Adding clients and deleting them again *)



Section Restore.

(** The engine before the request. *)
Variable s0 : State.



(** The ids in use are below the counters. *)
Record bounded (s : State) : Prop := {
  bounded_flows : forall flowId f, getFlow s flowId = Some f -> (flowId < nextFlowId s)%Z;
  bounded_entries : forall queueId q fi,
    getQueue s queueId = Some q -> fi ∈ q_flows q -> (fi_flowId fi < nextFlowId s)%Z;
  bounded_clients : forall clientId c,
    getClient s clientId = Some c -> (clientId < nextClientId s)%Z;
}.




(** *** The additions *)












(** *** The deletions *)







(** *** The end of the request *)


End Restore.

(** ** The names of a validated request are new *)





(** ** The engine after a rejected request *)





Section Restored.

Variable solveLP : State -> list ClientId -> option (nat -> float * float).


End Restored.

Section Rollback.

Variable solveLP : State -> list ClientId -> option (nat -> float * float).


End Rollback.

(** ** The fuel of [markAffectedFlows] is enough *)

Definition entry (fi : FlowIndex) : Z * nat := (fi_flowId fi, fi_index fi).

(** [V] holds the flow entries of all the queues. *)
Definition holdsEntries (qs : gmap Z Queue) (V : gset (Z * nat)) : Prop :=
  forall queueId q, qs !! queueId = Some q ->
    forall it, it ∈ q_flows q -> entry it ∈ V.

(** Two loops whose bodies agree wherever an invariant holds. *)
Lemma foldM_agree {A B} (P : B -> Prop) (f g : B -> A -> option B) l :
  (forall b a, a ∈ l -> P b ->
     f b a = g b a /\ forall b', f b a = Some b' -> P b') ->
  forall acc, P acc ->
    foldM f l acc = foldM g l acc /\
    forall acc', foldM f l acc = Some acc' -> P acc'.
Proof.
  induction l as [|a l IH]; intros H acc Hacc; cbn [foldM].
  - split; [reflexivity|]. intros acc' E. inversion E; subst. exact Hacc.
  - destruct (H acc a) as [E Hstep]; [left | exact Hacc|]. rewrite <- E.
    destruct (f acc a) as [acc1|]; [|split; [reflexivity | discriminate]].
    apply IH; [|apply Hstep; reflexivity].
    intros b a' Ha'. apply H. right. exact Ha'.
Qed.

Lemma difference_subseteq (X Y : gset (Z * nat)) : X ∖ Y ⊆ X.
Proof. intros k Hk. apply elem_of_difference in Hk. tauto. Qed.

Lemma size_list_to_set_le (l : list (Z * nat)) :
  (size (list_to_set l : gset (Z * nat)) <= length l)%nat.
Proof.
  induction l as [|a l IH]; cbn [list_to_set length].
  - rewrite size_empty. lia.
  - rewrite size_union_alt, size_singleton.
    pose proof (subseteq_size _ _ (difference_subseteq (list_to_set l) {[a]})) as H.
    lia.
Qed.

(** There is a set of at most as many entries as the queues have. *)
Lemma holdsEntries_exists (qs : gmap Z Queue) :
  exists V, holdsEntries qs V /\
    (size V <= map_fold (fun _ q n => (length (q_flows q) + n)%nat) 0%nat qs)%nat.
Proof.
  apply (map_fold_weak_ind
           (fun n (m : gmap Z Queue) => exists V, holdsEntries m V /\ (size V <= n)%nat)).
  - exists ∅. split; [|rewrite size_empty; lia].
    intros queueId q H. rewrite lookup_empty in H. discriminate.
  - intros i q m n Hi (V & HV & Hsize).
    exists (list_to_set (entry <$> q_flows q) ∪ V). split.
    + intros queueId q' Hq' it Hit. destruct (decide (queueId = i)) as [->|Hne].
      * rewrite lookup_insert_eq in Hq'. inversion Hq'; subst.
        apply elem_of_union_l, elem_of_list_to_set, list_elem_of_fmap. eauto.
      * rewrite lookup_insert_ne in Hq' by congruence.
        apply elem_of_union_r. eapply HV; eassumption.
    + rewrite size_union_alt.
      pose proof (size_list_to_set_le (entry <$> q_flows q)) as H1.
      rewrite length_fmap in H1.
      pose proof (subseteq_size _ _
                    (difference_subseteq V (list_to_set (entry <$> q_flows q)))) as H2.
      lia.
Qed.

Lemma markAffectedFlows_fuel s V (HV : holdsEntries (queues s) V) fuel :
  forall fuel' affectedFlows fi priority,
    entry fi ∈ V ->
    (size (V ∖ affectedFlows) < fuel)%nat -> (size (V ∖ affectedFlows) < fuel')%nat ->
    markAffectedFlows fuel s affectedFlows fi priority
    = markAffectedFlows fuel' s affectedFlows fi priority /\
    forall affectedFlows',
      markAffectedFlows fuel s affectedFlows fi priority = Some affectedFlows' ->
      affectedFlows ⊆ affectedFlows'.
Proof.
  induction fuel as [|fuel IH]; intros fuel' A fi p Hfi H H'; [lia|].
  destruct fuel' as [|fuel']; [lia|]. cbn [markAffectedFlows].
  destruct (getFlow s (fi_flowId fi)) as [f|]; [|split; [reflexivity | discriminate]].
  cbn [mbind option_bind].
  destruct (f_priority f <? p)%Z.
  { split; [reflexivity|]. intros A' E. inversion E. reflexivity. }
  destruct (decide ((fi_flowId fi, fi_index fi) ∈ A)) as [Hin|Hout].
  { split; [reflexivity|]. intros A' E. inversion E. reflexivity. }
  set (A1 := A ∪ {[(fi_flowId fi, fi_index fi)]}).
  assert (Hless : (S (size (V ∖ A1)) <= size (V ∖ A))%nat).
  { assert (E : V ∖ A = {[entry fi]} ∪ V ∖ A1).
    { apply set_eq. intros k. unfold A1, entry in *.
      rewrite elem_of_union, !elem_of_difference, elem_of_union, !elem_of_singleton.
      destruct (decide (k = (fi_flowId fi, fi_index fi))) as [->|Hne]; [tauto|].
      tauto. }
    rewrite E.
    rewrite (size_union (C:=gset (Z * nat)) {[entry fi]} (V ∖ A1));
      [rewrite size_singleton; lia|].
    intros k Hk1 Hk2. apply elem_of_singleton in Hk1. subst k.
    apply elem_of_difference in Hk2 as [_ Hk2]. apply Hk2.
    unfold A1, entry. apply elem_of_union_r, elem_of_singleton. reflexivity. }
  assert (Hsub : forall B, A1 ⊆ B -> (size (V ∖ B) <= size (V ∖ A1))%nat).
  { intros B HB. apply subseteq_size. intros k Hk.
    apply elem_of_difference in Hk as [Hk1 Hk2]. apply elem_of_difference.
    split; [exact Hk1|]. intros Hk3. apply Hk2, HB, Hk3. }
  assert (Hloop :
    foldM (fun affectedFlows queueId =>
             q ← getQueue s queueId;
             foldM (fun affectedFlows itFi =>
                      markAffectedFlows fuel s affectedFlows itFi (f_priority f))
                   (q_flows q) affectedFlows)
          (drop (fi_index fi) (f_queueIds f)) A1
    = foldM (fun affectedFlows queueId =>
               q ← getQueue s queueId;
               foldM (fun affectedFlows itFi =>
                        markAffectedFlows fuel' s affectedFlows itFi (f_priority f))
                     (q_flows q) affectedFlows)
            (drop (fi_index fi) (f_queueIds f)) A1 /\
    forall A',
      foldM (fun affectedFlows queueId =>
               q ← getQueue s queueId;
               foldM (fun affectedFlows itFi =>
                        markAffectedFlows fuel s affectedFlows itFi (f_priority f))
                     (q_flows q) affectedFlows)
            (drop (fi_index fi) (f_queueIds f)) A1 = Some A' -> A1 ⊆ A').
  { apply (foldM_agree (fun B => A1 ⊆ B)); [|reflexivity].
    intros B queueId _ HB.
    destruct (getQueue s queueId) as [q|] eqn:Eq; [|split; [reflexivity | discriminate]].
    cbn [mbind option_bind].
    apply (foldM_agree (fun B => A1 ⊆ B)); [|exact HB].
    intros C it Hit HC. specialize (Hsub C HC).
    destruct (IH fuel' C it (f_priority f)) as [E Hmono];
      [eapply HV; eassumption | lia | lia |].
    split; [exact E|]. intros C' EC'. etransitivity; [exact HC | apply Hmono, EC']. }
  destruct Hloop as [E Hmono]. split; [exact E|].
  intros A' EA'. apply Hmono in EA'. unfold A1 in EA'.
  intros k Hk. apply EA', elem_of_union_l, Hk.
Qed.

(** [markFuel] is enough: more fuel gives the same set. *)
Lemma markFuel_enough s affectedFlows fi priority fuel' :
  (markFuel s <= fuel')%nat ->
  markAffectedFlows (markFuel s) s affectedFlows fi priority
  = markAffectedFlows fuel' s affectedFlows fi priority.
Proof.
  intros Hfuel. destruct (holdsEntries_exists (queues s)) as (V & HV & Hsize).
  assert (HV' : holdsEntries (queues s) (V ∪ {[entry fi]})).
  { intros queueId q Hq it Hit. apply elem_of_union_l. eapply HV; eassumption. }
  assert (Hsize' : (size ((V ∪ {[entry fi]}) ∖ affectedFlows) <= S (size V))%nat).
  { etransitivity; [apply subseteq_size; apply subseteq_difference_l; reflexivity|].
    rewrite size_union_alt.
    pose proof (subseteq_size _ _ (difference_subseteq {[entry fi]} V)) as H.
    rewrite size_singleton in H. lia. }
  unfold markFuel in *.
  apply (markAffectedFlows_fuel s _ HV');
    [apply elem_of_union_r, elem_of_singleton; reflexivity | lia | lia].
Qed.

(** ** A validated request is added *)

(** Every registered queue name is the name of a queue. *)
Definition queuesNamed (s : State) : Prop :=
  forall name, getQueueIdByName s name <> InvalidQueueId ->
    is_Some (getQueue s (getQueueIdByName s name)).

(** [queuesNamed], decided. *)
Definition queuesNamedb (s : State) : bool :=
  forallb (fun entry : string * Z =>
             (entry.2 =? InvalidQueueId)%Z || bool_decide (is_Some (getQueue s entry.2)))
          (map_to_list (queueIds s)).

Lemma queuesNamedb_spec s : queuesNamedb s = true -> queuesNamed s.
Proof.
  unfold queuesNamedb, queuesNamed, getQueueIdByName. rewrite forallb_forall.
  intros H name Hname. destruct (queueIds s !! name) as [queueId|] eqn:E;
    cbn [default] in *; [|contradiction].
  apply elem_of_map_to_list, list_elem_of_In in E. specialize (H _ E). cbn [snd] in H.
  apply orb_true_iff in H as [H|H].
  - apply Z.eqb_eq in H. contradiction.
  - apply bool_decide_eq_true in H. exact H.
Qed.

Lemma checkFlowInfo_ready s flowNames flowInfo flowNames' :
  queuesNamed s ->
  checkFlowInfo s flowNames flowInfo = (ADMISSION_SUCCESS, flowNames') ->
  readyFlow s flowInfo.
Proof.
  intros Hs. unfold checkFlowInfo, readyFlow.
  destruct (jf_name flowInfo) as [name|]; [|discriminate].
  destruct (negb _); [discriminate|].
  destruct (decide (name ∈ flowNames)); [discriminate|].
  destruct (jf_queues flowInfo) as [names|]; [|discriminate].
  destruct (existsb _ names) eqn:E; [discriminate|].
  destruct (jf_arrivalInfo flowInfo); [|discriminate].
  intros _. exists name, names. split; [reflexivity|]. split; [reflexivity|].
  apply Forall_forall. intros queueName Hin. apply Hs. intros H0.
  assert (Hex : existsb (fun queueName =>
                           (getQueueIdByName s queueName =? InvalidQueueId)%Z) names = true);
    [|congruence].
  apply existsb_exists. exists queueName.
  split; [apply list_elem_of_In, Hin | apply Z.eqb_eq, H0].
Qed.

Lemma checkFlowInfos_ready s flowInfos : forall flowNames flowNames',
  queuesNamed s ->
  checkFlowInfos s flowNames flowInfos = (ADMISSION_SUCCESS, flowNames') ->
  Forall (readyFlow s) flowInfos.
Proof.
  induction flowInfos as [|flowInfo rest IH]; intros fn fn' Hs; cbn [checkFlowInfos];
    [constructor|].
  destruct (checkFlowInfo s fn flowInfo) as [[] fn1] eqn:E; try discriminate.
  intros H. constructor; [eapply checkFlowInfo_ready; eassumption | eapply IH; eassumption].
Qed.

Lemma checkClientInfo_ready s clientNames flowNames clientInfo clientNames' flowNames' :
  queuesNamed s ->
  checkClientInfo s clientNames flowNames clientInfo
    = (ADMISSION_SUCCESS, clientNames', flowNames') ->
  readyClient s clientInfo.
Proof.
  intros Hs. unfold checkClientInfo, readyClient.
  destruct (jc_name clientInfo) as [name|]; [|discriminate].
  destruct (negb _); [discriminate|].
  destruct (decide (name ∈ clientNames)); [discriminate|].
  destruct (jc_SLO clientInfo) as [SLO|]; [|discriminate].
  destruct (SLO <=? 0)%float; [discriminate|].
  destruct (match jc_SLOpercentile clientInfo with Some _ => _ | None => _ end);
    [discriminate|].
  destruct (jc_flows clientInfo) as [clientFlows|]; [|discriminate].
  destruct (checkFlowInfos s flowNames clientFlows) as [st fn1] eqn:E.
  intros H. inversion H; subst. exists name, SLO, clientFlows.
  split; [reflexivity|]. split; [reflexivity|]. split; [reflexivity|].
  eapply checkFlowInfos_ready; eassumption.
Qed.

Lemma checkClientInfos_ready s infos :
  queuesNamed s ->
  checkClientInfos s infos = ADMISSION_SUCCESS ->
  Forall (readyClient s) infos.
Proof.
  intros Hs. unfold checkClientInfos. generalize (∅ : gset string) at 1.
  generalize (∅ : gset string).
  induction infos as [|clientInfo rest IH]; intros fn cn; cbn [checkClientInfosFrom];
    [constructor|].
  destruct (checkClientInfo s cn fn clientInfo) as [[[] cn1] fn1] eqn:E; try discriminate.
  intros H. constructor; [eapply checkClientInfo_ready; eassumption | eapply IH, H].
Qed.

(** The additions of a request whose descriptors are ready return. *)
Lemma addClients_total infos : forall svc,
  Forall (readyClient (nc svc)) infos ->
  exists svc' clientIds, addClients svc infos = Some (svc', clientIds).
Proof.
  unfold addClients. generalize (∅ : gset Z).
  induction infos as [|clientInfo rest IH]; intros ids svc H; cbn [foldM]; [eauto|].
  apply Forall_cons in H as [Hinfo Hrest]. cbn [fst snd].
  destruct (addClient_total (nc svc) clientInfo Hinfo) as (s1 & clientId & E & Hnames).
  rewrite E. cbn [mbind option_bind].
  apply (IH _ {| nc := s1; clientInfoStore := <[clientId := clientInfo]> (clientInfoStore svc) |}).
  cbn [nc]. eapply Forall_impl; [exact Hrest|].
  intros info. apply readyClient_same, Hnames.
Qed.

Section Override.

Variable solveLP : State -> list ClientId -> option (nat -> float * float).

(** C9.  A request that passes the validation and whose client records
    all have the member "admitted" set to true is admitted with its
    clients added, whatever [fastFirstFit] is and whatever the latencies
    would be: the fast first-fit check inspects none of the clients and
    the latency check is not made, so the service is left as the
    additions leave it.  The call returns in every engine whose
    registered queue names are names of queues. *)
Theorem admitted_override (svc : Service) (argp : AdmissionAddClientsArgs)
    (infos : list ClientInfo) :
  queuesNamed (nc svc) ->
  clientInfos argp = Some infos ->
  checkClientInfos (nc svc) infos = ADMISSION_SUCCESS ->
  Forall (fun clientInfo => jc_admitted clientInfo = Some true) infos ->
  exists svc' clientIds,
    addClients svc infos = Some (svc', clientIds) /\
    admission_controller_add_clients_svc solveLP svc argp
    = Some (svc', {| admitted := true; status := ADMISSION_SUCCESS |}).
Proof.
  intros Hnamed Hinfos Hvalid Hall.
  destruct (addClients_total infos svc (checkClientInfos_ready _ _ Hnamed Hvalid))
    as (svc' & clientIds & Hadd).
  exists svc', clientIds. split; [exact Hadd|].
  unfold admission_controller_add_clients_svc.
  rewrite Hinfos, Hvalid, (checkOverload_all_admitted _ _ Hall).
  rewrite (admitOverride_all_admitted _ Hall), Hadd.
  destruct (fastFirstFit argp); cbn [mbind option_bind fst snd]; destruct svc'; reflexivity.
Qed.

End Override.

(** ** Examples *)

(** The service with the queue Q of bandwidth 1 and no client. *)
Definition svc0 : Service :=
  {| nc := default (newState DNC_SIMPLE_ALGORITHM_AGGREGATE) oneQueue;
     clientInfoStore := ∅ |}.

Definition request (infos : list ClientInfo) (fast : bool) : AdmissionAddClientsArgs :=
  {| clientInfos := Some infos; fastFirstFit := fast |}.

Definition clientX : ClientInfo := sloClient "X" "FX" ["Q"] 10 0.25 0.5 None.
Definition clientA : ClientInfo := sloClient "A" "FA" ["Q"] 5 0.9 0.5 None.
Definition clientB : ClientInfo := sloClient "B" "FB" ["P"; "Q"] 10 0.9995 0.5 None.
Definition clientC : ClientInfo := sloClient "C" "FC" ["Q"] 10 5 0.5 None.
Definition clientZ (flag : option bool) : ClientInfo :=
  sloClient "Z" "FZ" ["Q"] 0.1 0.25 0.5 flag.

(** X has been admitted: its flow (flow 1) has the shaper curve
    (0.25, 0.5) and the priority 0, and no queue is affected. *)
Definition svcX : Service :=
  default svc0
    (fst <$> admission_controller_add_clients_svc exampleLP svc0 (request [clientX] false)).




(** X has been admitted by its flag: its shaper curve is uninitialized. *)
Definition svcFlagged : Service :=
  default svc0
    (fst <$> admission_controller_add_clients_svc exampleLP svc0
               (request [sloClient "X" "FX" ["Q"] 10 0.25 0.5 (Some true)] true)).

(** The queues P of bandwidth 2 (queue id 1) and Q of bandwidth 1 (queue
    id 2). *)
Definition twoQueues : option State :=
  '(s, _) ← addQueue (newState DNC_SIMPLE_ALGORITHM_AGGREGATE)
              {| jq_name := Some "P"; jq_bandwidth := Some 2%float |};
  '(s, _) ← addQueue s (DNC.unitQueue "Q");
  Some s.

(** The service with the queues P and Q and no client. *)
Definition svcPQ : Service :=
  {| nc := default (newState DNC_SIMPLE_ALGORITHM_AGGREGATE) twoQueues;
     clientInfoStore := ∅ |}.

(** The solution of the LP of B alone in [svcPQ].  The LP divides the rate
    0.9995 and the burst 0.5 of the flow by the bandwidth 2 of its first
    queue P: its constraints are 0.9995 / 2 <= r <= 0.999 and
    0.5 / 2 <= b <= 10 * 0.999, and it minimizes r.  The LP of any other
    group is not needed. *)
Definition solutionB (s : State) (clientGroup : list ClientId)
  : option (nat -> float * float) :=
  match clientGroup with
  | [_] => Some (fun _ => (0.9995 / 2, 0.5 / 2)%float)
  | _ => None
  end.

(** C4, as stated, fails.  The flow of B goes through P and Q and is
    inspected at both; its load 0.9995 at the empty queue Q of bandwidth 1
    exceeds 0.999 times the bandwidth but not 0.999999 times the
    bandwidth, and the request goes on: B is added, the LP is solved, the
    latency 0.5 of B is within its SLO, and B is admitted.  The load of C
    at Q in [svcFlagged] is 5, but the shaper curve of the flow at Q is
    uninitialized: [checkOverload] returns false and the request goes on
    to the LP, which has no solution. *)
Lemma fast_first_fit_goes_on :
  forallb (initialized (nc svcPQ)) (inspected [clientB]) = true /\
  existsb (exceeds 0.999 (nc svcPQ)) (inspected [clientB]) = true /\
  existsb (exceeds 0.999999 (nc svcPQ)) (inspected [clientB]) = false /\
  checkOverload (nc svcPQ) [clientB] = Some false /\
  (fun answer => (admitted answer.2, solverCalls (nc answer.1),
                  DNC.getShaperCurve (nc answer.1) 1,
                  c_latency <$> getClient (nc answer.1) 1))
    <$> admission_controller_add_clients_svc solutionB svcPQ (request [clientB] true)
    = Some (true, [[1%Z]], Some {| r := 0.9995; b := 0.5 |}, Some 0.5%float) /\
  existsb (exceeds 0.999 (nc svcFlagged)) (inspected [clientC]) = true /\
  existsb (exceeds 0.999999 (nc svcFlagged)) (inspected [clientC]) = true /\
  checkOverload (nc svcFlagged) [clientC] = Some false /\
  (fun answer => (admitted answer.2, solverCalls (nc answer.1)))
    <$> admission_controller_add_clients_svc exampleLP svcFlagged
          (request [clientC] true)
    = Some (false, [[1%Z; 2%Z]]).
Proof. conjuncts; vm_compute; reflexivity. Qed.

(** [fastFirstFit_rejects] at the request of A with the flag
    [fastFirstFit]: the load 0.9 + 0.25 exceeds the bandwidth of Q. *)
Lemma fastFirstFit_rejects_witness :
  checkOverload (nc svcX) [clientA] = Some true /\
  admission_controller_add_clients_svc exampleLP svcX (request [clientA] true)
  = Some (svcX, rejected ADMISSION_SUCCESS).
Proof.
  destruct (fastFirstFit_rejects exampleLP svcX (request [clientA] true) [clientA])
    as (Hiff & Hreject & _).
  - reflexivity.
  - reflexivity.
  - vm_compute. reflexivity.
  - assert (H : checkOverload (nc svcX) [clientA] = Some true).
    { apply Hiff. split; vm_compute; reflexivity. }
    split; [exact H | exact (Hreject H)].
Defined.

(** The service after the addition of Z. *)
Definition svcZ : Service :=
  default svc0 (fst <$> addClients svc0 [clientZ (Some true)]).

(** The latency 0.5 of Z exceeds its SLO 0.1: the request is rejected
    without the flag and admitted with it. *)
Example flag_admits_what_the_check_rejects :
  snd <$> admission_controller_add_clients_svc exampleLP svc0 (request [clientZ None] false)
    = Some (rejected ADMISSION_SUCCESS) /\
  admission_controller_add_clients_svc exampleLP svc0
    (request [clientZ (Some true)] false)
    = Some (svcZ, {| admitted := true; status := ADMISSION_SUCCESS |}) /\
  solverCalls (nc svcZ) = [].
Proof. conjuncts; vm_compute; reflexivity. Qed.

(** [admitted_override] at the request of Z with its flag. *)
Lemma admitted_override_witness :
  exists svc' clientIds,
    addClients svc0 [clientZ (Some true)] = Some (svc', clientIds) /\
    admission_controller_add_clients_svc exampleLP svc0 (request [clientZ (Some true)] true)
    = Some (svc', {| admitted := true; status := ADMISSION_SUCCESS |}).
Proof.
  apply (admitted_override exampleLP svc0 (request [clientZ (Some true)] true)
           [clientZ (Some true)]).
  - apply queuesNamedb_spec. vm_compute. reflexivity.
  - reflexivity.
  - vm_compute. reflexivity.
  - repeat constructor.
Defined.

End AdmissionController.

(* ===================================================================== *)
(** * The scheduler: arbitration, pending jobs and occupancy
      ([src/NFSEnforcer/scheduler.cpp]) *)
(* ===================================================================== *)

Module SchedulerInvariants.
Import Double Containers Scheduler.

(** ** The arbitration order is a total preorder *)

Ltac compare_cases :=
  rewrite ?Z.gtb_ltb;
  repeat match goal with
  | |- context [(?a <? ?b)%Z] => destruct (Z.ltb_spec a b)
  | H : context [(?a <? ?b)%Z] |- _ => destruct (Z.ltb_spec a b)
  end.

Lemma CompareClient_refl (c : Client) : CompareClient c c = PREFER_EQUAL.
Proof.
  unfold CompareClient. destruct (pendingJobs c) as [|j l]; [reflexivity|].
  destruct (immediate j), (rateLimitObeyed c); simpl; compare_cases;
    first [reflexivity | lia].
Qed.

Lemma CompareClient_trans (c1 c2 c3 : Client) :
  (0 <= CompareClient c1 c2)%Z -> (0 <= CompareClient c2 c3)%Z ->
  (0 <= CompareClient c1 c3)%Z.
Proof.
  unfold CompareClient, PREFER_1, PREFER_2, PREFER_EQUAL.
  destruct (pendingJobs c1) as [|j1 l1], (pendingJobs c2) as [|j2 l2],
    (pendingJobs c3) as [|j3 l3]; try lia.
  destruct (immediate j1), (immediate j2), (immediate j3); cbn [negb]; try lia;
  destruct (rateLimitObeyed c1), (rateLimitObeyed c2), (rateLimitObeyed c3); try lia;
    rewrite ?Z.gtb_ltb; intros H1 H2;
    repeat match goal with
    | H : context [(?a <? ?b)%Z] |- _ => destruct (Z.ltb_spec a b)
    end; try lia;
    repeat match goal with
    | |- context [(?a <? ?b)%Z] => destruct (Z.ltb_spec a b)
    end; lia.
Qed.

(** X1.  [CompareClient] is a total preorder on tenants: a tenant ties
    with itself, swapping the two tenants negates the verdict, and
    "[c1] is at least as good as [c2]" (a verdict of 0 or more) is
    transitive.  So the tenant that a scan keeps as the best is one that
    no tenant beats, whatever the order of the scan. *)
Theorem CompareClient_total_preorder :
  (forall c, CompareClient c c = PREFER_EQUAL) /\
  (forall c1 c2, CompareClient c2 c1 = (- CompareClient c1 c2)%Z) /\
  (forall c1 c2 c3,
     (0 <= CompareClient c1 c2)%Z -> (0 <= CompareClient c2 c3)%Z ->
     (0 <= CompareClient c1 c3)%Z).
Proof.
  split; [exact CompareClient_refl|].
  split; [exact CompareClient_antisym | exact CompareClient_trans].
Qed.

(** ** [FindBestClient] picks a tenant that no tenant beats *)

Lemma sortedElements_lt (s : gset Z) : StronglySorted Z.lt (sortedElements s).
Proof.
  pose proof (sortedElements_NoDup s) as Hnd. unfold sortedElements in *.
  assert (Hs : StronglySorted Z.le (merge_sort Z.le (elements s))).
  { apply Sorted_StronglySorted; [intros a b c; lia|]. apply Sorted_merge_sort.
    intros a b. lia. }
  induction Hs as [|a l Hs IH Hall]; constructor.
  - apply IH. apply NoDup_cons in Hnd. tauto.
  - apply NoDup_cons in Hnd. destruct Hnd as [Hnotin _].
    rewrite Forall_forall in *. intros k Hk. specialize (Hall k Hk).
    assert (k <> a) by (intros ->; apply Hnotin; exact Hk). lia.
Qed.

(** [best] is among the tenants [visited], none of which beats it, and it
    has the smallest address of those that tie with it. *)
Definition unbeaten (m : gmap Z Client) (best : Z) (visited : list Z) : Prop :=
  best ∈ visited /\
  exists b, m !! best = Some b /\
    forall k, k ∈ visited ->
      exists c, m !! k = Some c /\
        (CompareClient c b <= 0)%Z /\ (CompareClient c b = 0%Z -> (best <= k)%Z).

Section BestClient.
Variable ConvertTimeToSeconds : Z -> float.

Lemma FindBestClient_step_unbeaten now m best visited it c0 :
  unbeaten m best visited ->
  (forall v, v ∈ visited -> (v < it)%Z) ->
  m !! it = Some c0 ->
  exists m' best',
    FindBestClient_step ConvertTimeToSeconds now (m, best) it = (m', best') /\
    dom m' = dom m /\
    unbeaten m' best' (visited ++ [it]).
Proof.
  intros (Hbest & b & Hb & Hall) Hlt Hit.
  assert (Hne : best <> it) by (intros ->; specialize (Hlt _ Hbest); lia).
  unfold FindBestClient_step. rewrite Hit.
  set (c := UpdateTokens ConvertTimeToSeconds c0 now).
  rewrite lookup_insert_ne by congruence. rewrite Hb.
  assert (Hdom : dom (<[it:=c]> m) = dom m).
  { rewrite dom_insert_L. apply elem_of_dom_2 in Hit.
    apply set_eq. intros k. rewrite elem_of_union, elem_of_singleton.
    split; [intros [->|H]; assumption | auto]. }
  assert (Hold : forall k, k ∈ visited -> <[it:=c]> m !! k = m !! k).
  { intros k Hk. apply lookup_insert_ne. specialize (Hlt _ Hk). lia. }
  destruct (Z.gtb_spec (CompareClient c b) 0) as [Hgt|Hle].
  - exists (<[it:=c]> m), it. split; [reflexivity|]. split; [exact Hdom|].
    split; [apply elem_of_app; right; left|].
    exists c. split; [apply lookup_insert_eq|].
    intros k Hk. apply elem_of_app in Hk. destruct Hk as [Hk|Hk].
    + destruct (Hall k Hk) as (ck & Hck & Hle & _).
      exists ck. split; [rewrite Hold by exact Hk; exact Hck|].
      assert (Hstrict : (CompareClient ck c < 0)%Z).
      { destruct (Z.lt_ge_cases (CompareClient ck c) 0) as [?|Hge]; [assumption|].
        exfalso.
        assert (H1 : (0 <= CompareClient b ck)%Z)
          by (rewrite (CompareClient_antisym ck b); lia).
        assert (H2 : (0 <= CompareClient ck c)%Z) by lia.
        pose proof (CompareClient_trans _ _ _ H1 H2) as H3.
        rewrite (CompareClient_antisym c b) in H3. lia. }
      split; lia.
    + apply list_elem_of_singleton in Hk. subst k.
      exists c. split; [apply lookup_insert_eq|].
      rewrite CompareClient_refl. unfold PREFER_EQUAL. split; lia.
  - exists (<[it:=c]> m), best. split; [reflexivity|]. split; [exact Hdom|].
    split; [apply elem_of_app; left; exact Hbest|].
    exists b. split; [rewrite lookup_insert_ne by congruence; exact Hb|].
    intros k Hk. apply elem_of_app in Hk. destruct Hk as [Hk|Hk].
    + destruct (Hall k Hk) as (ck & Hck & H).
      exists ck. split; [rewrite Hold by exact Hk; exact Hck | exact H].
    + apply list_elem_of_singleton in Hk. subst k.
      exists c. split; [apply lookup_insert_eq|].
      split; [lia|]. intros _. specialize (Hlt _ Hbest). lia.
Qed.

Lemma FindBestClient_fold_unbeaten now todo : forall m best visited,
  unbeaten m best visited ->
  StronglySorted Z.lt todo ->
  (forall v t, v ∈ visited -> t ∈ todo -> (v < t)%Z) ->
  (forall t, t ∈ todo -> is_Some (m !! t)) ->
  exists m' best',
    fold_left (FindBestClient_step ConvertTimeToSeconds now) todo (m, best) = (m', best') /\
    unbeaten m' best' (visited ++ todo).
Proof.
  induction todo as [|it todo IH]; intros m best visited Hinv Hsorted Hlt Hdom.
  - exists m, best. rewrite app_nil_r. split; [reflexivity | exact Hinv].
  - destruct (Hdom it) as [c0 Hc0]; [left|].
    destruct (FindBestClient_step_unbeaten now m best visited it c0 Hinv) as
      (m1 & best1 & Hstep & Hdom1 & Hinv1); [|exact Hc0|].
    { intros v Hv. apply Hlt; [exact Hv | left]. }
    cbn [fold_left]. rewrite Hstep.
    apply StronglySorted_inv in Hsorted. destruct Hsorted as [Hsorted Hhead].
    destruct (IH m1 best1 (visited ++ [it]) Hinv1 Hsorted) as (m' & best' & Hfold & Hinv').
    + intros v t Hv Ht. apply elem_of_app in Hv. destruct Hv as [Hv|Hv].
      * apply Hlt; [exact Hv | right; exact Ht].
      * apply list_elem_of_singleton in Hv. subst v.
        rewrite Forall_forall in Hhead. apply Hhead. exact Ht.
    + intros t Ht. apply elem_of_dom. rewrite Hdom1. apply elem_of_dom.
      apply Hdom. right. exact Ht.
    + exists m', best'. split; [exact Hfold|].
      rewrite <- app_assoc in Hinv'. exact Hinv'.
Qed.

Lemma FindBestClient_unbeaten (s : Scheduler) (now : Z) (s' : Scheduler) (best : Z) :
  FindBestClient ConvertTimeToSeconds s now = Some (s', best) ->
  exists b, _clients s' !! best = Some b /\
    forall k c, _clients s' !! k = Some c ->
      (CompareClient c b <= 0)%Z /\ (CompareClient c b = 0%Z -> (best <= k)%Z).
Proof.
  intros H.
  pose proof (FindBestClient_updates_every_client _ _ _ _ _ H) as Hall.
  unfold FindBestClient in H. cbv zeta in H.
  pose proof (clientKeys_spec (_clients s)) as Hkeys.
  pose proof (sortedElements_lt (dom (_clients s))) as Hsorted.
  change (sortedElements (dom (_clients s))) with (clientKeys (_clients s)) in Hsorted.
  destruct (clientKeys (_clients s)) as [|first rest]; [discriminate|].
  destruct (proj1 (Hkeys first)) as [c0 Hc0]; [left|].
  apply StronglySorted_inv in Hsorted. destruct Hsorted as [Hsorted Hhead].
  cbn [fold_left] in H.
  assert (Hfirst : FindBestClient_step ConvertTimeToSeconds now (_clients s, first) first
                   = (<[first := UpdateTokens ConvertTimeToSeconds c0 now]> (_clients s), first)).
  { unfold FindBestClient_step. rewrite Hc0, lookup_insert_eq.
    rewrite CompareClient_refl. reflexivity. }
  rewrite Hfirst in H.
  destruct (FindBestClient_fold_unbeaten now rest
              (<[first := UpdateTokens ConvertTimeToSeconds c0 now]> (_clients s))
              first [first]) as (m' & best' & Hfold & Hinv).
  - split; [left|]. eexists. split; [apply lookup_insert_eq|].
    intros k Hk. apply list_elem_of_singleton in Hk. subst k.
    eexists. split; [apply lookup_insert_eq|].
    rewrite CompareClient_refl. unfold PREFER_EQUAL. split; lia.
  - exact Hsorted.
  - intros v t Hv Ht. apply list_elem_of_singleton in Hv. subst v.
    rewrite Forall_forall in Hhead. apply Hhead. exact Ht.
  - intros t Ht.
    destruct (decide (t = first)) as [->|Hne];
      [rewrite lookup_insert_eq; eauto|].
    rewrite lookup_insert_ne by congruence. apply Hkeys. right. exact Ht.
  - rewrite Hfold in H. injection H as <- <-. cbn [_clients].
    destruct Hinv as (_ & b & Hb & Hvisited).
    exists b. split; [exact Hb|].
    intros k c Hk. destruct (Hvisited k) as (c' & Hc' & Hcmp).
    + cbn [_clients] in Hall. rewrite Hall, lookup_fmap in Hk.
      destruct (_clients s !! k) as [ck|] eqn:Eck; [|discriminate].
      change ([first] ++ rest) with (first :: rest). apply Hkeys. eauto.
    + rewrite Hc' in Hk. injection Hk as <-. exact Hcmp.
Qed.

(** X2.  The tenant that [FindBestClient] returns is one that no tenant
    beats, all tenants taken as the scan's [UpdateTokens] leaves them; of
    the tenants that tie with it, it has the smallest address. *)
Theorem FindBestClient_picks_best (s : Scheduler) (now : Z) (s' : Scheduler) (best : Z) :
  FindBestClient ConvertTimeToSeconds s now = Some (s', best) ->
  exists b, _clients s' !! best = Some b /\
    forall k c, _clients s' !! k = Some c ->
      (CompareClient c b <= 0)%Z /\ (CompareClient c b = 0%Z -> (best <= k)%Z).
Proof. apply FindBestClient_unbeaten. Qed.

End BestClient.

(** ** The count of pending jobs *)

(** The jobs in the queues of all tenants. *)
Definition pendingTotal (clients : gmap Z Client) : Z :=
  map_fold (fun _ c n => (Z.of_nat (length (pendingJobs c)) + n)%Z) 0%Z clients.

(** [_pendingJobCount] counts the jobs in the queues. *)
Definition countsPending (s : Scheduler) : Prop :=
  _pendingJobCount s = pendingTotal (_clients s).

Lemma pendingTotal_insert_new (m : gmap Z Client) k c :
  m !! k = None ->
  pendingTotal (<[k := c]> m) = (Z.of_nat (length (pendingJobs c)) + pendingTotal m)%Z.
Proof.
  intros H. unfold pendingTotal. rewrite map_fold_insert_L; [reflexivity| |exact H].
  intros. lia.
Qed.

Lemma pendingTotal_insert (m : gmap Z Client) k c c0 :
  m !! k = Some c0 ->
  pendingTotal (<[k := c]> m) =
  (pendingTotal m - Z.of_nat (length (pendingJobs c0)) + Z.of_nat (length (pendingJobs c)))%Z.
Proof.
  intros H. rewrite <- (insert_delete_eq m k c).
  rewrite <- (insert_delete_id m k c0 H) at 2.
  rewrite !pendingTotal_insert_new by apply lookup_delete_eq. lia.
Qed.

Lemma pendingTotal_fmap (f : Client -> Client) (m : gmap Z Client) :
  (forall c, pendingJobs (f c) = pendingJobs c) ->
  pendingTotal (f <$> m) = pendingTotal m.
Proof.
  intros Hf. induction m as [|k c m Hk IH] using map_ind.
  - rewrite fmap_empty. reflexivity.
  - rewrite fmap_insert. rewrite !pendingTotal_insert_new; [|exact Hk|].
    + rewrite Hf, IH. reflexivity.
    + rewrite lookup_fmap, Hk. reflexivity.
Qed.

Lemma pendingTotal_nonneg (m : gmap Z Client) : (0 <= pendingTotal m)%Z.
Proof.
  induction m as [|k c m Hk IH] using map_ind.
  - reflexivity.
  - rewrite pendingTotal_insert_new by exact Hk. lia.
Qed.

(** When jobs are pending, some tenant has one. *)
Lemma pendingTotal_pos (m : gmap Z Client) :
  (0 < pendingTotal m)%Z -> exists k c, m !! k = Some c /\ pendingJobs c <> [].
Proof.
  induction m as [|k c m Hk IH] using map_ind.
  - unfold pendingTotal. rewrite map_fold_empty. lia.
  - rewrite pendingTotal_insert_new by exact Hk. intros H.
    destruct (pendingJobs c) as [|j l] eqn:E.
    + destruct IH as (k' & c' & Hc' & Hq); [simpl in H; lia|].
      exists k', c'. split; [|exact Hq].
      rewrite lookup_insert_ne; [exact Hc'|]. intros ->. congruence.
    + exists k, c. split; [apply lookup_insert_eq|]. rewrite E. discriminate.
Qed.

Lemma GetClient_pendingTotal (m : gmap Z Client) addr t :
  (GetClient m addr t).1 !! addr = Some (GetClient m addr t).2 /\
  pendingTotal (GetClient m addr t).1 = pendingTotal m.
Proof.
  unfold GetClient. destruct (m !! addr) as [c|] eqn:E; cbn [fst snd].
  - split; [exact E | reflexivity].
  - split; [apply lookup_insert_eq|]. rewrite pendingTotal_insert_new by exact E.
    reflexivity.
Qed.

Lemma UpdateTokens_pendingJobs secs c now :
  pendingJobs (UpdateTokens secs c now) = pendingJobs c.
Proof.
  unfold UpdateTokens. destruct (pendingJobs c) as [|j l] eqn:E; [exact E|].
  destruct (rateLimitObeyed c); [exact E|].
  destruct (rateLimitUpdateTime c <? lastOccupancyTime c)%Z; exact E.
Qed.

Section PendingCount.
Variable ConvertTimeToSeconds : Z -> float.
Variable estimateWork : Z -> bool -> float.

(** X3.  Every operation of the scheduler keeps [_pendingJobCount] equal to the
    number of jobs in the queues of the tenants: a submission adds one to
    both, a dispatch takes one from both, and reconfiguring, querying and
    arbitrating change neither. *)
Theorem pending_count_is_kept (s : Scheduler) :
  countsPending s ->
  (forall addr prio limits t, countsPending (UpdateClient s addr prio limits t)) /\
  (forall addr t now, countsPending (GetOccupancy s addr t now).1) /\
  (forall addr t, countsPending (GetNumPendingJobs s addr t).1) /\
  (forall j now t, countsPending (SubmitJob estimateWork s j now t) /\
     _pendingJobCount (SubmitJob estimateWork s j now t) = (_pendingJobCount s + 1)%Z) /\
  (forall now s' best, FindBestClient ConvertTimeToSeconds s now = Some (s', best) ->
     countsPending s' /\ _pendingJobCount s' = _pendingJobCount s) /\
  (forall addr now s' j, RemoveJob s addr now = Some (s', j) ->
     countsPending s' /\ _pendingJobCount s' = (_pendingJobCount s - 1)%Z).
Proof.
  unfold countsPending. intros Hs. conjuncts.
  - intros addr prio limits t. unfold UpdateClient.
    destruct (GetClient_pendingTotal (_clients s) addr t) as [Hc Ht].
    destruct (GetClient (_clients s) addr t) as [m c]. cbn [fst snd] in *.
    cbn [_clients _pendingJobCount].
    rewrite (pendingTotal_insert _ _ _ _ Hc). cbn [pendingJobs set_rateLimitObeyed
      set_rateLimits set_priority]. lia.
  - intros addr t now. unfold GetOccupancy.
    destruct (GetClient_pendingTotal (_clients s) addr t) as [Hc Ht].
    destruct (GetClient (_clients s) addr t) as [m c]. cbn [fst snd] in *.
    cbn [_clients _pendingJobCount].
    rewrite (pendingTotal_insert _ _ _ _ Hc). cbn [pendingJobs set_getOccupancyTime
      set_occupancy]. lia.
  - intros addr t. unfold GetNumPendingJobs.
    destruct (GetClient_pendingTotal (_clients s) addr t) as [Hc Ht].
    destruct (GetClient (_clients s) addr t) as [m c]. cbn [fst snd] in *.
    cbn [_clients _pendingJobCount]. lia.
  - intros j now t. unfold SubmitJob, AddJob.
    destruct (GetClient_pendingTotal (_clients s) (s_addr j) t) as [Hc Ht].
    destruct (GetClient (_clients s) (s_addr j) t) as [m c]. cbn [fst snd] in *.
    cbn [_clients _pendingJobCount s_addr]. split; [|reflexivity].
    rewrite (pendingTotal_insert _ _ _ _ Hc). cbn [pendingJobs set_pendingJobs].
    rewrite length_app. cbn [length].
    destruct (pendingJobs c) eqn:E; cbn [pendingJobs set_lastOccupancyTime];
      rewrite ?E; cbn [length]; lia.
  - intros now s' best H.
    pose proof (FindBestClient_updates_every_client _ _ _ _ _ H) as Hall.
    assert (Hcount : _pendingJobCount s' = _pendingJobCount s).
    { unfold FindBestClient in H. cbv zeta in H.
      destruct (clientKeys (_clients s)); [discriminate|].
      destruct (fold_left _ _ _). injection H as <- _. reflexivity. }
    split; [|exact Hcount]. rewrite Hcount, Hall, pendingTotal_fmap; [exact Hs|].
    intros c. apply UpdateTokens_pendingJobs.
  - intros addr now s' j H. unfold RemoveJob in H.
    destruct (_clients s !! addr) as [c|] eqn:Ec; [|discriminate].
    destruct (pendingJobs c) as [|pJob rest] eqn:Eq; [discriminate|].
    destruct (geb (jobSize pJob) 0); [|discriminate].
    injection H as <- _. cbn [_clients _pendingJobCount]. split; [|reflexivity].
    rewrite (pendingTotal_insert _ _ _ _ Ec), Eq.
    destruct rest; cbn [pendingJobs set_rateLimitObeyed set_rateLimits set_pendingJobs
      set_occupancy length]; lia.
Qed.

(** X4.  What [ScheduleJob] relies on when it takes the front job of the
    best tenant: when [_pendingJobCount] is the number of queued jobs and
    is positive, [FindBestClient] returns a tenant, and the queue of that
    tenant is not empty. *)
Theorem FindBestClient_has_job (s : Scheduler) (now : Z) :
  countsPending s -> (0 < _pendingJobCount s)%Z ->
  exists s' best b pJob rest,
    FindBestClient ConvertTimeToSeconds s now = Some (s', best) /\
    _clients s' !! best = Some b /\ pendingJobs b = pJob :: rest.
Proof.
  intros Hs Hpos. rewrite Hs in Hpos.
  destruct (pendingTotal_pos _ Hpos) as (k & c & Hc & Hq).
  destruct (FindBestClient ConvertTimeToSeconds s now) as [[s' best]|] eqn:E.
  - destruct (FindBestClient_unbeaten ConvertTimeToSeconds _ _ _ _ E) as (b & Hb & Hall).
    pose proof (FindBestClient_updates_every_client _ _ _ _ _ E) as Hm.
    destruct (Hall k (UpdateTokens ConvertTimeToSeconds c now)) as [Hle _].
    { rewrite Hm, lookup_fmap, Hc. reflexivity. }
    destruct (pendingJobs b) as [|pJob rest] eqn:Eb.
    + exfalso. unfold CompareClient in Hle. rewrite UpdateTokens_pendingJobs, Eb in Hle.
      destruct (pendingJobs c); [congruence|]. unfold PREFER_1 in Hle. lia.
    + exists s', best, b, pJob, rest. auto.
  - exfalso. unfold FindBestClient in E. cbv zeta in E.
    pose proof (clientKeys_spec (_clients s) k) as Hk.
    destruct (clientKeys (_clients s)) as [|first keys].
    + destruct Hk as [_ Hk]. specialize (Hk (ex_intro _ c Hc)).
      apply elem_of_nil in Hk. exact Hk.
    + destruct (fold_left _ _ _). discriminate.
Qed.

End PendingCount.

(** ** Occupancy accounting *)

Lemma u64_credit (a l t1 t : Z) :
  u64 (u64 (a - u64 (a + u64 (t1 - l))) + u64 (t - l)) = u64 (t - t1).
Proof.
  unfold u64.
  rewrite Zplus_mod_idemp_l, Zplus_mod_idemp_r.
  replace (a - (a + (t1 - l) mod 2 ^ 64) mod 2 ^ 64 + (t - l))%Z
    with (a + (t - l) - (a + (t1 - l) mod 2 ^ 64) mod 2 ^ 64)%Z by lia.
  rewrite Zminus_mod_idemp_r.
  replace (a + (t - l) - (a + (t1 - l) mod 2 ^ 64))%Z
    with (t - l - (t1 - l) mod 2 ^ 64)%Z by lia.
  rewrite Zminus_mod_idemp_r. f_equal. lia.
Qed.

Lemma u64_zero (a : Z) : u64 (a - a) = 0%Z.
Proof. unfold u64. rewrite Z.sub_diag. reflexivity. Qed.

(** X5.  What a query of the occupancy reports does not depend on what
    was accumulated before the previous query.  After a query at [t1], the
    next query, at [t3], divides by the time [t3 - t1] since then
    - 0, for a tenant whose queue was empty in between;
    - [t3 - t1], for a tenant whose queue was never empty in between;
    - [t2 - t1], for a tenant whose only job is dispatched at [t2];
    all differences being taken modulo 2^64, as the source does. *)
Theorem occupancy_since_last_query (s : Scheduler) (addr : Z) (c : Client)
    (tGet tGet' t1 t2 t3 : Z) :
  _clients s !! addr = Some c ->
  let s1 := (GetOccupancy s addr tGet t1).1 in
  (pendingJobs c = [] ->
   (GetOccupancy s1 addr tGet' t3).2 = (of_Z 0 / of_Z (u64 (t3 - t1)))%float) /\
  (pendingJobs c <> [] ->
   (GetOccupancy s1 addr tGet' t3).2
   = (of_Z (u64 (t3 - t1)) / of_Z (u64 (t3 - t1)))%float) /\
  (forall j, pendingJobs c = [j] -> geb (jobSize j) 0 = true ->
   exists s2 j', RemoveJob s1 addr t2 = Some (s2, j') /\
     (GetOccupancy s2 addr tGet' t3).2
     = (of_Z (u64 (t2 - t1)) / of_Z (u64 (t3 - t1)))%float).
Proof.
  intros Hc s1.
  assert (Hs1 : exists occ,
            _clients s1 !! addr =
              Some (set_getOccupancyTime t1 (set_occupancy occ c)) /\
            (pendingJobs c = [] -> occ = 0%Z) /\
            (pendingJobs c <> [] ->
             occ = u64 (occupancy c
                        - u64 (occupancy c + u64 (t1 - lastOccupancyTime c))))).
  { subst s1. unfold GetOccupancy, GetClient. rewrite Hc. cbn [_clients fst].
    rewrite lookup_insert_eq. eexists. split; [reflexivity|].
    destruct (pendingJobs c); split; intros H; try congruence.
    apply u64_zero. }
  destruct Hs1 as (occ & Hc1 & Hidle & Hbusy).
  conjuncts.
  - intros Hq. unfold GetOccupancy at 1, GetClient. rewrite Hc1. cbn [snd].
    cbn [pendingJobs set_getOccupancyTime set_occupancy occupancy getOccupancyTime].
    rewrite Hq, (Hidle Hq). reflexivity.
  - intros Hq. unfold GetOccupancy at 1, GetClient. rewrite Hc1. cbn [snd].
    cbn [pendingJobs set_getOccupancyTime set_occupancy occupancy getOccupancyTime
         lastOccupancyTime].
    rewrite (Hbusy Hq). destruct (pendingJobs c); [congruence|].
    rewrite u64_credit. reflexivity.
  - intros j Hq Hsize. unfold RemoveJob. rewrite Hc1.
    cbn [pendingJobs set_getOccupancyTime set_occupancy]. rewrite Hq, Hsize.
    eexists _, _. split; [reflexivity|].
    unfold GetOccupancy, GetClient. cbn [_clients]. rewrite lookup_insert_eq. cbn [snd].
    cbn [pendingJobs set_getOccupancyTime set_occupancy occupancy getOccupancyTime
         lastOccupancyTime set_pendingJobs set_rateLimits set_rateLimitObeyed].
    rewrite Hbusy by (rewrite Hq; discriminate).
    rewrite u64_credit. reflexivity.
Qed.

(** ** The properties on the run of the examples *)

(** [FindBestClient_picks_best] at the first scheduling step of the run:
    tenant 1 is picked. *)
Lemma FindBestClient_picks_best_witness :
  exists s' b,
    FindBestClient nsToSeconds run2 (2 * second) = Some (s', 1%Z) /\
    _clients s' !! 1%Z = Some b /\
    forall k c, _clients s' !! k = Some c ->
      (CompareClient c b <= 0)%Z /\ (CompareClient c b = 0%Z -> (1 <= k)%Z).
Proof.
  assert (E : exists s', FindBestClient nsToSeconds run2 (2 * second) = Some (s', 1%Z))
    by (vm_compute; eauto).
  destruct E as [s' E]. exists s'.
  destruct (FindBestClient_picks_best nsToSeconds run2 (2 * second) s' 1 E) as (b & Hb & H).
  exists b. split; [exact E|]. split; [exact Hb | exact H].
Defined.

(** [pending_count_is_kept] on the run: two jobs are pending after the two
    submissions, three after one more. *)
Lemma pending_count_is_kept_witness :
  countsPending run2 /\
  countsPending (SubmitJob bytesOfWork run2 (readJob 1) second second) /\
  _pendingJobCount (SubmitJob bytesOfWork run2 (readJob 1) second second) = 3%Z.
Proof.
  assert (H2 : countsPending run2) by (vm_compute; reflexivity).
  split; [exact H2|].
  destruct (pending_count_is_kept nsToSeconds bytesOfWork run2 H2) as (_ & _ & _ & H & _).
  destruct (H (readJob 1) second second) as [Hc Hn].
  split; [exact Hc|]. rewrite Hn. vm_compute. reflexivity.
Defined.

(** [FindBestClient_has_job] on the run. *)
Lemma FindBestClient_has_job_witness :
  countsPending run2 /\ (0 < _pendingJobCount run2)%Z /\
  exists s' best b pJob rest,
    FindBestClient nsToSeconds run2 (2 * second) = Some (s', best) /\
    _clients s' !! best = Some b /\ pendingJobs b = pJob :: rest.
Proof.
  assert (H2 : countsPending run2) by (vm_compute; reflexivity).
  assert (Hpos : (0 < _pendingJobCount run2)%Z) by (vm_compute; reflexivity).
  split; [exact H2|]. split; [exact Hpos|].
  exact (FindBestClient_has_job nsToSeconds run2 (2 * second) H2 Hpos).
Defined.

(** [occupancy_since_last_query] on the run: tenant 1 is queried at second
    2, its only job is dispatched at second 3, and the query at second 6
    reports a quarter. *)
Lemma occupancy_since_last_query_witness :
  _clients run2 !! 1%Z = Some tenant1_submitted /\
  exists s2 j',
    RemoveJob (GetOccupancy run2 1 0 (2 * second)).1 1 (3 * second) = Some (s2, j') /\
    (GetOccupancy s2 1 0 (6 * second)).2 = 0.25%float.
Proof.
  assert (Hc : _clients run2 !! 1%Z = Some tenant1_submitted) by (vm_compute; reflexivity).
  split; [exact Hc|].
  destruct (occupancy_since_last_query run2 1 tenant1_submitted 0 0
              (2 * second) (3 * second) (6 * second) Hc) as (_ & _ & H).
  destruct (H _ eq_refl eq_refl) as (s2 & j' & Hr & Ho).
  exists s2, j'. split; [exact Hr|]. rewrite Ho. vm_compute. reflexivity.
Defined.

End SchedulerInvariants.

(* ===================================================================== *)
(** * The latency between two curves ([calcLatency], [src/DNC-Library/DNC.cpp]) *)
(* ===================================================================== *)

Module LatencyOfCurves.
Import Double Containers Curves.

(** ** More on the order of doubles *)

Lemma leb_ltb_trans a b c :
  (a <=? b)%float = true -> (b <? c)%float = true -> (a <=? c)%float = true.
Proof.
  rewrite !FloatAxioms.leb_spec, FloatAxioms.ltb_spec. unfold SFleb, SFltb. intros H1 H2.
  destruct (SFcompare (Prim2SF a) (Prim2SF b)) as [c1|] eqn:E1; [|discriminate].
  destruct (SFcompare (Prim2SF b) (Prim2SF c)) as [[]|] eqn:E2; try discriminate.
  destruct (SFcompare_trans _ _ _ _ _ E1 E2) as (Ha & _ & Hb).
  destruct c1; try discriminate.
  - rewrite (Ha eq_refl). reflexivity.
  - rewrite (Hb eq_refl eq_refl). reflexivity.
Qed.

(** Nothing is above plus infinity. *)
Lemma infinity_ltb v : (infinity <? v)%float = false.
Proof.
  rewrite FloatAxioms.ltb_spec. unfold SFltb.
  change (Prim2SF infinity) with (S754_infinity false).
  destruct (Prim2SF v) as [s|s| |s m e]; simpl; try reflexivity; destruct s; reflexivity.
Qed.

(** ** [calcLatency] *)

(** [maxLatency] starts at 0 and only a larger latency replaces it. *)
Lemma calcLatency_loop_nonnegative fuel arrivalCurve serviceCurve :
  forall arrivalIndex serviceIndex maxLatency l,
  (0 <=? maxLatency)%float = true ->
  calcLatency_loop fuel arrivalCurve serviceCurve arrivalIndex serviceIndex maxLatency
    = Some l ->
  (0 <=? l)%float = true.
Proof.
  assert (Hmax : forall latency maxLatency, (0 <=? maxLatency)%float = true ->
            (0 <=? (if gtb latency maxLatency then latency else maxLatency))%float = true).
  { intros latency maxLatency Hm. destruct (gtb latency maxLatency) eqn:E; [|exact Hm].
    exact (leb_ltb_trans _ _ _ Hm E). }
  induction fuel as [|fuel IH]; intros ai si m l Hm; simpl.
  - destruct (negb _); [intros [= <-]; exact Hm | discriminate].
  - destruct (negb _); [intros [= <-]; exact Hm |].
    destruct (curveY arrivalCurve ai <? curveY serviceCurve si)%float.
    + destruct (arrivalCurve !! ai) as [ap|]; [|discriminate]. simpl.
      destruct (curvePrev serviceCurve si) as [sp|]; [|discriminate]. simpl.
      apply IH, Hmax, Hm.
    + destruct (gtb (curveY arrivalCurve ai) (curveY serviceCurve si)).
      * destruct (curvePrev arrivalCurve ai) as [ap|]; [|discriminate]. simpl.
        destruct (serviceCurve !! si) as [sp|]; [|discriminate]. simpl.
        apply IH, Hmax, Hm.
      * destruct (arrivalCurve !! ai) as [ap|]; [|discriminate]. simpl.
        destruct (serviceCurve !! si) as [sp|]; [|discriminate]. simpl.
        apply IH, Hmax, Hm.
Qed.

(** X6.  The latency that [calcLatency] returns is a number and is not
    below 0, whatever the curves: not NaN, and not negative. *)
Theorem calcLatency_nonnegative (arrivalCurve serviceCurve : Curve) (l : float) :
  calcLatency arrivalCurve serviceCurve = Some l ->
  (0 <=? l)%float = true /\ is_number l.
Proof.
  intros H. assert (Hl : (0 <=? l)%float = true).
  { unfold calcLatency in H.
    refine (calcLatency_loop_nonnegative _ _ _ _ _ _ _ _ H).
    vm_compute. reflexivity. }
  split; [exact Hl|].
  destruct (is_nan l) eqn:E; [|exact E]. exfalso.
  apply is_nan_spec in E. rewrite FloatAxioms.leb_spec in Hl. unfold SFleb in Hl.
  rewrite E in Hl. simpl in Hl. discriminate.
Qed.

(** The heights of a curve are below infinity (and so are numbers). *)
Definition bounded (curve : Curve) : Prop :=
  Forall (fun p => (y p <? infinity)%float = true) curve.

Lemma bounded_lookup curve i p :
  bounded curve -> curve !! i = Some p -> (y p <? infinity)%float = true.
Proof. intros H Hp. exact (proj1 (Forall_lookup _ _) H i p Hp). Qed.

Lemma calcLatency_loop_defined (arrivalCurve serviceCurve : Curve) :
  bounded arrivalCurve -> bounded serviceCurve ->
  forall fuel arrivalIndex serviceIndex maxLatency,
  (1 <= arrivalIndex <= length arrivalCurve)%nat ->
  (1 <= serviceIndex <= length serviceCurve)%nat ->
  ((length arrivalCurve - arrivalIndex) + (length serviceCurve - serviceIndex)
   <= fuel)%nat ->
  is_Some (calcLatency_loop fuel arrivalCurve serviceCurve arrivalIndex serviceIndex
             maxLatency).
Proof.
  intros Ha Hs. induction fuel as [|fuel IH]; intros ai si m Hai Hsi Hfuel.
  - cbn [calcLatency_loop].
    destruct (Nat.ltb_spec ai (length arrivalCurve)); [lia|].
    destruct (Nat.ltb_spec si (length serviceCurve)); [lia|]. simpl. eauto.
  - cbn [calcLatency_loop].
    destruct (negb _) eqn:Eguard; [eauto|]. cbv zeta.
    assert (Hpa : exists pa, curvePrev arrivalCurve ai = Some pa).
    { destruct ai as [|j]; [lia|]. simpl. apply lookup_lt_is_Some. lia. }
    assert (Hps : exists ps, curvePrev serviceCurve si = Some ps).
    { destruct si as [|j]; [lia|]. simpl. apply lookup_lt_is_Some. lia. }
    destruct Hpa as [pa Hpa], Hps as [ps Hps].
    unfold curveY.
    destruct (arrivalCurve !! ai) as [ap|] eqn:Eap;
      destruct (serviceCurve !! si) as [sp|] eqn:Esp.
    + pose proof (lookup_lt_Some _ _ _ Eap). pose proof (lookup_lt_Some _ _ _ Esp).
      destruct (y ap <? y sp)%float.
      * rewrite Hps. cbn [mbind option_bind]. apply IH; lia.
      * destruct (gtb (y ap) (y sp)).
        -- rewrite Hpa. cbn [mbind option_bind]. apply IH; lia.
        -- cbn [mbind option_bind]. apply IH; lia.
    + pose proof (lookup_lt_Some _ _ _ Eap).
      rewrite (bounded_lookup _ _ _ Ha Eap), Hps. cbn [mbind option_bind].
      apply IH; lia.
    + pose proof (lookup_lt_Some _ _ _ Esp).
      rewrite infinity_ltb. unfold gtb. rewrite (bounded_lookup _ _ _ Hs Esp), Hpa.
      cbn [mbind option_bind]. apply IH; lia.
    + apply lookup_ge_None in Eap, Esp.
      destruct (Nat.ltb_spec ai (length arrivalCurve)); [lia|].
      destruct (Nat.ltb_spec si (length serviceCurve)); [lia|]. discriminate.
Qed.

(** X7.  [calcLatency] reads its two curves within their bounds, and
    returns, when both start at the same height and no height is infinite
    or NaN; a curve that starts below the other makes it read the point
    before the first one of the other. *)
Theorem calcLatency_defined (pa ps : PointSlope) (arrivalCurve serviceCurve : Curve) :
  ((y pa <? y ps)%float = true \/ (y ps <? y pa)%float = true ->
   calcLatency (pa :: arrivalCurve) (ps :: serviceCurve) = None) /\
  (bounded (pa :: arrivalCurve) -> bounded (ps :: serviceCurve) ->
   (y pa <? y ps)%float = false -> (y ps <? y pa)%float = false ->
   is_Some (calcLatency (pa :: arrivalCurve) (ps :: serviceCurve))).
Proof.
  split.
  - intros H. unfold calcLatency. cbn [length Nat.add calcLatency_loop].
    cbn [Nat.ltb Nat.leb orb negb]. cbv zeta. unfold curveY. cbn [lookup list_lookup].
    destruct H as [H|H].
    + rewrite H. reflexivity.
    + rewrite (ltb_asym _ _ H). unfold gtb. rewrite H. reflexivity.
  - intros Ha Hs H1 H2. unfold calcLatency. cbn [length Nat.add calcLatency_loop].
    cbn [Nat.ltb Nat.leb orb negb]. cbv zeta. unfold curveY. cbn [lookup list_lookup].
    rewrite H1. unfold gtb at 1. rewrite H2. cbn [mbind option_bind].
    apply calcLatency_loop_defined; try assumption; cbn [length]; lia.
Qed.

(** [calcLatency_nonnegative] on the curves of the unit test, whose latency
    is 9. *)
Lemma calcLatency_nonnegative_witness :
  calcLatency testArrivalCurve testServiceCurve = Some 9%float /\
  (0 <=? 9)%float = true /\ is_number 9%float.
Proof.
  assert (H : calcLatency testArrivalCurve testServiceCurve = Some 9%float)
    by (vm_compute; reflexivity).
  split; [exact H|].
  exact (calcLatency_nonnegative testArrivalCurve testServiceCurve 9 H).
Defined.

End LatencyOfCurves.

(* ===================================================================== *)
(** * Arrival curves from r-b curves ([src/DNC-Library/DNC.cpp]) *)
(* ===================================================================== *)

Module ArrivalCurves.
Import Double Containers Curves.

(** ** [calcPointSlopeIntersection] *)

(** The intersection of the two lines, with the slope of the first;
    [None] when an [assert] fails. *)
Definition calcPointSlopeIntersection (p1 p2 : PointSlope) : option PointSlope :=
  if negb (slope p1 =? slope p2)%float then
    if is_infinity (slope p1) then
      Some {| x := x p1; y := (y p2 - slope p2 * (x p2 - x p1))%float; slope := slope p1 |}
    else if is_infinity (slope p2) then
      Some {| x := x p2; y := (y p1 - slope p1 * (x p1 - x p2))%float; slope := slope p1 |}
    else
      _ ← DNC.assert (is_finite (slope p1));
      _ ← DNC.assert (is_finite (slope p2));
      let b1 := yIntercept (x p1) (y p1) (slope p1) in
      let b2 := yIntercept (x p2) (y p2) (slope p2) in
      let ix := ((b2 - b1) / (slope p1 - slope p2))%float in
      Some {| x := ix; y := (slope p1 * ix + b1)%float; slope := slope p1 |}
  else Some p1.

(** ** The map [bursts] of [rbCurveToArrivalCurve]

    A [std::map<double, double>]: the entries in increasing order of their
    keys, no two keys equivalent under [<]. *)
Definition Bursts := list (float * float).

(** [bursts.find(key)]. *)
Fixpoint Bursts_find (key : float) (bursts : Bursts) : option float :=
  match bursts with
  | [] => None
  | (k, v) :: rest =>
    if (k <? key)%float then Bursts_find key rest
    else if (key <? k)%float then None
    else Some v
  end.

(** A new entry, at its place. *)
Fixpoint Bursts_insert (key value : float) (bursts : Bursts) : Bursts :=
  match bursts with
  | [] => [(key, value)]
  | (k, v) :: rest =>
    if (key <? k)%float then (key, value) :: bursts
    else if (k <? key)%float then (k, v) :: Bursts_insert key value rest
    else (k, value) :: rest
  end.

(** [bursts[key]], read: a missing entry is created with value 0. *)
Definition Bursts_subscript (key : float) (bursts : Bursts) : float * Bursts :=
  match Bursts_find key bursts with
  | Some v => (v, bursts)
  | None => (0%float, Bursts_insert key 0%float bursts)
  end.

(** ** [rbCurveToArrivalCurve]

    The curve under construction is a vector used as a stack: its back is
    the head of the list. *)

Definition initialPoint : PointSlope := {| x := 0; y := 0; slope := infinity |}.

(** [while (arrivalCurve.size() > 1)]: points are taken off the stack
    until the line of [point] meets the last one to the right of it; the
    point to push and the stack. *)
Fixpoint popCovered (point : PointSlope) (stack : list PointSlope)
  : option (PointSlope * list PointSlope) :=
  match stack with
  | [] => Some (point, stack)
  | lastPoint :: rest =>
    match rest with
    | [] => Some (point, stack)
    | _ :: _ =>
      match calcPointSlopeIntersection point lastPoint with
      | None => None
      | Some intersectionPoint =>
        if gtb (x intersectionPoint) (x lastPoint) then Some (intersectionPoint, stack)
        else popCovered point rest
      end
    end
  end.

(** One turn of the loop over the rates. *)
Definition addRate (acc : list PointSlope * Bursts) (rate : float)
  : option (list PointSlope * Bursts) :=
  let '(burst, bursts) := Bursts_subscript rate acc.2 in
  match popCovered {| x := 0; y := burst; slope := rate |} acc.1 with
  | None => None
  | Some (point, stack) => Some (point :: stack, bursts)
  end.

(** The arrival curve, and the map [bursts] as the reads leave it. *)
Definition rbCurveToArrivalCurve (rates : list float) (bursts : Bursts)
  : option (Curve * Bursts) :=
  match foldM addRate rates ([initialPoint], bursts) with
  | None => None
  | Some (stack, bursts) => Some (reverse stack, bursts)
  end.

(** ** [pruneArrivalCurve] *)

(** [unsigned int] arithmetic wraps. *)
Definition u32 (z : Z) : Z := z mod 2 ^ 32.

(** The first loop: points with [x] at or beyond the threshold leave the
    back of the curve while it has more than [n] points.  The curve is
    given back first. *)
Fixpoint dropFar (n : Z) (stack : list PointSlope) : list PointSlope :=
  match stack with
  | [] => []
  | back :: rest =>
    if (n <? Z.of_nat (length stack))%Z then
      if (x back <? 30)%float then stack else dropFar n rest
    else stack
  end.

(** The [for] loop of the second loop: the index [i] of the point closest
    in height to its successor, among the points 1 .. size - 2. *)
Definition closest (curve : Curve) : option nat :=
  '(toRemove, _) ←
    foldM (fun (acc : nat * float) i =>
             p1 ← curve !! i;
             p2 ← curve !! S i;
             if (y p2 - y p1 <? acc.2)%float then Some (i, (y p2 - y p1)%float)
             else Some acc)
          (seq 1 (length curve - 2)) (1%nat, infinity);
  Some toRemove.

(** The second loop; [fuel] counts its turns, each of which takes a point
    off the curve. *)
Fixpoint mergeClose (fuel : nat) (n : Z) (curve : Curve) : option Curve :=
  if (n <? Z.of_nat (length curve))%Z then
    match fuel with
    | O => None
    | S fuel =>
      toRemove ← closest curve;
      _ ← curve !! toRemove;                   (* erase(begin() + toRemove) *)
      let curve := delete toRemove curve in
      p ← curve !! toRemove;
      prev ← curvePrev curve toRemove;
      q ← calcPointSlopeIntersection p prev;
      mergeClose fuel n (<[toRemove := q]> curve)
    end
  else Some curve.

Definition pruneArrivalCurve (arrivalCurve : Curve) (n : Z) : option Curve :=
  let n := u32 (n + 1) in
  let arrivalCurve := reverse (dropFar n (reverse arrivalCurve)) in
  mergeClose (length arrivalCurve) n arrivalCurve.

(** ** The unit tests of [DNCTest.cpp] *)

(** "Test remove points" of [testRbCurveToArrivalCurve]. *)
Definition testRates : list float := [1; 0.75; 0.5; 0.25; 0.125]%float.
Definition testBursts : Bursts :=
  [(0.125, 4); (0.25, 3); (0.5, 2.5); (0.75, 1); (1, 2)]%float.

Example testRbCurveToArrivalCurve :
  fst <$> rbCurveToArrivalCurve testRates testBursts =
  Some [ {| x := 0; y := 0; slope := infinity |};
         {| x := 0; y := 1; slope := 0.75 |};
         {| x := 4; y := 4; slope := 0.25 |};
         {| x := 8; y := 5; slope := 0.125 |} ].
Proof. vm_compute. reflexivity. Qed.

(** "Test zero slope" and "Test infinite slope" of
    [testCalcPointSlopeIntersection]. *)
Example testCalcPointSlopeIntersection :
  calcPointSlopeIntersection {| x := 3; y := 3; slope := 0 |}
                             {| x := 1; y := 1; slope := 0.5 |}
  = Some {| x := 5; y := 3; slope := 0 |} /\
  calcPointSlopeIntersection {| x := 3; y := 7; slope := 1 |} initialPoint
  = Some {| x := 0; y := 4; slope := 1 |}.
Proof. split; vm_compute; reflexivity. Qed.

(** "Test prune large x values" and "Test prune all but one point" of
    [testPruneArrivalCurve]. *)
Definition testCurve : Curve :=
  [ {| x := 0; y := 0; slope := infinity |};
    {| x := 0; y := 1; slope := 6 |};
    {| x := 1; y := 7; slope := 5 |};
    {| x := 2; y := 12; slope := 4 |};
    {| x := 3; y := 16; slope := 3 |};
    {| x := 4; y := 19; slope := 2 |} ].

Example testPruneArrivalCurve :
  pruneArrivalCurve (take 5 testCurve
                       ++ [ {| x := 100; y := 307; slope := 2 |};
                            {| x := 200; y := 507; slope := 1 |} ]) 4
  = Some (take 5 testCurve) /\
  pruneArrivalCurve testCurve 1
  = Some [ {| x := 0; y := 0; slope := infinity |};
           {| x := 0; y := 11; slope := 2 |} ].
Proof. split; vm_compute; reflexivity. Qed.

(** ** Properties *)

(** NaN is not infinite. *)
Lemma is_infinity_nan v : is_nan v = true -> is_infinity v = false.
Proof.
  intros H. apply is_nan_spec in H. unfold is_infinity.
  rewrite FloatAxioms.eqb_spec, FloatAxioms.abs_spec, H. reflexivity.
Qed.

Lemma eqb_nan_l u v : is_nan u = true -> (u =? v)%float = false.
Proof.
  intros H. apply is_nan_spec in H. rewrite FloatAxioms.eqb_spec, H. reflexivity.
Qed.

Lemma eqb_nan_r u v : is_nan v = true -> (u =? v)%float = false.
Proof.
  intros H. apply is_nan_spec in H. rewrite FloatAxioms.eqb_spec, H.
  unfold SFeqb. destruct (Prim2SF u) as [s|s| |s m e]; try reflexivity; destruct s; reflexivity.
Qed.

(** X8.  [calcPointSlopeIntersection] returns a point with the slope of its
    first argument, which it returns as it is when the slopes are equal;
    it fails an [assert] exactly when a slope is NaN and the other slope is
    not infinite. *)
Theorem calcPointSlopeIntersection_spec (p1 p2 : PointSlope) :
  (forall q, calcPointSlopeIntersection p1 p2 = Some q -> slope q = slope p1) /\
  ((slope p1 =? slope p2)%float = true -> calcPointSlopeIntersection p1 p2 = Some p1) /\
  (calcPointSlopeIntersection p1 p2 = None <->
   (is_nan (slope p1) = true /\ is_infinity (slope p2) = false) \/
   (is_nan (slope p2) = true /\ is_infinity (slope p1) = false)).
Proof.
  unfold calcPointSlopeIntersection, is_finite. conjuncts.
  - intros q. destruct (slope p1 =? slope p2)%float; cbn [negb]; [intros [= <-]; reflexivity|].
    destruct (is_infinity (slope p1)); [intros [= <-]; reflexivity|].
    destruct (is_infinity (slope p2)); [intros [= <-]; reflexivity|].
    destruct (is_nan (slope p1)); cbn [orb negb DNC.assert mbind option_bind];
      [discriminate|].
    destruct (is_nan (slope p2)); cbn [orb negb DNC.assert mbind option_bind];
      [discriminate|]. intros [= <-]. reflexivity.
  - intros ->. reflexivity.
  - destruct (is_nan (slope p1)) eqn:N1.
    + rewrite (eqb_nan_l _ _ N1), (is_infinity_nan _ N1). cbn [negb orb].
      destruct (is_infinity (slope p2)) eqn:I2; cbn [DNC.assert mbind option_bind negb].
      * split; [discriminate|]. intros [[_ H]|[H _]]; [discriminate|].
        apply is_infinity_nan in H. congruence.
      * split; [auto | reflexivity].
    + destruct (is_nan (slope p2)) eqn:N2.
      * rewrite (eqb_nan_r _ _ N2), (is_infinity_nan _ N2). cbn [negb orb].
        destruct (is_infinity (slope p1)) eqn:I1;
          cbn [DNC.assert mbind option_bind negb orb].
        -- split; [discriminate|]. intros [[H _]|[_ H]]; discriminate.
        -- split; [auto | reflexivity].
      * destruct (slope p1 =? slope p2)%float; cbn [negb orb].
        { split; [discriminate | intros [[H _]|[H _]]; discriminate]. }
        destruct (is_infinity (slope p1)), (is_infinity (slope p2));
          cbn [DNC.assert mbind option_bind negb];
          (split; [discriminate | intros [[H _]|[H _]]; discriminate]).
Qed.

(** *** The shape of the curve that [rbCurveToArrivalCurve] builds *)

(** The points of a curve from left to right. *)
Definition climbing (pts : list PointSlope) : Prop :=
  StronglySorted (fun p q => (x p <? x q)%float = true) pts.

Definition slopesAreNumbers (pts : list PointSlope) : Prop :=
  Forall (fun p => is_number (slope p)) pts.

Lemma calcPointSlopeIntersection_numbers p1 p2 :
  is_number (slope p1) -> is_number (slope p2) ->
  exists q, calcPointSlopeIntersection p1 p2 = Some q /\ slope q = slope p1.
Proof.
  intros H1 H2. destruct (calcPointSlopeIntersection_spec p1 p2) as (Hslope & _ & Hnone).
  destruct (calcPointSlopeIntersection p1 p2) as [q|] eqn:E.
  - exists q. split; [reflexivity | apply Hslope; reflexivity].
  - exfalso. unfold is_number in *.
    destruct (proj1 Hnone eq_refl) as [[H _]|[H _]]; congruence.
Qed.

(** The points of the stack, the newest first. *)
Definition stacked (tops : list PointSlope) : Prop :=
  StronglySorted (fun newer older => (x older <? x newer)%float = true) tops.

Lemma stacked_climbing tops : stacked tops -> climbing (reverse tops).
Proof.
  unfold stacked, climbing. induction 1 as [|t tops Hs IH Hall].
  - constructor.
  - rewrite reverse_cons. apply StronglySorted_app_2.
    + intros p q Hp Hq. apply list_elem_of_singleton in Hq. subst q.
      rewrite elem_of_reverse in Hp. rewrite Forall_forall in Hall. apply Hall, Hp.
    + exact IH.
    + repeat constructor.
Qed.

Lemma popCovered_cons point t stack :
  stack <> [] ->
  popCovered point (t :: stack) =
  match calcPointSlopeIntersection point t with
  | None => None
  | Some q => if gtb (x q) (x t) then Some (q, t :: stack) else popCovered point stack
  end.
Proof. destruct stack; [congruence | reflexivity]. Qed.

(** What the inner loop leaves: the stack without some of its top points,
    and a point with the slope of [point], to the right of what is left. *)
Lemma popCovered_spec point : forall tops,
  is_number (slope point) -> slopesAreNumbers tops -> stacked tops ->
  exists point' tops',
    popCovered point (tops ++ [initialPoint]) = Some (point', tops' ++ [initialPoint]) /\
    slope point' = slope point /\
    tops' `suffix_of` tops /\
    Forall (fun older => (x older <? x point')%float = true) tops'.
Proof.
  intros tops Hpoint. induction tops as [|t tops IH]; intros Htops Hst.
  - exists point, []. cbn. split; [reflexivity|]. split; [reflexivity|].
    split; [reflexivity | constructor].
  - apply Forall_cons in Htops. destruct Htops as [Ht Htops].
    apply StronglySorted_inv in Hst. destruct Hst as [Hst Hbelow].
    destruct (calcPointSlopeIntersection_numbers point t Hpoint Ht) as (q & Hq & Hslope).
    change ((t :: tops) ++ [initialPoint]) with (t :: (tops ++ [initialPoint])).
    rewrite popCovered_cons by (destruct tops; discriminate).
    rewrite Hq. destruct (gtb (x q) (x t)) eqn:Egt.
    + exists q, (t :: tops). split; [reflexivity|]. split; [exact Hslope|].
      split; [reflexivity|]. constructor; [exact Egt|].
      eapply Forall_impl; [exact Hbelow|]. intros older Holder. cbn beta in Holder.
      exact (ltb_trans _ _ _ Holder Egt).
    + destruct (IH Htops Hst) as (point' & tops' & Hpop & Hs & Hsuffix & Hright).
      exists point', tops'. rewrite Hpop. split; [reflexivity|].
      split; [exact Hs|]. split; [apply suffix_cons_r; exact Hsuffix | exact Hright].
Qed.

(** What holds of the stack after the rates [processed]. *)
Definition shaped (processed : list float) (tops : list PointSlope) : Prop :=
  stacked tops /\ slopesAreNumbers tops /\
  (slope <$> reverse tops) `sublist_of` processed /\
  last (slope <$> reverse tops) = last processed.

Lemma suffix_stacked tops' tops : tops' `suffix_of` tops -> stacked tops -> stacked tops'.
Proof. intros [k ->]. apply StronglySorted_app_1_r. Qed.

Lemma suffix_numbers tops' tops :
  tops' `suffix_of` tops -> slopesAreNumbers tops -> slopesAreNumbers tops'.
Proof. intros [k ->] H. apply Forall_app in H. tauto. Qed.

Lemma addRate_shaped processed tops bursts rate :
  shaped processed tops -> is_number rate ->
  exists tops' bursts',
    addRate (tops ++ [initialPoint], bursts) rate = Some (tops' ++ [initialPoint], bursts') /\
    shaped (processed ++ [rate]) tops'.
Proof.
  intros (Hst & Hnum & Hsub & Hlast) Hrate. unfold addRate. cbn [fst snd].
  destruct (Bursts_subscript rate bursts) as [burst bursts'].
  destruct (popCovered_spec {| x := 0; y := burst; slope := rate |} tops Hrate Hnum Hst)
    as (point' & tops' & Hpop & Hslope & Hsuffix & Hright).
  rewrite Hpop. exists (point' :: tops'), bursts'. split; [reflexivity|].
  cbn [slope] in Hslope.
  split; [|split; [|split]].
  - constructor; [exact (suffix_stacked _ _ Hsuffix Hst) | exact Hright].
  - constructor; [unfold is_number; rewrite Hslope; exact Hrate|].
    exact (suffix_numbers _ _ Hsuffix Hnum).
  - rewrite reverse_cons, fmap_app. cbn [fmap list_fmap]. rewrite Hslope.
    apply sublist_app; [|reflexivity].
    destruct Hsuffix as [k ->]. rewrite reverse_app, fmap_app in Hsub.
    etransitivity; [|exact Hsub]. apply sublist_inserts_r. reflexivity.
  - rewrite reverse_cons, fmap_app. cbn [fmap list_fmap]. rewrite !last_snoc, Hslope.
    reflexivity.
Qed.

Lemma foldM_addRate_shaped rates : forall processed tops bursts,
  shaped processed tops -> Forall is_number rates ->
  exists tops' bursts',
    foldM addRate rates (tops ++ [initialPoint], bursts)
      = Some (tops' ++ [initialPoint], bursts') /\
    shaped (processed ++ rates) tops'.
Proof.
  induction rates as [|rate rates IH]; intros processed tops bursts Hinv Hrates.
  - exists tops, bursts. rewrite app_nil_r. split; [reflexivity | exact Hinv].
  - apply Forall_cons in Hrates. destruct Hrates as [Hrate Hrates].
    destruct (addRate_shaped processed tops bursts rate Hinv Hrate)
      as (tops1 & bursts1 & Hadd & Hinv1).
    destruct (IH (processed ++ [rate]) tops1 bursts1 Hinv1 Hrates)
      as (tops' & bursts' & Hfold & Hinv').
    exists tops', bursts'. cbn [foldM]. rewrite Hadd. split; [exact Hfold|].
    rewrite <- app_assoc in Hinv'. exact Hinv'.
Qed.

(** X9.  For rates that are numbers, [rbCurveToArrivalCurve] returns a
    curve that starts with the initial point (0, 0, +inf); the slopes of
    the points that follow are rates, in the order of [rates], the last
    one being the last rate; and these points go from left to right, each
    [x] above the one before. *)
Theorem rbCurveToArrivalCurve_shape (rates : list float) (bursts : Bursts) :
  Forall is_number rates ->
  exists pts bursts',
    rbCurveToArrivalCurve rates bursts = Some (initialPoint :: pts, bursts') /\
    (slope <$> pts) `sublist_of` rates /\
    last (slope <$> pts) = last rates /\
    climbing pts.
Proof.
  intros Hrates.
  destruct (foldM_addRate_shaped rates [] [] bursts) as (tops & bursts' & Hfold & Hinv).
  - split; [constructor|]. split; [constructor|]. split; reflexivity.
  - exact Hrates.
  - exists (reverse tops), bursts'. unfold rbCurveToArrivalCurve.
    change [initialPoint] with ([] ++ [initialPoint]). rewrite Hfold.
    rewrite reverse_app. cbn [reverse rev_append app].
    destruct Hinv as (Hst & _ & Hsub & Hlast).
    split; [reflexivity|]. split; [exact Hsub|]. split; [exact Hlast|].
    exact (stacked_climbing _ Hst).
Qed.

(** *** The size of the curve that [pruneArrivalCurve] leaves *)






(** [rbCurveToArrivalCurve_shape] on the rates of the unit test. *)
Lemma rbCurveToArrivalCurve_shape_witness :
  Forall is_number testRates /\
  exists pts bursts',
    rbCurveToArrivalCurve testRates testBursts = Some (initialPoint :: pts, bursts') /\
    (slope <$> pts) `sublist_of` testRates /\
    last (slope <$> pts) = last testRates /\
    climbing pts.
Proof.
  assert (H : Forall is_number testRates) by (repeat constructor).
  split; [exact H|]. exact (rbCurveToArrivalCurve_shape testRates testBursts H).
Defined.


End ArrivalCurves.

(* ===================================================================== *)
(** * The estimators of work ([src/Estimator]) *)
(* ===================================================================== *)

Module Estimator.
Import Double.

(** ** Network estimators ([NetworkEstimator.cpp]) *)

(** The four parameters of [NetworkInEstimator] and [NetworkOutEstimator]. *)
Record NetworkEstimator := {
  _nonDataConstant : float;
  _nonDataFactor : float;
  _dataConstant : float;
  _dataFactor : float;
}.

Definition NetworkInEstimator_estimateWork (e : NetworkEstimator)
    (requestSize : Z) (isReadRequest : bool) : float :=
  if isReadRequest
  then (_nonDataConstant e + _nonDataFactor e * of_Z requestSize)%float
  else (_dataConstant e + _dataFactor e * of_Z requestSize)%float.

Definition NetworkOutEstimator_estimateWork (e : NetworkEstimator)
    (requestSize : Z) (isReadRequest : bool) : float :=
  if negb isReadRequest
  then (_nonDataConstant e + _nonDataFactor e * of_Z requestSize)%float
  else (_dataConstant e + _dataFactor e * of_Z requestSize)%float.

(** ** The SSD estimator ([Estimator.hpp], [StorageSSDEstimator.cpp]) *)

Record StorageBandwidth := {
  requestSize : Z;             (* int, B *)
  bandwidth : float;           (* B/s *)
}.

Record StorageSSDEstimator := {
  _readBandwidthTable : list StorageBandwidth;
  _writeBandwidthTable : list StorageBandwidth;
}.

Definition linearInterpolate (x x0 x1 y0 y1 : float) : float :=
  (y0 + (y1 - y0) * (x - x0) / (x1 - x0))%float.

(** The loop over the entries 1 .. size - 1 of the table: the bandwidth
    interpolated between the first entry whose request size is above
    [size] and its predecessor [prev]; [None] when the loop ends without a
    [break]. *)
Fixpoint interpolated (size : Z) (prev : StorageBandwidth) (entries : list StorageBandwidth)
  : option float :=
  match entries with
  | [] => None
  | entry :: entries =>
    if (size <? requestSize entry)%Z then
      Some (linearInterpolate (of_Z size)
              (of_Z (requestSize prev)) (of_Z (requestSize entry))
              (bandwidth prev) (bandwidth entry))
    else interpolated size entry entries
  end.

(** [StorageSSDEstimator::estimateWork]; [None] for the [back()] of an
    empty table and for a failed [assert(bandwidth > 0)]. *)
Definition StorageSSDEstimator_estimateWork (e : StorageSSDEstimator)
    (size : Z) (isReadRequest : bool) : option float :=
  let bandwidthTable :=
    if isReadRequest then _readBandwidthTable e else _writeBandwidthTable e in
  match bandwidthTable with
  | [] => None
  | first :: entries =>
    back ← last bandwidthTable;
    let bandwidth := default (bandwidth back) (interpolated size first entries) in
    if gtb bandwidth 0 then Some (of_Z size / bandwidth)%float else None
  end.

(** ** The unit test of [StorageSSDEstimatorTest.cpp] *)

Definition testEstimator : StorageSSDEstimator :=
  {| _readBandwidthTable :=
       [ {| requestSize := 1; bandwidth := 0.5 |};
         {| requestSize := 2; bandwidth := 1 |};
         {| requestSize := 4; bandwidth := 2 |};
         {| requestSize := 6; bandwidth := 3 |} ];
     _writeBandwidthTable :=
       [ {| requestSize := 1; bandwidth := 0.5 |};
         {| requestSize := 2; bandwidth := 0.5 |};
         {| requestSize := 4; bandwidth := 1 |};
         {| requestSize := 6; bandwidth := 1.5 |} ] |}.

Example StorageSSDEstimatorTest :
  (fun size => StorageSSDEstimator_estimateWork testEstimator size true)
    <$> [1; 2; 3; 4; 5; 6]%Z
  = Some <$> [2; 2; 2; 2; 2; 2]%float /\
  (fun size => StorageSSDEstimator_estimateWork testEstimator size false)
    <$> [1; 2; 3; 4; 5; 6]%Z
  = Some <$> [2; 4; 4; 4; 4; 4]%float.
Proof. split; vm_compute; reflexivity. Qed.

(** ** Properties *)

(** A double that is neither NaN nor infinite, and one that is not zero. *)
Definition finite (v : float) : Prop := (abs v <? infinity)%float = true.
Definition nonzero (v : float) : Prop := (0 <? abs v)%float = true.

Lemma finite_spec v :
  finite v -> exists s, Prim2SF v = S754_zero s \/ exists m e, Prim2SF v = S754_finite s m e.
Proof.
  unfold finite. rewrite FloatAxioms.ltb_spec, FloatAxioms.abs_spec. unfold SFltb.
  change (Prim2SF infinity) with (S754_infinity false).
  destruct (Prim2SF v) as [s|s| |s m e]; simpl; try discriminate; eauto.
Qed.

Lemma nonzero_spec v :
  nonzero v -> exists s, Prim2SF v = S754_infinity s \/ exists m e, Prim2SF v = S754_finite s m e.
Proof.
  unfold nonzero. rewrite FloatAxioms.ltb_spec, FloatAxioms.abs_spec. unfold SFltb.
  change (Prim2SF 0%float) with (S754_zero false).
  destruct (Prim2SF v) as [s|s| |s m e]; simpl; try discriminate; eauto.
Qed.

Lemma positive_spec v :
  gtb v 0 = true -> Prim2SF v = S754_infinity false \/ exists m e, Prim2SF v = S754_finite false m e.
Proof.
  unfold gtb. rewrite FloatAxioms.ltb_spec. unfold SFltb.
  change (Prim2SF 0%float) with (S754_zero false).
  destruct (Prim2SF v) as [s|s| |s m e]; simpl; try discriminate;
    destruct s; try discriminate; eauto.
Qed.

(** The interpolation at the left end of a segment is the value there. *)
Lemma linearInterpolate_left (x0 x1 y0 y1 : float) :
  finite x0 -> nonzero (x1 - x0) -> finite (y1 - y0) -> gtb y0 0 = true ->
  linearInterpolate x0 x0 x1 y0 y1 = y0.
Proof.
  intros Hx0 Hdx Hdy Hy0. unfold linearInterpolate. apply Prim2SF_inj.
  rewrite FloatAxioms.add_spec, FloatAxioms.div_spec, FloatAxioms.mul_spec.
  rewrite (FloatAxioms.sub_spec x0 x0). unfold SF64add, SF64div, SF64mul, SF64sub.
  destruct (finite_spec _ Hx0) as [sx Hx]. destruct (nonzero_spec _ Hdx) as [sd Hd].
  destruct (finite_spec _ Hdy) as [sy Hy].
  assert (Hzero : SFsub prec emax (Prim2SF x0) (Prim2SF x0) = S754_zero false).
  { destruct Hx as [->|(m & e & ->)].
    - destruct sx; reflexivity.
    - cbn [SFsub]. rewrite Z.min_id, Z.sub_diag. reflexivity. }
  rewrite Hzero.
  assert (Hmul : exists s, SFmul prec emax (Prim2SF (y1 - y0)) (S754_zero false) = S754_zero s).
  { destruct Hy as [->|(m & e & ->)]; cbn; eauto. }
  destruct Hmul as [s ->].
  assert (Hdiv : exists s', SFdiv prec emax (S754_zero s) (Prim2SF (x1 - x0)) = S754_zero s').
  { destruct Hd as [->|(m & e & ->)]; cbn; eauto. }
  destruct Hdiv as [s' ->].
  destruct (positive_spec _ Hy0) as [->|(m & e & ->)]; reflexivity.
Qed.

(** The table the request is looked up in. *)
Definition tableOf (e : StorageSSDEstimator) (isReadRequest : bool)
  : list StorageBandwidth :=
  if isReadRequest then _readBandwidthTable e else _writeBandwidthTable e.

Lemma interpolated_beyond size entries : forall prev,
  Forall (fun entry => (requestSize entry <= size)%Z) entries ->
  interpolated size prev entries = None.
Proof.
  induction entries as [|entry entries IH]; intros prev Hall; [reflexivity|].
  apply Forall_cons in Hall. destruct Hall as [Hentry Hall]. cbn [interpolated].
  destruct (Z.ltb_spec size (requestSize entry)); [lia|]. apply IH, Hall.
Qed.

(** X11.  Beyond the table the estimator uses the last bandwidth: a request
    at least as large as every entry of the table but the first costs its
    size divided by the bandwidth of the last entry, which the source
    asserts to be positive.  This is so for every request when the table
    has one entry.  With an empty table the estimator reads the last entry
    of an empty vector. *)
Theorem estimateWork_beyond_table (e : StorageSSDEstimator) (size : Z)
    (isReadRequest : bool) :
  (tableOf e isReadRequest = [] ->
   StorageSSDEstimator_estimateWork e size isReadRequest = None) /\
  (forall first entries back,
     tableOf e isReadRequest = first :: entries ->
     last (first :: entries) = Some back ->
     Forall (fun entry => (requestSize entry <= size)%Z) entries ->
     StorageSSDEstimator_estimateWork e size isReadRequest =
       if gtb (bandwidth back) 0 then Some (of_Z size / bandwidth back)%float else None).
Proof.
  unfold StorageSSDEstimator_estimateWork, tableOf. split.
  - intros ->. reflexivity.
  - intros first entries back -> Hback Hall. rewrite Hback. cbn [mbind option_bind].
    rewrite (interpolated_beyond _ _ _ Hall). reflexivity.
Qed.

(** The request sizes of a table go up. *)
Definition increasing (table : list StorageBandwidth) : Prop :=
  StronglySorted (fun a b => (requestSize a < requestSize b)%Z) table.

Lemma interpolated_at (entry : StorageBandwidth) post : forall pre prev,
  Forall (fun a => (requestSize a <= requestSize entry)%Z) pre ->
  interpolated (requestSize entry) prev (pre ++ entry :: post) =
  interpolated (requestSize entry) entry post.
Proof.
  induction pre as [|a pre IH]; intros prev Hall; cbn [app interpolated].
  - rewrite Z.ltb_irrefl. reflexivity.
  - apply Forall_cons in Hall. destruct Hall as [Ha Hall].
    destruct (Z.ltb_spec (requestSize entry) (requestSize a)); [lia|]. apply IH, Hall.
Qed.

(** X12.  At a profiled request size the estimator uses the profiled
    bandwidth: for a table whose request sizes go up, a request of the size of an
    entry costs that size divided by the bandwidth of the entry, which is
    asserted to be positive.  The size of the entry is to convert to a
    finite double, and the next entry, when there is one, to differ from
    it in size as doubles and by a finite amount in bandwidth. *)
Theorem estimateWork_at_profiled_size (e : StorageSSDEstimator) (isReadRequest : bool)
    (i : nat) (entry : StorageBandwidth) :
  increasing (tableOf e isReadRequest) ->
  tableOf e isReadRequest !! i = Some entry ->
  finite (of_Z (requestSize entry)) ->
  gtb (bandwidth entry) 0 = true ->
  (forall next, tableOf e isReadRequest !! S i = Some next ->
     nonzero (of_Z (requestSize next) - of_Z (requestSize entry)) /\
     finite (bandwidth next - bandwidth entry)) ->
  StorageSSDEstimator_estimateWork e (requestSize entry) isReadRequest =
    Some (of_Z (requestSize entry) / bandwidth entry)%float.
Proof.
  intros Hinc Hentry Hsize Hpos Hnext.
  unfold StorageSSDEstimator_estimateWork. fold (tableOf e isReadRequest).
  assert (Hsplit : tableOf e isReadRequest
                   = take i (tableOf e isReadRequest) ++ entry
                       :: drop (S i) (tableOf e isReadRequest)).
  { symmetry. apply take_drop_middle. exact Hentry. }
  assert (Hpost : head (drop (S i) (tableOf e isReadRequest))
                  = tableOf e isReadRequest !! S i).
  { rewrite <- (Nat.add_0_r (S i)) at 2. rewrite <- lookup_drop.
    destruct (drop (S i) (tableOf e isReadRequest)); reflexivity. }
  set (pre := take i (tableOf e isReadRequest)) in *.
  set (post := drop (S i) (tableOf e isReadRequest)) in *.
  rewrite Hsplit in Hinc. unfold increasing in Hinc.
  apply StronglySorted_app in Hinc. destruct Hinc as (Hbefore & _ & Hinc).
  apply StronglySorted_inv in Hinc. destruct Hinc as [_ Hafter].
  assert (Hinterp : interpolated (requestSize entry) entry post
                    = match post with
                      | [] => None
                      | _ :: _ => Some (bandwidth entry)
                      end).
  { destruct post as [|next post']; [reflexivity|]. cbn [interpolated].
    apply Forall_cons in Hafter. destruct Hafter as [Hlt _].
    destruct (Z.ltb_spec (requestSize entry) (requestSize next)); [|lia].
    destruct (Hnext next) as [Hdx Hdy]; [rewrite <- Hpost; reflexivity|].
    rewrite linearInterpolate_left by assumption. reflexivity. }
  assert (Hback : forall l, last (l ++ entry :: post)
                            = match post with [] => Some entry | _ :: _ => last post end).
  { intros l. rewrite last_app. destruct post as [|next post']; [reflexivity|].
    rewrite last_cons. destruct (last (next :: post')) eqn:E; [reflexivity|].
    apply last_None in E. discriminate. }
  assert (Hle : Forall (fun a => (requestSize a <= requestSize entry)%Z) pre).
  { apply Forall_forall. intros a Ha.
    specialize (Hbefore a entry Ha). cbn beta in Hbefore.
    assert (requestSize a < requestSize entry)%Z by (apply Hbefore; left). lia. }
  rewrite Hsplit. destruct pre as [|first pre'].
  - cbn [app]. change (entry :: post) with ([] ++ entry :: post). rewrite Hback.
    rewrite Hinterp. destruct post as [|next post'].
    + cbn [mbind option_bind default]. unfold id. rewrite Hpos. reflexivity.
    + destruct (last (next :: post')) as [back|] eqn:E;
        [|apply last_None in E; discriminate].
      cbn [mbind option_bind default]. unfold id. rewrite Hpos. reflexivity.
  - cbn [app]. change (first :: pre' ++ entry :: post)
      with ((first :: pre') ++ entry :: post). rewrite Hback.
    apply Forall_cons in Hle. destruct Hle as [_ Hle].
    rewrite (interpolated_at entry post pre' first Hle), Hinterp.
    destruct post as [|next post'].
    + cbn [mbind option_bind default]. unfold id. rewrite Hpos. reflexivity.
    + destruct (last (next :: post')) as [back|] eqn:E;
        [|apply last_None in E; discriminate].
      cbn [mbind option_bind default]. unfold id. rewrite Hpos. reflexivity.
Qed.

(** [estimateWork_beyond_table] on the estimator of the unit test: a read
    of 7 bytes, beyond the last entry. *)
Lemma estimateWork_beyond_table_witness :
  StorageSSDEstimator_estimateWork testEstimator 7 true = Some (7 / 3)%float.
Proof.
  destruct (estimateWork_beyond_table testEstimator 7 true) as [_ H].
  rewrite (H _ _ {| requestSize := 6; bandwidth := 3 |} eq_refl eq_refl).
  - reflexivity.
  - repeat constructor; cbn; lia.
Defined.

(** [estimateWork_at_profiled_size] on the estimator of the unit test: a
    read of 2 bytes, the size of the second entry. *)
Lemma estimateWork_at_profiled_size_witness :
  increasing (tableOf testEstimator true) /\
  StorageSSDEstimator_estimateWork testEstimator 2 true = Some (2 / 1)%float.
Proof.
  assert (Hinc : increasing (tableOf testEstimator true))
    by (repeat constructor; cbn; lia).
  split; [exact Hinc|].
  apply (estimateWork_at_profiled_size testEstimator true 1
           {| requestSize := 2; bandwidth := 1 |} Hinc eq_refl).
  - reflexivity.
  - reflexivity.
  - intros next [= <-]. split; reflexivity.
Defined.

End Estimator.

(* ===================================================================== *)
(** * Validation and affected flows
      ([src/AdmissionController/AdmissionController.cpp]) *)
(* ===================================================================== *)

Module AdmissionChecks.
Import Double Containers Curves NC AdmissionController.

(** ** The JSON request *)

(** A member that the program expects to be an array: [isMember] is
    false, [isArray] is false, or the elements of the array. *)
Inductive ArrayMember (A : Type) : Type :=
| Missing
| NotArray
| Elements (elements : list A).
Arguments Missing {A}.
Arguments NotArray {A}.
Arguments Elements {A} elements.

(** The members of a flow and of a client that the validation reads; a
    field is [None] when the member is absent. *)
Record FlowJson := {
  fj_name : option string;
  fj_queues : ArrayMember string;
  fj_arrivalInfo : option Curve;
}.
Record ClientJson := {
  cj_name : option string;
  cj_SLO : option float;
  cj_SLOpercentile : option float;
  cj_flows : ArrayMember FlowJson;
}.

(** The validation on the JSON request, with its [isArray] checks.  The
    functions of the same names of [AdmissionController] are these on the
    requests whose members "flows" and "queues" are arrays when they are
    present (see [checkClientInfos_on_arrays]). *)
Module Json.

(** [checkFlowInfo]; the set [flowNames] is passed by reference. *)
Definition checkFlowInfo (s : State) (flowNames : gset string) (flowInfo : FlowJson)
  : AdmissionStatus * gset string :=
  match fj_name flowInfo with
  | None => (ADMISSION_ERR_MISSING_ARGUMENT, flowNames)
  | Some name =>
    if negb (getFlowIdByName s name =? InvalidFlowId)%Z
    then (ADMISSION_ERR_FLOW_NAME_IN_USE, flowNames)
    else if decide (name ∈ flowNames) then (ADMISSION_ERR_FLOW_NAME_IN_USE, flowNames)
    else
      let flowNames := flowNames ∪ {[name]} in
      match fj_queues flowInfo with
      | Missing => (ADMISSION_ERR_MISSING_ARGUMENT, flowNames)
      | NotArray => (ADMISSION_ERR_INVALID_ARGUMENT, flowNames)
      | Elements flowQueues =>
        if existsb (fun queueName => (getQueueIdByName s queueName =? InvalidQueueId)%Z)
                   flowQueues
        then (ADMISSION_ERR_QUEUE_NAME_NONEXISTENT, flowNames)
        else match fj_arrivalInfo flowInfo with
             | None => (ADMISSION_ERR_MISSING_ARGUMENT, flowNames)
             | Some _ => (ADMISSION_SUCCESS, flowNames)
             end
      end
  end.

(** The loop over the flows of a client: the first error ends it. *)
Fixpoint checkFlowInfos (s : State) (flowNames : gset string) (flowInfos : list FlowJson)
  : AdmissionStatus * gset string :=
  match flowInfos with
  | [] => (ADMISSION_SUCCESS, flowNames)
  | flowInfo :: flowInfos =>
    match checkFlowInfo s flowNames flowInfo with
    | (ADMISSION_SUCCESS, flowNames) => checkFlowInfos s flowNames flowInfos
    | failure => failure
    end
  end.

(** [checkClientInfo]. *)
Definition checkClientInfo (s : State) (clientNames flowNames : gset string)
    (clientInfo : ClientJson) : AdmissionStatus * gset string * gset string :=
  match cj_name clientInfo with
  | None => (ADMISSION_ERR_MISSING_ARGUMENT, clientNames, flowNames)
  | Some name =>
    if negb (getClientIdByName s name =? InvalidClientId)%Z
    then (ADMISSION_ERR_CLIENT_NAME_IN_USE, clientNames, flowNames)
    else if decide (name ∈ clientNames)
    then (ADMISSION_ERR_CLIENT_NAME_IN_USE, clientNames, flowNames)
    else
      let clientNames := clientNames ∪ {[name]} in
      match cj_SLO clientInfo with
      | None => (ADMISSION_ERR_MISSING_ARGUMENT, clientNames, flowNames)
      | Some SLO =>
        if (SLO <=? 0)%float
        then (ADMISSION_ERR_INVALID_ARGUMENT, clientNames, flowNames)
        else if match cj_SLOpercentile clientInfo with
                | Some SLOpercentile =>
                  negb ((0 <? SLOpercentile)%float && (SLOpercentile <? 100)%float)
                | None => false
                end
        then (ADMISSION_ERR_INVALID_ARGUMENT, clientNames, flowNames)
        else match cj_flows clientInfo with
             | Missing => (ADMISSION_ERR_MISSING_ARGUMENT, clientNames, flowNames)
             | NotArray => (ADMISSION_ERR_INVALID_ARGUMENT, clientNames, flowNames)
             | Elements clientFlows =>
               let '(status, flowNames) := checkFlowInfos s flowNames clientFlows in
               (status, clientNames, flowNames)
             end
      end
  end.

(** The loop of [checkClientInfos] over the clients. *)
Fixpoint checkClientInfosFrom (s : State) (clientNames flowNames : gset string)
    (infos : list ClientJson) : AdmissionStatus :=
  match infos with
  | [] => ADMISSION_SUCCESS
  | clientInfo :: infos =>
    match checkClientInfo s clientNames flowNames clientInfo with
    | (ADMISSION_SUCCESS, clientNames, flowNames) =>
      checkClientInfosFrom s clientNames flowNames infos
    | (failure, _, _) => failure
    end
  end.

(** [checkClientInfos]; [clientInfos] is [None] when the JSON value is not
    an array. *)
Definition checkClientInfos (s : State) (clientInfos : option (list ClientJson))
  : AdmissionStatus :=
  match clientInfos with
  | None => ADMISSION_ERR_INVALID_ARGUMENT
  | Some infos => checkClientInfosFrom s ∅ ∅ infos
  end.

End Json.

(** The JSON of the descriptors that the engine reads. *)
Definition flowJson (flowInfo : FlowInfo) : FlowJson :=
  {| fj_name := jf_name flowInfo;
     fj_queues := match jf_queues flowInfo with
                  | None => Missing
                  | Some flowQueues => Elements flowQueues
                  end;
     fj_arrivalInfo := jf_arrivalInfo flowInfo |}.
Definition clientJson (clientInfo : ClientInfo) : ClientJson :=
  {| cj_name := jc_name clientInfo;
     cj_SLO := jc_SLO clientInfo;
     cj_SLOpercentile := jc_SLOpercentile clientInfo;
     cj_flows := match jc_flows clientInfo with
                 | None => Missing
                 | Some clientFlows => Elements (flowJson <$> clientFlows)
                 end |}.

(** ** What a validated request is *)

(** The flows of the clients of a request, in order. *)
Definition requestFlows (infos : list ClientJson) : list FlowJson :=
  infos ≫= (fun clientInfo => match cj_flows clientInfo with
                              | Elements clientFlows => clientFlows
                              | _ => []
                              end).

(** The names the clients and the flows of a request give. *)
Definition clientNamesOf (infos : list ClientJson) : list string := omap cj_name infos.
Definition flowNamesOf (flowInfos : list FlowJson) : list string := omap fj_name flowInfos.

(** A flow with a name, arrival information and an array of queues that
    all exist. *)
Definition validFlow (s : State) (flowInfo : FlowJson) : Prop :=
  is_Some (fj_name flowInfo) /\ is_Some (fj_arrivalInfo flowInfo) /\
  exists flowQueues, fj_queues flowInfo = Elements flowQueues /\
    Forall (fun queueName => getQueueIdByName s queueName <> InvalidQueueId) flowQueues.

(** A client with a name, an array of flows, an SLO that is not at or
    below 0, and a percentile, when it gives one, strictly between 0 and
    100. *)
Definition validClient (clientInfo : ClientJson) : Prop :=
  is_Some (cj_name clientInfo) /\
  (exists clientFlows, cj_flows clientInfo = Elements clientFlows) /\
  (exists SLO, cj_SLO clientInfo = Some SLO /\ (SLO <=? 0)%float = false) /\
  (forall SLOpercentile, cj_SLOpercentile clientInfo = Some SLOpercentile ->
     (0 <? SLOpercentile)%float = true /\ (SLOpercentile <? 100)%float = true).

(** Names that are new: pairwise distinct, not among [seen], and not in
    use according to [inUse]. *)
Definition fresh (inUse : string -> Prop) (seen : gset string) (names : list string) : Prop :=
  NoDup names /\ Forall (fun name => (name ∉ seen) /\ ~ inUse name) names.

Lemma fresh_nil inUse seen : fresh inUse seen [].
Proof. split; constructor. Qed.

Lemma fresh_cons inUse seen name names :
  fresh inUse seen (name :: names) <->
  (name ∉ seen) /\ ~ inUse name /\ fresh inUse (seen ∪ {[name]}) names.
Proof.
  unfold fresh. rewrite NoDup_cons, Forall_cons. split.
  - intros [[Hnew Hnd] [[Hseen Huse] Hall]]. split; [exact Hseen|]. split; [exact Huse|].
    split; [exact Hnd|]. eapply Forall_forall. intros n Hn.
    rewrite Forall_forall in Hall. destruct (Hall n Hn) as [H1 H2].
    split; [|exact H2]. rewrite elem_of_union, elem_of_singleton.
    intros [H | ->]; [exact (H1 H) | exact (Hnew Hn)].
  - intros (Hseen & Huse & Hnd & Hall). rewrite Forall_forall in Hall.
    split; [split; [|exact Hnd] | split; [split; assumption|]].
    + intros Hn. destruct (Hall name Hn) as [H _]. apply H.
      apply elem_of_union_r, elem_of_singleton. reflexivity.
    + apply Forall_forall. intros n Hn. destruct (Hall n Hn) as [H1 H2].
      split; [|exact H2]. intros H. apply H1, elem_of_union_l, H.
Qed.

Lemma fresh_app inUse seen names1 names2 :
  fresh inUse seen (names1 ++ names2) <->
  fresh inUse seen names1 /\ fresh inUse (seen ∪ list_to_set names1) names2.
Proof.
  revert seen. induction names1 as [|name names1 IH]; intros seen; cbn [app list_to_set].
  - rewrite (right_id_L ∅ (∪)). split; [intros H; split; [apply fresh_nil | exact H] | tauto].
  - rewrite !fresh_cons, IH.
    replace (seen ∪ ({[name]} ∪ list_to_set names1))
      with (seen ∪ {[name]} ∪ list_to_set names1) by (rewrite (assoc_L (∪)); reflexivity).
    tauto.
Qed.

(** ** [checkFlowInfo] and [checkClientInfo] *)

(** On descriptors, whose members "flows" and "queues" are arrays when
    they are present, the validation of [AdmissionController] is the
    validation of the JSON request. *)
Lemma checkFlowInfo_on_arrays s flowNames flowInfo :
  Json.checkFlowInfo s flowNames (flowJson flowInfo) = checkFlowInfo s flowNames flowInfo.
Proof.
  unfold Json.checkFlowInfo, checkFlowInfo, flowJson. cbn.
  destruct (jf_name flowInfo); [|reflexivity].
  destruct (jf_queues flowInfo); reflexivity.
Qed.

Lemma checkFlowInfos_on_arrays s flowInfos : forall flowNames,
  Json.checkFlowInfos s flowNames (flowJson <$> flowInfos)
  = checkFlowInfos s flowNames flowInfos.
Proof.
  induction flowInfos as [|flowInfo flowInfos IH]; intros flowNames; [reflexivity|].
  cbn [fmap list_fmap Json.checkFlowInfos checkFlowInfos].
  rewrite checkFlowInfo_on_arrays.
  destruct (checkFlowInfo s flowNames flowInfo) as [[] flowNames']; try reflexivity.
  apply IH.
Qed.

Lemma checkClientInfo_on_arrays s clientNames flowNames clientInfo :
  Json.checkClientInfo s clientNames flowNames (clientJson clientInfo)
  = checkClientInfo s clientNames flowNames clientInfo.
Proof.
  unfold Json.checkClientInfo, checkClientInfo, clientJson. cbn.
  destruct (jc_name clientInfo); [|reflexivity].
  destruct (jc_flows clientInfo); [|reflexivity].
  rewrite checkFlowInfos_on_arrays. reflexivity.
Qed.

Lemma checkClientInfosFrom_on_arrays s infos : forall clientNames flowNames,
  Json.checkClientInfosFrom s clientNames flowNames (clientJson <$> infos)
  = checkClientInfosFrom s clientNames flowNames infos.
Proof.
  induction infos as [|clientInfo infos IH]; intros clientNames flowNames; [reflexivity|].
  cbn [fmap list_fmap Json.checkClientInfosFrom checkClientInfosFrom].
  rewrite checkClientInfo_on_arrays.
  destruct (checkClientInfo s clientNames flowNames clientInfo) as [[[] cn] fn];
    try reflexivity.
  apply IH.
Qed.

Lemma checkClientInfos_on_arrays s infos :
  Json.checkClientInfos s (Some (clientJson <$> infos)) = checkClientInfos s infos.
Proof. apply checkClientInfosFrom_on_arrays. Qed.

(** *** What the validation of the JSON request accepts *)

Import Json.


Definition flowInUse (s : State) (name : string) : Prop :=
  getFlowIdByName s name <> InvalidFlowId.
Definition clientInUse (s : State) (name : string) : Prop :=
  getClientIdByName s name <> InvalidClientId.

Lemma checkFlowInfo_accepts s flowNames flowInfo flowNames' :
  checkFlowInfo s flowNames flowInfo = (ADMISSION_SUCCESS, flowNames') <->
  validFlow s flowInfo /\
  fresh (flowInUse s) flowNames (flowNamesOf [flowInfo]) /\
  flowNames' = flowNames ∪ list_to_set (flowNamesOf [flowInfo]).
Proof.
  unfold checkFlowInfo, validFlow, flowNamesOf, flowInUse. cbn [omap list_omap].
  destruct (fj_name flowInfo) as [name|]; cbn [list_to_set];
    [|split; [discriminate | intros [[[x Hx] _] _]; discriminate]].
  rewrite fresh_cons, (right_id_L ∅ (∪)).
  destruct (Z.eqb_spec (getFlowIdByName s name) InvalidFlowId) as [Hfree|Hused]; cbn [negb];
    [|split; [discriminate | intros (_ & (_ & H & _) & _); tauto]].
  destruct (decide (name ∈ flowNames)) as [Hin|Hout];
    [split; [discriminate | intros (_ & (H & _) & _); tauto]|].
  destruct (fj_queues flowInfo) as [| |flowQueues];
    try (split; [discriminate | intros [(_ & _ & qs & H & _) _]; discriminate]).
  destruct (existsb _ flowQueues) eqn:Eq.
  { split; [discriminate|]. intros [(_ & _ & qs & [= <-] & Hqs) _]. exfalso.
    apply existsb_exists in Eq. destruct Eq as (q & Hq & Hinvalid).
    apply Z.eqb_eq in Hinvalid. rewrite Forall_forall in Hqs.
    apply (Hqs q); [apply list_elem_of_In, Hq | exact Hinvalid]. }
  destruct (fj_arrivalInfo flowInfo) as [arrivalInfo|];
    [|split; [discriminate | intros [(_ & [x Hx] & _) _]; discriminate]].
  split.
  - intros [= <-]. split; [|split; [|reflexivity]].
    + split; [eauto|]. split; [eauto|]. exists flowQueues. split; [reflexivity|].
      apply Forall_forall. intros q Hq Hinvalid.
      assert (Hex : existsb (fun queueName =>
                               (getQueueIdByName s queueName =? InvalidQueueId)%Z)
                            flowQueues = true); [|congruence].
      apply existsb_exists. exists q.
      split; [apply list_elem_of_In, Hq | apply Z.eqb_eq, Hinvalid].
    + split; [exact Hout|]. split; [tauto | apply fresh_nil].
  - intros (_ & _ & ->). reflexivity.
Qed.

Lemma flowNamesOf_cons flowInfo flowInfos :
  flowNamesOf (flowInfo :: flowInfos) = flowNamesOf [flowInfo] ++ flowNamesOf flowInfos.
Proof. unfold flowNamesOf. cbn. destruct (fj_name flowInfo); reflexivity. Qed.

Lemma checkFlowInfos_accepts s flowInfos : forall flowNames flowNames',
  checkFlowInfos s flowNames flowInfos = (ADMISSION_SUCCESS, flowNames') <->
  Forall (validFlow s) flowInfos /\
  fresh (flowInUse s) flowNames (flowNamesOf flowInfos) /\
  flowNames' = flowNames ∪ list_to_set (flowNamesOf flowInfos).
Proof.
  induction flowInfos as [|flowInfo flowInfos IH]; intros fn fn'; cbn [checkFlowInfos].
  - unfold flowNamesOf. cbn [omap list_omap list_to_set]. rewrite (right_id_L ∅ (∪)). split.
    + intros [= <-]. split; [constructor|]. split; [apply fresh_nil | reflexivity].
    + intros (_ & _ & ->). reflexivity.
  - rewrite flowNamesOf_cons, Forall_cons, fresh_app, list_to_set_app_L, (assoc_L (∪)).
    destruct (checkFlowInfo s fn flowInfo) as [st fn1] eqn:E.
    assert (Hone : st = ADMISSION_SUCCESS ->
              validFlow s flowInfo /\ fresh (flowInUse s) fn (flowNamesOf [flowInfo]) /\
              fn1 = fn ∪ list_to_set (flowNamesOf [flowInfo])).
    { intros ->. apply checkFlowInfo_accepts, E. }
    assert (Hrev : validFlow s flowInfo -> fresh (flowInUse s) fn (flowNamesOf [flowInfo]) ->
              st = ADMISSION_SUCCESS /\ fn1 = fn ∪ list_to_set (flowNamesOf [flowInfo])).
    { intros Hv Hf.
      pose proof (proj2 (checkFlowInfo_accepts s fn flowInfo _)
                    (conj Hv (conj Hf eq_refl))) as E'.
      rewrite E in E'. injection E' as -> ->. split; reflexivity. }
    destruct st;
      try (split; [discriminate | intros ([Hv _] & [Hf _] & _);
                                  destruct (Hrev Hv Hf) as [? _]; discriminate]).
    destruct (Hone eq_refl) as (Hv & Hf & ->). rewrite IH. tauto.
Qed.

Lemma clientNamesOf_cons clientInfo infos :
  clientNamesOf (clientInfo :: infos) = clientNamesOf [clientInfo] ++ clientNamesOf infos.
Proof. unfold clientNamesOf. cbn. destruct (cj_name clientInfo); reflexivity. Qed.

Lemma checkClientInfo_accepts s clientNames flowNames clientInfo clientNames' flowNames' :
  checkClientInfo s clientNames flowNames clientInfo
    = (ADMISSION_SUCCESS, clientNames', flowNames') <->
  validClient clientInfo /\
  Forall (validFlow s) (requestFlows [clientInfo]) /\
  fresh (clientInUse s) clientNames (clientNamesOf [clientInfo]) /\
  fresh (flowInUse s) flowNames (flowNamesOf (requestFlows [clientInfo])) /\
  clientNames' = clientNames ∪ list_to_set (clientNamesOf [clientInfo]) /\
  flowNames' = flowNames ∪ list_to_set (flowNamesOf (requestFlows [clientInfo])).
Proof.
  unfold checkClientInfo, validClient, clientNamesOf, clientInUse, requestFlows.
  cbn [omap list_omap mbind list_bind]. rewrite app_nil_r.
  destruct (cj_name clientInfo) as [name|]; cbn [list_to_set];
    [|split; [discriminate | intros [[[x Hx] _] _]; discriminate]].
  rewrite fresh_cons, (right_id_L ∅ (∪)).
  destruct (Z.eqb_spec (getClientIdByName s name) InvalidClientId) as [Hfree|Hused];
    cbn [negb]; [|split; [discriminate | intros (_ & _ & (_ & H & _) & _); tauto]].
  destruct (decide (name ∈ clientNames)) as [Hin|Hout];
    [split; [discriminate | intros (_ & _ & (H & _) & _); tauto]|].
  destruct (cj_SLO clientInfo) as [SLO|];
    [|split; [discriminate | intros [(_ & _ & (x & Hx & _) & _) _]; discriminate]].
  destruct (SLO <=? 0)%float eqn:ESLO;
    [split; [discriminate | intros [(_ & _ & (x & [= <-] & Hx) & _) _]; congruence]|].
  destruct (cj_SLOpercentile clientInfo) as [p|] eqn:Ep.
  - destruct (0 <? p)%float eqn:E0; cbn [andb negb];
      [|split; [discriminate | intros [(_ & _ & _ & H) _];
                               destruct (H p eq_refl); congruence]].
    destruct (p <? 100)%float eqn:E100; cbn [negb];
      [|split; [discriminate | intros [(_ & _ & _ & H) _];
                               destruct (H p eq_refl); congruence]].
    destruct (cj_flows clientInfo) as [| |clientFlows];
      try (split; [discriminate | intros [(_ & [x Hx] & _) _]; discriminate]).
    destruct (checkFlowInfos s flowNames clientFlows) as [st fn1] eqn:E.
    pose proof (checkFlowInfos_accepts s clientFlows flowNames fn1) as Hflows.
    rewrite E in Hflows. split.
    + intros [= -> <- <-]. destruct (proj1 Hflows eq_refl) as (Hv & Hf & Hfn).
      split; [split; [eauto|]; split; [eauto|]; split; [eauto|]|].
      * intros p' [= <-]. split; assumption.
      * split; [exact Hv|]. split; [|split; [exact Hf|]; split; [reflexivity | exact Hfn]].
        split; [exact Hout|]. split; [tauto | apply fresh_nil].
    + intros (_ & Hv & _ & Hf & -> & ->).
      assert (Hst : (st, fn1) = (ADMISSION_SUCCESS,
                                 flowNames ∪ list_to_set (flowNamesOf clientFlows))).
      { destruct st; try reflexivity.
        all: try (pose proof (proj2 (checkFlowInfos_accepts s clientFlows flowNames _)
                                (conj Hv (conj Hf eq_refl))) as E';
                  rewrite E in E'; exact E'). }
      injection Hst as -> ->. reflexivity.
  - destruct (cj_flows clientInfo) as [| |clientFlows];
      try (split; [discriminate | intros [(_ & [x Hx] & _) _]; discriminate]).
    destruct (checkFlowInfos s flowNames clientFlows) as [st fn1] eqn:E.
    pose proof (checkFlowInfos_accepts s clientFlows flowNames fn1) as Hflows.
    rewrite E in Hflows. split.
    + intros [= -> <- <-]. destruct (proj1 Hflows eq_refl) as (Hv & Hf & Hfn).
      split; [split; [eauto|]; split; [eauto|]; split; [eauto|]|].
      * intros p' [=].
      * split; [exact Hv|]. split; [|split; [exact Hf|]; split; [reflexivity | exact Hfn]].
        split; [exact Hout|]. split; [tauto | apply fresh_nil].
    + intros (_ & Hv & _ & Hf & -> & ->).
      assert (Hst : (st, fn1) = (ADMISSION_SUCCESS,
                                 flowNames ∪ list_to_set (flowNamesOf clientFlows))).
      { pose proof (proj2 (checkFlowInfos_accepts s clientFlows flowNames _)
                      (conj Hv (conj Hf eq_refl))) as E'.
        rewrite E in E'. exact E'. }
      injection Hst as -> ->. reflexivity.
Qed.

Lemma requestFlows_cons clientInfo infos :
  requestFlows (clientInfo :: infos) = requestFlows [clientInfo] ++ requestFlows infos.
Proof. unfold requestFlows. cbn [mbind list_bind]. rewrite app_nil_r. reflexivity. Qed.

Lemma flowNamesOf_app flowInfos1 flowInfos2 :
  flowNamesOf (flowInfos1 ++ flowInfos2) = flowNamesOf flowInfos1 ++ flowNamesOf flowInfos2.
Proof. apply omap_app. Qed.

Lemma checkClientInfosFrom_accepts s infos : forall clientNames flowNames,
  checkClientInfosFrom s clientNames flowNames infos = ADMISSION_SUCCESS <->
  Forall validClient infos /\
  Forall (validFlow s) (requestFlows infos) /\
  fresh (clientInUse s) clientNames (clientNamesOf infos) /\
  fresh (flowInUse s) flowNames (flowNamesOf (requestFlows infos)).
Proof.
  induction infos as [|clientInfo infos IH]; intros cn fn; cbn [checkClientInfosFrom].
  - split; [|reflexivity]. intros _.
    split; [constructor|]. split; [constructor|]. split; apply fresh_nil.
  - rewrite requestFlows_cons, flowNamesOf_app, clientNamesOf_cons.
    rewrite Forall_cons, Forall_app, !fresh_app.
    destruct (checkClientInfo s cn fn clientInfo) as [[st cn1] fn1] eqn:E.
    assert (Hrev : validClient clientInfo ->
              Forall (validFlow s) (requestFlows [clientInfo]) ->
              fresh (clientInUse s) cn (clientNamesOf [clientInfo]) ->
              fresh (flowInUse s) fn (flowNamesOf (requestFlows [clientInfo])) ->
              st = ADMISSION_SUCCESS).
    { intros H1 H2 H3 H4.
      pose proof (proj2 (checkClientInfo_accepts s cn fn clientInfo _ _)
                    (conj H1 (conj H2 (conj H3 (conj H4 (conj eq_refl eq_refl)))))) as E'.
      rewrite E in E'. injection E' as -> _ _. reflexivity. }
    destruct st;
      try (split; [discriminate | intros ([H1 _] & [H2 _] & [H3 _] & [H4 _]);
                                  specialize (Hrev H1 H2 H3 H4); discriminate]).
    apply checkClientInfo_accepts in E. destruct E as (H1 & H2 & H3 & H4 & -> & ->).
    rewrite IH. tauto.
Qed.

(** X13.  [checkClientInfos] accepts a request exactly when the request
    is an array; every client has a name, an array of flows, an SLO that is
    not at or below 0 and, if it gives a percentile, one strictly between 0
    and 100; every flow has a name, arrival information and an array of
    queues that all exist; the names of the clients are pairwise distinct
    and none is the name of a client of the system; and the names of the
    flows are pairwise distinct over the whole request and none is the name
    of a flow of the system. *)
Theorem checkClientInfos_accepts (s : State) (clientInfos : option (list ClientJson)) :
  Json.checkClientInfos s clientInfos = ADMISSION_SUCCESS <->
  exists infos,
    clientInfos = Some infos /\
    Forall validClient infos /\
    Forall (validFlow s) (requestFlows infos) /\
    NoDup (clientNamesOf infos) /\
    Forall (fun name => getClientIdByName s name = InvalidClientId) (clientNamesOf infos) /\
    NoDup (flowNamesOf (requestFlows infos)) /\
    Forall (fun name => getFlowIdByName s name = InvalidFlowId)
           (flowNamesOf (requestFlows infos)).
Proof.
  assert (Hfresh : forall (id : string -> Z) invalid names,
            fresh (fun name => id name <> invalid) ∅ names <->
            NoDup names /\ Forall (fun name => id name = invalid) names).
  { intros id invalid names. unfold fresh. rewrite !Forall_forall.
    split; intros [Hnd Hall]; (split; [exact Hnd|]); intros name Hname.
    - destruct (Hall name Hname) as [_ H]. destruct (decide (id name = invalid)); tauto.
    - split; [apply not_elem_of_empty|]. rewrite (Hall name Hname). tauto. }
  destruct clientInfos as [infos|]; cbn [Json.checkClientInfos].
  - rewrite checkClientInfosFrom_accepts. unfold clientInUse, flowInUse.
    rewrite !Hfresh. split.
    + intros H. exists infos. split; [reflexivity|]. tauto.
    + intros (infos' & [= <-] & H). tauto.
  - split; [discriminate|]. intros (infos & H & _). discriminate.
Qed.

(** A request that is not an array, a member "flows" and a member
    "queues" that are not arrays are invalid arguments; the members that
    are absent are missing arguments. *)
Example checkClientInfos_not_arrays :
  let flow queues := {| fj_name := Some "F"; fj_queues := queues;
                        fj_arrivalInfo := Some [] |} in
  let client flows := {| cj_name := Some "A"; cj_SLO := Some 1%float;
                         cj_SLOpercentile := None; cj_flows := flows |} in
  Json.checkClientInfos (nc svc0) None = ADMISSION_ERR_INVALID_ARGUMENT /\
  Json.checkClientInfos (nc svc0) (Some [client NotArray])
    = ADMISSION_ERR_INVALID_ARGUMENT /\
  Json.checkClientInfos (nc svc0) (Some [client (Elements [flow NotArray])])
    = ADMISSION_ERR_INVALID_ARGUMENT /\
  Json.checkClientInfos (nc svc0) (Some [client Missing])
    = ADMISSION_ERR_MISSING_ARGUMENT /\
  Json.checkClientInfos (nc svc0) (Some [client (Elements [flow Missing])])
    = ADMISSION_ERR_MISSING_ARGUMENT /\
  Json.checkClientInfos (nc svc0) (Some [client (Elements [flow (Elements ["Q"])])])
    = ADMISSION_SUCCESS.
Proof. cbv zeta. conjuncts; vm_compute; reflexivity. Qed.

(** ** [markAffectedFlows] *)

(** The marks [affectedFlows'] are the marks [affectedFlows] and marks of
    flows whose priority number is [priority] or more. *)
Definition marksFrom (s : State) (priority : Z) (affectedFlows affectedFlows' : gset (Z * nat))
  : Prop :=
  affectedFlows ⊆ affectedFlows' /\
  forall mark, mark ∈ affectedFlows' -> mark ∉ affectedFlows ->
    exists f, getFlow s mark.1 = Some f /\ (priority <= f_priority f)%Z.

Lemma marksFrom_refl s priority affectedFlows : marksFrom s priority affectedFlows affectedFlows.
Proof. split; [reflexivity|]. intros mark H1 H2. contradiction. Qed.

Lemma marksFrom_trans s priority priority' A B C :
  (priority <= priority')%Z ->
  marksFrom s priority A B -> marksFrom s priority' B C -> marksFrom s priority A C.
Proof.
  intros Hle [HAB HB] [HBC HC]. split; [etransitivity; eassumption|].
  intros mark Hin Hout. destruct (decide (mark ∈ B)) as [HinB|HoutB].
  - apply HB; assumption.
  - destruct (HC mark Hin HoutB) as (f & Hf & Hp). exists f. split; [exact Hf | lia].
Qed.

Lemma markAffectedFlows_marksFrom s fuel : forall affectedFlows fi priority affectedFlows',
  markAffectedFlows fuel s affectedFlows fi priority = Some affectedFlows' ->
  marksFrom s priority affectedFlows affectedFlows' /\
  (forall f, getFlow s (fi_flowId fi) = Some f -> (priority <= f_priority f)%Z ->
     (fi_flowId fi, fi_index fi) ∈ affectedFlows').
Proof.
  induction fuel as [|fuel IH]; intros A fi p A'; cbn [markAffectedFlows]; [discriminate|].
  destruct (getFlow s (fi_flowId fi)) as [f|] eqn:Ef; [|discriminate].
  cbn [mbind option_bind].
  destruct (Z.ltb_spec (f_priority f) p) as [Hlt|Hge].
  { intros [= <-]. split; [apply marksFrom_refl|]. intros f' [= <-] Hp. lia. }
  destruct (decide ((fi_flowId fi, fi_index fi) ∈ A)) as [Hin|Hout].
  { intros [= <-]. split; [apply marksFrom_refl|]. intros _ _ _. exact Hin. }
  set (A1 := A ∪ {[(fi_flowId fi, fi_index fi)]}). intros Hloop.
  assert (H1 : marksFrom s p A A1).
  { split; [apply union_subseteq_l|]. intros mark Hmark Hnew.
    apply elem_of_union in Hmark. destruct Hmark as [Hmark|Hmark]; [contradiction|].
    apply elem_of_singleton in Hmark. subst mark. exists f. split; [exact Ef | exact Hge]. }
  assert (H : marksFrom s p A A').
  { revert Hloop. apply (foldM_invariant (fun B => marksFrom s p A B)); [|exact H1].
    intros B queueId B' HB. destruct (getQueue s queueId) as [q|]; [|discriminate].
    cbn [mbind option_bind].
    apply (foldM_invariant (fun B => marksFrom s p A B)); [|exact HB].
    intros C itFi C' HC E. apply IH in E. destruct E as [E _].
    exact (marksFrom_trans _ _ _ _ _ _ Hge HC E). }
  split; [exact H|]. intros _ _ _.
  assert (Hsub : A1 ⊆ A').
  { revert Hloop. apply (foldM_invariant (fun B => A1 ⊆ B)); [|reflexivity].
    intros B queueId B' HB. destruct (getQueue s queueId) as [q|]; [|discriminate].
    cbn [mbind option_bind].
    apply (foldM_invariant (fun B => A1 ⊆ B)); [|exact HB].
    intros C itFi C' HC E. apply IH in E. destruct E as [[E _] _].
    etransitivity; eassumption. }
  apply Hsub, elem_of_union_r, elem_of_singleton. reflexivity.
Qed.

(** X14.  [markAffectedFlows] never takes a mark away and never marks a
    flow of higher priority: every mark it adds is on a flow whose
    priority number is [priority] or more.  It marks the flow it is called
    on when that flow's priority number is [priority] or more. *)
Theorem markAffectedFlows_spares_higher_priority (s : State) (fuel : nat)
    (affectedFlows : gset (Z * nat)) (fi : FlowIndex) (priority : Z)
    (affectedFlows' : gset (Z * nat)) :
  markAffectedFlows fuel s affectedFlows fi priority = Some affectedFlows' ->
  affectedFlows ⊆ affectedFlows' /\
  (forall flowId index f,
     (flowId, index) ∈ affectedFlows' -> (flowId, index) ∉ affectedFlows ->
     getFlow s flowId = Some f -> (priority <= f_priority f)%Z) /\
  (forall f, getFlow s (fi_flowId fi) = Some f -> (priority <= f_priority f)%Z ->
     (fi_flowId fi, fi_index fi) ∈ affectedFlows').
Proof.
  intros H. apply markAffectedFlows_marksFrom in H. destruct H as [[Hsub Hnew] Hfi].
  split; [exact Hsub|]. split; [|exact Hfi].
  intros flowId index f Hin Hout Hf. destruct (Hnew _ Hin Hout) as (f' & Hf' & Hp).
  cbn [fst] in Hf'. congruence.
Qed.

(** [markAffectedFlows_spares_higher_priority] on the topology of the unit
    test [DNCTestTwoHops], from the flow F4, of priority 3 (flow 5), at
    the threshold 3. *)
Definition twoHops : State := default (newState DNC_SIMPLE_ALGORITHM_AGGREGATE) DNC.DNCTestTwoHops.

Lemma markAffectedFlows_spares_higher_priority_witness :
  exists affectedFlows',
    markAffectedFlows (markFuel twoHops) twoHops ∅
      {| fi_flowId := 5; fi_index := 0 |} 3 = Some affectedFlows' /\
    (5%Z, 0%nat) ∈ affectedFlows' /\
    forall flowId index f,
      (flowId, index) ∈ affectedFlows' -> getFlow twoHops flowId = Some f ->
      (3 <= f_priority f)%Z.
Proof.
  assert (E : exists affectedFlows',
            markAffectedFlows (markFuel twoHops) twoHops ∅
              {| fi_flowId := 5; fi_index := 0 |} 3 = Some affectedFlows')
    by (vm_compute; eauto).
  destruct E as [affectedFlows' E]. exists affectedFlows'. split; [exact E|].
  destruct (markAffectedFlows_spares_higher_priority _ _ _ _ _ _ E) as (_ & Hnew & Hfi).
  assert (Hf : exists f, getFlow twoHops 5 = Some f /\ (3 <= f_priority f)%Z)
    by (vm_compute; eexists; split; [reflexivity | discriminate]).
  destruct Hf as (f & Hf & Hp).
  split; [exact (Hfi f Hf Hp)|].
  intros flowId index f' Hin. apply (Hnew flowId index f' Hin). apply not_elem_of_empty.
Defined.

End AdmissionChecks.

(* ===================================================================== *)
(** * The names of flows and queues ([src/DNC-Library/NCConfig.cpp]) *)
(* ===================================================================== *)

Module NCConfig.

(** The name for the flow into the server, out of the server and at the
    storage of the server, based on the client name. *)
Definition getFlowNetworkInName (clientName : string) : string :=
  ("F" +:+ clientName) +:+ "In".
Definition getFlowNetworkOutName (clientName : string) : string :=
  ("F" +:+ clientName) +:+ "Out".
Definition getFlowStorageName (clientName : string) : string :=
  ("F" +:+ clientName) +:+ "Storage".

(** The name for the queue into and out of a host machine. *)
Definition getQueueInName (host : string) : string := host +:+ "-in".
Definition getQueueOutName (host : string) : string := host +:+ "-out".

(** The name for a server, and the hostname of a VM. *)
Definition getServerName (host VM : string) : string := (host +:+ "vm") +:+ VM.
Definition getAddr (prefix host VM : string) : string :=
  (prefix +:+ "-") +:+ getServerName host VM.

(** ** Strings as lists of characters *)

Definition chars (s : string) : list Ascii.ascii := String.list_ascii_of_string s.

Lemma chars_app (s1 s2 : string) : chars (s1 +:+ s2) = chars s1 ++ chars s2.
Proof.
  unfold chars. induction s1 as [|a s1 IH]; [reflexivity|].
  simpl. f_equal. exact IH.
Qed.

Lemma chars_inj (s1 s2 : string) : chars s1 = chars s2 -> s1 = s2.
Proof.
  intros H. rewrite <- (String.string_of_list_ascii_of_string s1),
    <- (String.string_of_list_ascii_of_string s2). unfold chars in H. rewrite H. reflexivity.
Qed.

(** A prefix and a suffix around a string can be taken away. *)
Lemma wrap_inj (before after s1 s2 : string) :
  (before +:+ s1) +:+ after = (before +:+ s2) +:+ after -> s1 = s2.
Proof.
  intros H. apply (f_equal chars) in H. rewrite !chars_app in H.
  apply app_inv_tail, app_inv_head in H. apply chars_inj, H.
Qed.

(** Strings that end with different characters differ. *)
Lemma wrap_differ (s1 s2 after1 after2 : string) :
  last (chars after1) <> last (chars after2) ->
  chars after1 <> [] -> chars after2 <> [] ->
  s1 +:+ after1 <> s2 +:+ after2.
Proof.
  intros Hlast H1 H2 H. apply (f_equal chars) in H. rewrite !chars_app in H.
  apply (f_equal last) in H. rewrite !last_app in H.
  destruct (last (chars after1)) as [a1|] eqn:E1; [|apply last_None in E1; contradiction].
  destruct (last (chars after2)) as [a2|] eqn:E2; [|apply last_None in E2; contradiction].
  congruence.
Qed.

(** X15.  The names of flows never collide: each of the three names of a
    client determines the client name, and the three kinds of names are
    disjoint, as are the names of the queues into and out of hosts.
    Server names do collide: two different pairs of host and VM can give
    the same name. *)
Theorem flow_names_do_not_collide :
  (forall c1 c2, getFlowNetworkInName c1 = getFlowNetworkInName c2 -> c1 = c2) /\
  (forall c1 c2, getFlowNetworkOutName c1 = getFlowNetworkOutName c2 -> c1 = c2) /\
  (forall c1 c2, getFlowStorageName c1 = getFlowStorageName c2 -> c1 = c2) /\
  (forall c1 c2, getFlowNetworkInName c1 <> getFlowNetworkOutName c2) /\
  (forall c1 c2, getFlowNetworkInName c1 <> getFlowStorageName c2) /\
  (forall c1 c2, getFlowNetworkOutName c1 <> getFlowStorageName c2) /\
  (forall h1 h2, getQueueInName h1 = getQueueInName h2 -> h1 = h2) /\
  (forall h1 h2, getQueueOutName h1 = getQueueOutName h2 -> h1 = h2) /\
  (forall h1 h2, getQueueInName h1 <> getQueueOutName h2) /\
  (exists host1 VM1 host2 VM2,
     (host1, VM1) <> (host2, VM2) /\ getServerName host1 VM1 = getServerName host2 VM2).
Proof.
  unfold getFlowNetworkInName, getFlowNetworkOutName, getFlowStorageName,
    getQueueInName, getQueueOutName.
  split; [intros c1 c2; apply wrap_inj|].
  split; [intros c1 c2; apply wrap_inj|].
  split; [intros c1 c2; apply wrap_inj|].
  split; [intros c1 c2; apply wrap_differ; discriminate|].
  split; [intros c1 c2; apply wrap_differ; discriminate|].
  split; [intros c1 c2; apply wrap_differ; discriminate|].
  split; [intros h1 h2; apply (wrap_inj "" "-in")|].
  split; [intros h1 h2; apply (wrap_inj "" "-out")|].
  split; [intros h1 h2; apply wrap_differ; discriminate|].
  exists "a", "vmb", "avm", "b". split; [discriminate | reflexivity].
Qed.

End NCConfig.

(* ===================================================================== *)
(** * Placement ([src/PlacementController/PlacementController.cpp]) *)
(* ===================================================================== *)

Module PlacementController.
Import Containers.

Record WorkloadInfo := {
  name : string;
  clientHost : string;
  clientVM : string;
  serverHost : string;
  serverVM : string;
}.

(** The globals protected by [g_mutex]. *)
Record Globals := {
  g_servers : gmap string (gset string);          (* serverHost -> serverVMs *)
  g_clients : gmap string (gset string);          (* clientHost -> clientVMs *)
  g_serverClientGrouping : gmap string string;    (* serverHost -> clientHost *)
  g_workloads : list WorkloadInfo;
  g_workQueue : list (string * string);
  g_outstandingWork : Z;
  g_nextWorkQueueIndex : Z;
  g_bestWorkQueueIndex : Z;
}.

Definition set_g_clients (v : gmap string (gset string)) (g : Globals) : Globals :=
  {| g_servers := g_servers g; g_clients := v;
     g_serverClientGrouping := g_serverClientGrouping g; g_workloads := g_workloads g;
     g_workQueue := g_workQueue g; g_outstandingWork := g_outstandingWork g;
     g_nextWorkQueueIndex := g_nextWorkQueueIndex g;
     g_bestWorkQueueIndex := g_bestWorkQueueIndex g |}.
Definition set_g_outstandingWork (v : Z) (g : Globals) : Globals :=
  {| g_servers := g_servers g; g_clients := g_clients g;
     g_serverClientGrouping := g_serverClientGrouping g; g_workloads := g_workloads g;
     g_workQueue := g_workQueue g; g_outstandingWork := v;
     g_nextWorkQueueIndex := g_nextWorkQueueIndex g;
     g_bestWorkQueueIndex := g_bestWorkQueueIndex g |}.
Definition set_g_nextWorkQueueIndex (v : Z) (g : Globals) : Globals :=
  {| g_servers := g_servers g; g_clients := g_clients g;
     g_serverClientGrouping := g_serverClientGrouping g; g_workloads := g_workloads g;
     g_workQueue := g_workQueue g; g_outstandingWork := g_outstandingWork g;
     g_nextWorkQueueIndex := v;
     g_bestWorkQueueIndex := g_bestWorkQueueIndex g |}.
Definition set_g_bestWorkQueueIndex (v : Z) (g : Globals) : Globals :=
  {| g_servers := g_servers g; g_clients := g_clients g;
     g_serverClientGrouping := g_serverClientGrouping g; g_workloads := g_workloads g;
     g_workQueue := g_workQueue g; g_outstandingWork := g_outstandingWork g;
     g_nextWorkQueueIndex := g_nextWorkQueueIndex g;
     g_bestWorkQueueIndex := v |}.

(** ** [clientServerPlacement] *)

(** A [std::set<string>] and the keys of a [std::map<string, ...>] go in
    increasing order of the strings, characters compared by their codes. *)
Definition sortedStrings (X : gset string) : list string :=
  merge_sort String.le (elements X).

(** [*(clientVMs.begin())]: nothing is there in an empty set. *)
Definition begin (clientVMs : gset string) : option string := head (sortedStrings clientVMs).

(** [g_clients[clientHost]]: a host that has no entry gets an empty one. *)
Definition subscript (clients : gmap string (gset string)) (clientHost : string)
  : gset string * gmap string (gset string) :=
  match clients !! clientHost with
  | Some clientVMs => (clientVMs, clients)
  | None => (∅, <[clientHost := ∅]> clients)
  end.

(** What the first two lookups do with the host they find:
    [clientVMs = g_clients[clientHost]; if (!clientVMs.empty()) return
    pair(clientHost, *(clientVMs.begin()))].  The pair returned, if any,
    and [g_clients]. *)
Definition returnFirstVM (clients : gmap string (gset string)) (clientHost : string)
  : option (option (string * string) * gmap string (gset string)) :=
  let '(clientVMs, clients) := subscript clients clientHost in
  if decide (clientVMs = ∅) then Some (None, clients)
  else
    match begin clientVMs with
    | Some clientVM => Some (Some (clientHost, clientVM), clients)
    | None => None
    end.

(** The loop over the workloads: the pair returned, if any, the variable
    [clientHost] and [g_clients]. *)
Fixpoint scanWorkloads (server : string) (workloads : list WorkloadInfo)
    (host : string) (clients : gmap string (gset string))
  : option (option (string * string) * string * gmap string (gset string)) :=
  match workloads with
  | [] => Some (None, host, clients)
  | it2 :: workloads =>
    if decide (serverHost it2 = server) then
      match returnFirstVM clients (clientHost it2) with
      | Some (Some placed, clients) => Some (Some placed, clientHost it2, clients)
      | Some (None, clients) => scanWorkloads server workloads (clientHost it2) clients
      | None => None
      end
    else scanWorkloads server workloads host clients
  end.

(** The loop over [g_clients]: [maxAvailableClients] and [clientHost]. *)
Definition mostAvailable (clients : gmap string (gset string)) (host : string)
  : Z * string :=
  fold_left (fun (acc : Z * string) it3 =>
               match clients !! it3 with
               | Some clientVMs =>
                 if (Z.of_nat (size clientVMs) >? acc.1)%Z
                 then (Z.of_nat (size clientVMs), it3)
                 else acc
               | None => acc
               end)
            (sortedStrings (dom clients)) (0%Z, host).

(** How [clientServerPlacement] ends: with a pair of a client host and one
    of its VMs, or with [exit(-1)]. *)
Inductive Placement :=
| Placed (host VM : string)
| OutOfClientMachines.

(** [clientServerPlacement]; [None] for the first element of an empty
    set. *)
Definition clientServerPlacement (g : Globals) (server : string)
  : option (Placement * Globals) :=
  match
    match g_serverClientGrouping g !! server with
    | Some host =>
      match returnFirstVM (g_clients g) host with
      | Some (placed, clients) => Some (placed, host, clients)
      | None => None
      end
    | None => Some (None, EmptyString, g_clients g)
    end
  with
  | None => None
  | Some (Some (host, VM), _, clients) => Some (Placed host VM, set_g_clients clients g)
  | Some (None, host, clients) =>
    match scanWorkloads server (g_workloads g) host clients with
    | None => None
    | Some (Some (host, VM), _, clients) => Some (Placed host VM, set_g_clients clients g)
    | Some (None, host, clients) =>
      let '(maxAvailableClients, host) := mostAvailable clients host in
      if (maxAvailableClients <=? 0)%Z
      then Some (OutOfClientMachines, set_g_clients clients g)
      else
        let '(clientVMs, clients) := subscript clients host in
        match begin clientVMs with
        | Some VM => Some (Placed host VM, set_g_clients clients g)
        | None => None
        end
    end
  end.

(** ** The placement work queue *)

(** [unsigned int] arithmetic wraps. *)
Definition u32 (z : Z) : Z := z mod 2 ^ 32.

(** [nextWork]; [None] while the thread waits for [g_workAvailable]. *)
Definition nextWork (g : Globals) : option (Z * Globals) :=
  if (g_nextWorkQueueIndex g >=? Z.of_nat (length (g_workQueue g)))%Z then None
  else
    let workQueueIndex := g_nextWorkQueueIndex g in
    let g := set_g_nextWorkQueueIndex (u32 (g_nextWorkQueueIndex g + 1)) g in
    let g := set_g_outstandingWork (u32 (g_outstandingWork g + 1)) g in
    Some (workQueueIndex, g).

(** [workComplete]; the signal on [g_workComplete] changes no global. *)
Definition workComplete (g : Globals) (workQueueIndex : Z) (admitted : bool) : Globals :=
  let g := set_g_outstandingWork (u32 (g_outstandingWork g - 1)) g in
  if admitted then
    let g := set_g_nextWorkQueueIndex (u32 (Z.of_nat (length (g_workQueue g)))) g in
    if (workQueueIndex <? g_bestWorkQueueIndex g)%Z
    then set_g_bestWorkQueueIndex workQueueIndex g
    else g
  else g.

(** The worker threads and the globals.  A worker holds [g_mutex] from
    [workComplete] to the end of [nextWork] and tests the server at its
    index without it; [testing] has the index of every worker that is
    testing.  [verdicts] records what the tests that have ended answered. *)
Record System := {
  globals : Globals;
  testing : list Z;
  verdicts : gmap Z bool;
}.

(** What the workers do under [g_mutex] ([workerThread]): one of them
    leaves [nextWork] with an index, or one of them ends its test with a
    verdict and calls [workComplete]. *)
Inductive step : System -> System -> Prop :=
| step_nextWork sys workQueueIndex g :
    nextWork (globals sys) = Some (workQueueIndex, g) ->
    step sys {| globals := g; testing := workQueueIndex :: testing sys;
                verdicts := verdicts sys |}
| step_workComplete sys before workQueueIndex after admitted :
    testing sys = before ++ workQueueIndex :: after ->
    step sys {| globals := workComplete (globals sys) workQueueIndex admitted;
                testing := before ++ after;
                verdicts := <[workQueueIndex := admitted]> (verdicts sys) |}.

(** [placeClient] has filled the work queue: no work is given out, none is
    outstanding, and no server is the best one yet. *)
Definition started (sys : System) : Prop :=
  g_nextWorkQueueIndex (globals sys) = 0%Z /\
  g_outstandingWork (globals sys) = 0%Z /\
  g_bestWorkQueueIndex (globals sys) = Z.of_nat (length (g_workQueue (globals sys))) /\
  testing sys = [] /\ verdicts sys = ∅.

(** [placeClient] stops waiting: the condition of its loop,
    [(g_outstandingWork > 0) || (g_nextWorkQueueIndex < g_workQueue.size())],
    is false. *)
Definition complete (g : Globals) : Prop :=
  ~ (0 < g_outstandingWork g)%Z /\
  ~ (g_nextWorkQueueIndex g < Z.of_nat (length (g_workQueue g)))%Z.

(** ** Examples *)

(** Two client hosts, with two and three VMs available, and one workload
    of server s1 on host c1. *)
Definition twoHosts : Globals :=
  {| g_servers := ∅;
     g_clients := {[ "c1" := {[ "vm2"; "vm1" ]}; "c2" := {[ "vm3"; "vm1"; "vm2" ]} ]};
     g_serverClientGrouping := ∅;
     g_workloads := [ {| name := "w"; clientHost := "c1"; clientVM := "vm0";
                         serverHost := "s1"; serverVM := "vm1" |} ];
     g_workQueue := []; g_outstandingWork := 0; g_nextWorkQueueIndex := 0;
     g_bestWorkQueueIndex := 0 |}.

(** A workload on s1 goes to c1, where s1 has a workload; a workload on
    another server goes to c2, which has more VMs available. *)
Example twoHosts_placements :
  fst <$> clientServerPlacement twoHosts "s1" = Some (Placed "c1" "vm1") /\
  fst <$> clientServerPlacement twoHosts "s2" = Some (Placed "c2" "vm1").
Proof. split; vm_compute; reflexivity. Qed.

(** A work queue of two servers, and what it is after both are given out,
    the second one admits and then the first one refuses. *)
Definition twoServers : System :=
  {| globals :=
       {| g_servers := ∅; g_clients := ∅; g_serverClientGrouping := ∅; g_workloads := [];
          g_workQueue := [("s1", "vm1"); ("s2", "vm1")]; g_outstandingWork := 0;
          g_nextWorkQueueIndex := 0; g_bestWorkQueueIndex := 2 |};
     testing := []; verdicts := ∅ |}.
Definition twoServersTested : System :=
  {| globals :=
       {| g_servers := ∅; g_clients := ∅; g_serverClientGrouping := ∅; g_workloads := [];
          g_workQueue := [("s1", "vm1"); ("s2", "vm1")]; g_outstandingWork := 0;
          g_nextWorkQueueIndex := 2; g_bestWorkQueueIndex := 1 |};
     testing := []; verdicts := <[0%Z := false]> (<[1%Z := true]> ∅) |}.

(** ** Properties of [clientServerPlacement] *)

(** The VMs of a client host that are available: none for a host without
    an entry. *)
Definition available (clients : gmap string (gset string)) (host : string) : gset string :=
  default ∅ (clients !! host).

(** [VM] is the first of the available VMs of [host]. *)
Definition firstAvailable (clients : gmap string (gset string)) (host VM : string) : Prop :=
  VM ∈ available clients host /\
  forall VM', VM' ∈ available clients host -> String.le VM VM'.

Lemma sortedStrings_spec (X : gset string) x : x ∈ sortedStrings X <-> x ∈ X.
Proof. unfold sortedStrings. rewrite merge_sort_Permutation. apply elem_of_elements. Qed.

Lemma begin_spec (X : gset string) :
  X <> ∅ ->
  exists x, begin X = Some x /\ x ∈ X /\ forall x', x' ∈ X -> String.le x x'.
Proof.
  intros HX. unfold begin.
  pose proof (sortedStrings_spec X) as Hin.
  assert (Hsorted : StronglySorted String.le (sortedStrings X))
    by apply (StronglySorted_merge_sort _).
  destruct (sortedStrings X) as [|x l].
  - exfalso. apply HX. apply set_eq. intros x. rewrite <- Hin.
    split; intros H; [inversion H | exfalso; exact (not_elem_of_empty _ H)].
  - exists x. split; [reflexivity|]. split; [apply Hin; left|].
    intros x' Hx'. apply Hin in Hx'. apply StronglySorted_inv in Hsorted.
    destruct Hsorted as [_ Hall]. apply elem_of_cons in Hx'. destruct Hx' as [-> | Hx'].
    + reflexivity.
    + rewrite Forall_forall in Hall. apply Hall, Hx'.
Qed.

Lemma subscript_spec clients host :
  (subscript clients host).1 = available clients host /\
  forall host', available (subscript clients host).2 host' = available clients host'.
Proof.
  unfold subscript, available. destruct (clients !! host) as [clientVMs|] eqn:E; cbn [fst snd].
  - split; reflexivity.
  - split; [reflexivity|]. intros host'. destruct (decide (host' = host)) as [->|Hne].
    + rewrite lookup_insert_eq, E. reflexivity.
    + rewrite lookup_insert_ne by congruence. reflexivity.
Qed.

Lemma returnFirstVM_spec clients host :
  exists result clients',
    returnFirstVM clients host = Some (result, clients') /\
    (forall host', available clients' host' = available clients host') /\
    (available clients host = ∅ -> result = None) /\
    (available clients host <> ∅ ->
     exists VM, result = Some (host, VM) /\ firstAvailable clients host VM).
Proof.
  unfold returnFirstVM. destruct (subscript_spec clients host) as [Hvms Hsame].
  destruct (subscript clients host) as [clientVMs clients']. cbn [fst snd] in *. subst clientVMs.
  destruct (decide (available clients host = ∅)) as [Hempty|Hsome].
  - exists None, clients'. split; [reflexivity|]. split; [exact Hsame|].
    split; [reflexivity | contradiction].
  - destruct (begin_spec _ Hsome) as (VM & HVM & Hin & Hleast). rewrite HVM.
    exists (Some (host, VM)), clients'. split; [reflexivity|]. split; [exact Hsame|].
    split; [contradiction|]. intros _. exists VM. split; [reflexivity|]. split; assumption.
Qed.

Lemma firstAvailable_same clients clients' host VM :
  (forall host', available clients' host' = available clients host') ->
  firstAvailable clients' host VM -> firstAvailable clients host VM.
Proof. unfold firstAvailable. intros H. rewrite H. tauto. Qed.

Lemma scanWorkloads_spec server workloads : forall host clients,
  exists result host' clients',
    scanWorkloads server workloads host clients = Some (result, host', clients') /\
    (forall host', available clients' host' = available clients host') /\
    (forall placedHost VM, result = Some (placedHost, VM) ->
       firstAvailable clients placedHost VM) /\
    (Forall (fun it2 => serverHost it2 <> server) workloads -> result = None).
Proof.
  induction workloads as [|it2 workloads IH]; intros host clients; cbn [scanWorkloads].
  - exists None, host, clients. split; [reflexivity|]. split; [reflexivity|].
    split; [discriminate | reflexivity].
  - destruct (decide (serverHost it2 = server)) as [Hserver|Hother].
    + destruct (returnFirstVM_spec clients (clientHost it2))
        as (result & clients1 & E & Hsame & Hnone & Hsome).
      rewrite E. destruct result as [placed|].
      * exists (Some placed), (clientHost it2), clients1. split; [reflexivity|].
        split; [exact Hsame|]. split.
        -- intros placedHost VM [= ->].
           destruct (decide (available clients (clientHost it2) = ∅)) as [H|H];
             [specialize (Hnone H); discriminate|].
           destruct (Hsome H) as (VM' & [= <- <-] & Hfirst). exact Hfirst.
        -- intros H. apply Forall_cons in H. tauto.
      * destruct (IH (clientHost it2) clients1)
          as (result & host' & clients' & E' & Hsame' & Hplaced & Hnot).
        exists result, host', clients'. split; [exact E'|].
        split; [intros h; rewrite Hsame'; apply Hsame|]. split.
        -- intros placedHost VM Hr. eapply firstAvailable_same; [exact Hsame|].
           apply Hplaced, Hr.
        -- intros H. apply Forall_cons in H. tauto.
    + destruct (IH host clients) as (result & host' & clients' & E' & Hsame' & Hplaced & Hnot).
      exists result, host', clients'. split; [exact E'|]. split; [exact Hsame'|].
      split; [exact Hplaced|]. intros H. apply Forall_cons in H. apply Hnot. tauto.
Qed.

(** What holds of [maxAvailableClients] and [clientHost] after the hosts
    [visited]. *)
Definition mostOf (clients : gmap string (gset string)) (visited : list string)
    (acc : Z * string) : Prop :=
  (0 <= acc.1)%Z /\
  (forall host, host ∈ visited -> (Z.of_nat (size (available clients host)) <= acc.1)%Z) /\
  ((0 < acc.1)%Z -> acc.1 = Z.of_nat (size (available clients acc.2))).

Lemma mostAvailable_fold clients keys : forall visited acc,
  mostOf clients visited acc ->
  mostOf clients (visited ++ keys)
    (fold_left (fun (acc : Z * string) it3 =>
                  match clients !! it3 with
                  | Some clientVMs =>
                    if (Z.of_nat (size clientVMs) >? acc.1)%Z
                    then (Z.of_nat (size clientVMs), it3)
                    else acc
                  | None => acc
                  end) keys acc).
Proof.
  induction keys as [|it3 keys IH]; intros visited acc H; cbn [fold_left].
  - rewrite app_nil_r. exact H.
  - replace (visited ++ it3 :: keys) with ((visited ++ [it3]) ++ keys)
      by (rewrite <- app_assoc; reflexivity).
    apply IH. destruct H as (H0 & Hall & Hmax).
    assert (Hit3 : available clients it3 = default ∅ (clients !! it3)) by reflexivity.
    destruct (clients !! it3) as [clientVMs|]; cbn [default] in Hit3; unfold id in Hit3.
    + rewrite Z.gtb_ltb. destruct (Z.ltb_spec acc.1 (Z.of_nat (size clientVMs))) as [Hlt|Hge].
      * split; [cbn [fst]; lia|]. split; [|cbn [fst snd]; rewrite Hit3; reflexivity].
        intros host Hhost. cbn [fst]. apply elem_of_app in Hhost.
        destruct Hhost as [Hhost|Hhost]; [specialize (Hall host Hhost); lia|].
        apply list_elem_of_singleton in Hhost. subst host. rewrite Hit3. lia.
      * split; [exact H0|]. split; [|exact Hmax].
        intros host Hhost. apply elem_of_app in Hhost.
        destruct Hhost as [Hhost|Hhost]; [exact (Hall host Hhost)|].
        apply list_elem_of_singleton in Hhost. subst host. rewrite Hit3. exact Hge.
    + split; [exact H0|]. split; [|exact Hmax].
      intros host Hhost. apply elem_of_app in Hhost.
      destruct Hhost as [Hhost|Hhost]; [exact (Hall host Hhost)|].
      apply list_elem_of_singleton in Hhost. subst host. rewrite Hit3, size_empty. exact H0.
Qed.

(** The last loop finds a host with the most available VMs. *)
Lemma mostAvailable_spec clients host :
  (0 <= (mostAvailable clients host).1)%Z /\
  (forall host', (Z.of_nat (size (available clients host'))
                  <= (mostAvailable clients host).1)%Z) /\
  ((0 < (mostAvailable clients host).1)%Z ->
   (mostAvailable clients host).1
   = Z.of_nat (size (available clients (mostAvailable clients host).2))).
Proof.
  unfold mostAvailable.
  destruct (mostAvailable_fold clients (sortedStrings (dom clients)) [] (0%Z, host))
    as (H0 & Hall & Hmax).
  { split; [reflexivity|]. split; [intros h Hh; inversion Hh | cbn [fst]; lia]. }
  cbn [app] in Hall. split; [exact H0|]. split; [|exact Hmax].
  intros host'. destruct (clients !! host') as [clientVMs|] eqn:E.
  - apply Hall, sortedStrings_spec, elem_of_dom. eauto.
  - unfold available at 1. rewrite E. cbn [default]. rewrite size_empty. exact H0.
Qed.

(** X17.  [clientServerPlacement] returns, and changes nothing but
    [g_clients], where the VMs available at every host stay the same.  It
    places the workload on the first of the available VMs of a client
    host, or ends the program, which it does exactly when no client host
    has a VM available.  A server that is grouped with a client host gets
    that host when it has a VM available; a server that is not grouped
    and has no workload gets a host with the most VMs available. *)
Theorem clientServerPlacement_places_available (g : Globals) (server : string) :
  exists placement g',
    clientServerPlacement g server = Some (placement, g') /\
    g' = set_g_clients (g_clients g') g /\
    (forall host, available (g_clients g') host = available (g_clients g) host) /\
    match placement with
    | Placed host VM => firstAvailable (g_clients g) host VM
    | OutOfClientMachines => forall host, available (g_clients g) host = ∅
    end /\
    (forall host, g_serverClientGrouping g !! server = Some host ->
       available (g_clients g) host <> ∅ -> exists VM, placement = Placed host VM) /\
    (g_serverClientGrouping g !! server = None ->
     Forall (fun it2 => serverHost it2 <> server) (g_workloads g) ->
     forall host VM, placement = Placed host VM ->
       forall host', (size (available (g_clients g) host')
                      <= size (available (g_clients g) host))%nat).
Proof.
  unfold clientServerPlacement.
  (* the lookup in [g_serverClientGrouping] *)
  assert (Hfirst : exists result host clients,
            match g_serverClientGrouping g !! server with
            | Some host =>
              match returnFirstVM (g_clients g) host with
              | Some (placed, clients) => Some (placed, host, clients)
              | None => None
              end
            | None => Some (None, EmptyString, g_clients g)
            end = Some (result, host, clients) /\
            (forall host', available clients host' = available (g_clients g) host') /\
            (forall placedHost VM, result = Some (placedHost, VM) ->
               firstAvailable (g_clients g) placedHost VM /\
               g_serverClientGrouping g !! server = Some placedHost) /\
            (forall grouped, g_serverClientGrouping g !! server = Some grouped ->
               available (g_clients g) grouped <> ∅ -> exists VM, result = Some (grouped, VM))).
  { destruct (g_serverClientGrouping g !! server) as [host|].
    - destruct (returnFirstVM_spec (g_clients g) host)
        as (result & clients & E & Hsame & Hnone & Hsome).
      rewrite E. exists result, host, clients. split; [reflexivity|]. split; [exact Hsame|].
      split.
      + intros placedHost VM ->.
        destruct (decide (available (g_clients g) host = ∅)) as [H|H];
          [specialize (Hnone H); discriminate|].
        destruct (Hsome H) as (VM' & [= <- <-] & Hfirst). split; [exact Hfirst | reflexivity].
      + intros grouped [= <-] H. destruct (Hsome H) as (VM & -> & _). eauto.
    - exists None, EmptyString, (g_clients g). split; [reflexivity|]. split; [reflexivity|].
      split; [discriminate | discriminate]. }
  destruct Hfirst as (result & host & clients & -> & Hsame & Hplaced & Hgrouped).
  destruct result as [[placedHost VM]|].
  { destruct (Hplaced placedHost VM eq_refl) as [Hfirst Hgroup].
    exists (Placed placedHost VM), (set_g_clients clients g).
    split; [reflexivity|]. split; [reflexivity|]. split; [exact Hsame|].
    split; [exact Hfirst|]. split.
    - intros grouped Hg Hsome. destruct (Hgrouped grouped Hg Hsome) as (VM' & [= <- <-]). eauto.
    - intros Hnone. congruence. }
  (* the loop over the workloads *)
  destruct (scanWorkloads_spec server (g_workloads g) host clients)
    as (result & host2 & clients2 & -> & Hsame2 & Hplaced2 & Hnot).
  assert (Hsame' : forall host', available clients2 host' = available (g_clients g) host')
    by (intros h; rewrite Hsame2; apply Hsame).
  assert (Hnogroup : forall grouped, g_serverClientGrouping g !! server = Some grouped ->
                       available (g_clients g) grouped <> ∅ -> False).
  { intros grouped Hg Hsome. destruct (Hgrouped grouped Hg Hsome) as (VM & [=]). }
  destruct result as [[placedHost VM]|].
  { exists (Placed placedHost VM), (set_g_clients clients2 g).
    split; [reflexivity|]. split; [reflexivity|]. split; [exact Hsame'|].
    split; [eapply firstAvailable_same; [exact Hsame | apply Hplaced2; reflexivity]|].
    split.
    - intros grouped Hg Hsome. destruct (Hnogroup grouped Hg Hsome).
    - intros _ Hall. specialize (Hnot Hall). discriminate. }
  (* the loop over the client hosts *)
  destruct (mostAvailable_spec clients2 host2) as (H0 & Hall & Hmax).
  destruct (mostAvailable clients2 host2) as [maxAvailableClients best]. cbn [fst snd] in *.
  destruct (Z.leb_spec maxAvailableClients 0) as [Hle|Hgt].
  { exists OutOfClientMachines, (set_g_clients clients2 g).
    split; [reflexivity|]. split; [reflexivity|]. split; [exact Hsame'|].
    split; [|split].
    - intros h. rewrite <- Hsame'. specialize (Hall h).
      apply leibniz_equiv, size_empty_inv. lia.
    - intros grouped Hg Hsome. destruct (Hnogroup grouped Hg Hsome).
    - intros _ _ h VM [=]. }
  specialize (Hmax Hgt).
  destruct (subscript_spec clients2 best) as [Hvms Hsame3].
  destruct (subscript clients2 best) as [clientVMs clients3]. cbn [fst snd] in *.
  subst clientVMs.
  assert (Hsome : available clients2 best <> ∅).
  { intros H. rewrite H, size_empty in Hmax. lia. }
  destruct (begin_spec _ Hsome) as (VM & -> & Hin & Hleast).
  exists (Placed best VM), (set_g_clients clients3 g).
  split; [reflexivity|]. split; [reflexivity|].
  split; [intros h; cbn [g_clients set_g_clients]; rewrite Hsame3; apply Hsame'|].
  split; [|split].
  - unfold firstAvailable. rewrite <- Hsame'. split; assumption.
  - intros grouped Hg Hs. destruct (Hnogroup grouped Hg Hs).
  - intros _ _ h VM' [= <- <-] host'. rewrite <- !Hsame'. specialize (Hall host'). lia.
Qed.

(** ** The work queue gives the first fit *)

(** What the runs of the workers keep.  [issued] is the number of indices
    that have been given out: [g_nextWorkQueueIndex], unless an admitted
    test has cancelled the rest of the queue. *)
Definition placing (queue : list (string * string)) (sys : System) : Prop :=
  exists issued : Z,
    let g := globals sys in
    let size := Z.of_nat (length queue) in
    g_workQueue g = queue /\
    (0 <= issued <= size)%Z /\
    (g_nextWorkQueueIndex g = issued \/
     (g_nextWorkQueueIndex g = size /\ (g_bestWorkQueueIndex g < issued)%Z)) /\
    g_outstandingWork g = Z.of_nat (length (testing sys)) /\
    (Z.of_nat (length (testing sys)) <= issued)%Z /\
    NoDup (testing sys) /\
    (forall i, i ∈ testing sys -> (0 <= i < issued)%Z /\ verdicts sys !! i = None) /\
    (forall i, (0 <= i < issued)%Z -> i ∈ testing sys \/ is_Some (verdicts sys !! i)) /\
    (forall i, is_Some (verdicts sys !! i) -> (0 <= i < issued)%Z) /\
    (0 <= g_bestWorkQueueIndex g <= size)%Z /\
    ((g_bestWorkQueueIndex g < size)%Z ->
     verdicts sys !! g_bestWorkQueueIndex g = Some true) /\
    (forall i, verdicts sys !! i = Some true -> (g_bestWorkQueueIndex g <= i)%Z).

Lemma started_placing sys : started sys -> placing (g_workQueue (globals sys)) sys.
Proof.
  intros (Hnext & Hout & Hbest & Htesting & Hverdicts). exists 0%Z. cbv zeta.
  rewrite Hnext, Hout, Hbest, Htesting, Hverdicts. cbn [length].
  split; [reflexivity|]. split; [lia|]. split; [left; reflexivity|].
  split; [reflexivity|]. split; [reflexivity|]. split; [constructor|].
  split; [intros i Hi; inversion Hi|]. split; [intros i Hi; lia|].
  split; [intros i [v Hv]; rewrite lookup_empty in Hv; discriminate|].
  split; [lia|]. split; [lia|]. intros i Hi. rewrite lookup_empty in Hi. discriminate.
Qed.

Lemma u32_small z : (0 <= z < 2 ^ 32)%Z -> u32 z = z.
Proof. apply Z.mod_small. Qed.

(** The indices under test without one of them. *)
Lemma testing_without (l before after : list Z) (index : Z) :
  l = before ++ index :: after -> NoDup l ->
  NoDup (before ++ after) /\ (index ∉ before ++ after) /\
  (forall i, i ∈ l <-> i = index \/ i ∈ before ++ after) /\
  Z.of_nat (length l) = (Z.of_nat (length (before ++ after)) + 1)%Z.
Proof.
  intros -> Hnd. apply NoDup_app in Hnd. destruct Hnd as (Hb & Hdisj & Ha).
  apply NoDup_cons in Ha. destruct Ha as [Hnotin Ha].
  split; [|split; [|split]].
  - apply NoDup_app. split; [exact Hb|]. split; [|exact Ha].
    intros i Hi Hi'. apply (Hdisj i Hi). right. exact Hi'.
  - intros H. apply elem_of_app in H. destruct H as [H|H]; [|exact (Hnotin H)].
    apply (Hdisj index H). left.
  - intros i. rewrite !elem_of_app, elem_of_cons. tauto.
  - rewrite !length_app. cbn [length]. lia.
Qed.

Lemma step_placing queue sys sys' :
  (Z.of_nat (length queue) < 2 ^ 32)%Z ->
  placing queue sys -> step sys sys' -> placing queue sys'.
Proof.
  intros Hsize (issued & Hqueue & Hissued & Hnext & Hout & Hlen & Hnd & Htesting & Hdone
                & Hverdicts & Hbest & Hbest_true & Hleast) Hstep.
  cbv zeta in *. destruct Hstep as [sys index g Hwork | sys before index after admitted Hsplit].
  - (* a worker leaves [nextWork] with the index [issued] *)
    unfold nextWork in Hwork. rewrite Hqueue in Hwork.
    destruct (Z.geb_spec (g_nextWorkQueueIndex (globals sys)) (Z.of_nat (length queue)))
      as [Hge|Hlt]; [discriminate|].
    injection Hwork as <- <-.
    destruct Hnext as [Hnext | [Hnext _]]; [|lia].
    assert (Hfresh : verdicts sys !! issued = None).
    { destruct (verdicts sys !! issued) as [v|] eqn:E; [|reflexivity].
      assert (0 <= issued < issued)%Z by (apply Hverdicts; rewrite E; eauto). lia. }
    exists (issued + 1)%Z. cbn [globals testing verdicts g_workQueue g_nextWorkQueueIndex
      g_outstandingWork g_bestWorkQueueIndex set_g_nextWorkQueueIndex set_g_outstandingWork
      length].
    rewrite Hnext, Hout. rewrite !u32_small by lia.
    split; [exact Hqueue|]. split; [lia|]. split; [left; reflexivity|].
    split; [lia|]. split; [lia|].
    split; [apply NoDup_cons; split; [|exact Hnd]; intros H; apply Htesting in H; lia|].
    split; [|split; [|split; [|split; [|split]]]].
    + intros i Hi. apply elem_of_cons in Hi. destruct Hi as [-> | Hi].
      * split; [lia | exact Hfresh].
      * destruct (Htesting i Hi). split; [lia | assumption].
    + intros i Hi. destruct (decide (i = issued)) as [-> | Hne]; [left; left|].
      destruct (Hdone i) as [H|H]; [lia | left; right; exact H | right; exact H].
    + intros i Hi. specialize (Hverdicts i Hi). lia.
    + exact Hbest.
    + exact Hbest_true.
    + exact Hleast.
  - (* a worker ends the test of [index] and calls [workComplete] *)
    destruct (testing_without _ _ _ _ Hsplit Hnd) as (Hnd' & Hout' & Hin & Hlen').
    assert (Hindex : (0 <= index < issued)%Z /\ verdicts sys !! index = None)
      by (apply Htesting, Hin; left; reflexivity).
    destruct Hindex as [Hindex Hnone].
    assert (Hrest : forall i, i ∈ before ++ after -> i <> index /\ i ∈ testing sys).
    { intros i Hi. split; [intros ->; exact (Hout' Hi) | apply Hin; right; exact Hi]. }
    exists issued. unfold workComplete.
    cbn [globals testing verdicts].
    assert (Hcommon :
      NoDup (before ++ after) /\
      (forall i, i ∈ before ++ after ->
         (0 <= i < issued)%Z /\ <[index := admitted]> (verdicts sys) !! i = None) /\
      (forall i, (0 <= i < issued)%Z ->
         i ∈ before ++ after \/ is_Some (<[index := admitted]> (verdicts sys) !! i)) /\
      (forall i, is_Some (<[index := admitted]> (verdicts sys) !! i) ->
         (0 <= i < issued)%Z)).
    { split; [exact Hnd'|]. split; [|split].
      - intros i Hi. destruct (Hrest i Hi) as [Hne Hi'].
        rewrite lookup_insert_ne by congruence. apply Htesting, Hi'.
      - intros i Hi. destruct (decide (i = index)) as [-> | Hne].
        + right. rewrite lookup_insert_eq. eauto.
        + rewrite lookup_insert_ne by congruence.
          destruct (Hdone i Hi) as [H|H]; [|right; exact H].
          apply Hin in H. destruct H as [H|H]; [contradiction | left; exact H].
      - intros i Hi. destruct (decide (i = index)) as [-> | Hne]; [exact Hindex|].
        rewrite lookup_insert_ne in Hi by congruence. apply Hverdicts, Hi. }
    destruct Hcommon as (H1 & H2 & H3 & H4).
    assert (Hu : u32 (g_outstandingWork (globals sys) - 1)
                 = Z.of_nat (length (before ++ after))).
    { rewrite Hout, Hlen'. rewrite u32_small by lia. lia. }
    destruct admitted.
    + (* admitted: the rest of the queue is cancelled *)
      cbn [g_workQueue g_bestWorkQueueIndex set_g_outstandingWork set_g_nextWorkQueueIndex].
      rewrite Hqueue, (u32_small (Z.of_nat (length queue))) by lia.
      destruct (Z.ltb_spec index (g_bestWorkQueueIndex (globals sys))) as [Hlt|Hge];
        cbn [g_workQueue g_nextWorkQueueIndex g_outstandingWork g_bestWorkQueueIndex
             set_g_outstandingWork set_g_nextWorkQueueIndex set_g_bestWorkQueueIndex].
      * split; [exact Hqueue|]. split; [exact Hissued|]. split; [right; split; [reflexivity | lia]|].
        split; [exact Hu|]. split; [lia|]. split; [exact H1|]. split; [exact H2|].
        split; [exact H3|]. split; [exact H4|]. split; [lia|].
        split; [intros _; apply lookup_insert_eq|].
        intros i Hi. destruct (decide (i = index)) as [-> | Hne]; [lia|].
        rewrite lookup_insert_ne in Hi by congruence. specialize (Hleast i Hi). lia.
      * split; [exact Hqueue|]. split; [exact Hissued|]. split; [right; split; [reflexivity | lia]|].
        split; [exact Hu|]. split; [lia|]. split; [exact H1|]. split; [exact H2|].
        split; [exact H3|]. split; [exact H4|]. split; [exact Hbest|].
        split.
        -- intros Hb. destruct (decide (g_bestWorkQueueIndex (globals sys) = index)) as [-> | Hne].
           ++ apply lookup_insert_eq.
           ++ rewrite lookup_insert_ne by congruence. apply Hbest_true, Hb.
        -- intros i Hi. destruct (decide (i = index)) as [-> | Hne]; [lia|].
           rewrite lookup_insert_ne in Hi by congruence. exact (Hleast i Hi).
    + (* not admitted *)
      cbn [g_workQueue g_nextWorkQueueIndex g_outstandingWork g_bestWorkQueueIndex
           set_g_outstandingWork].
      split; [exact Hqueue|]. split; [exact Hissued|]. split; [exact Hnext|].
      split; [exact Hu|]. split; [lia|]. split; [exact H1|]. split; [exact H2|].
      split; [exact H3|]. split; [exact H4|]. split; [exact Hbest|].
      split.
      * intros Hb. specialize (Hbest_true Hb).
        rewrite lookup_insert_ne by congruence. exact Hbest_true.
      * intros i Hi. destruct (decide (i = index)) as [-> | Hne].
        -- rewrite lookup_insert_eq in Hi. discriminate.
        -- rewrite lookup_insert_ne in Hi by congruence. exact (Hleast i Hi).
Qed.

Lemma run_placing queue sys sys' :
  (Z.of_nat (length queue) < 2 ^ 32)%Z ->
  placing queue sys -> rtc step sys sys' -> placing queue sys'.
Proof.
  intros Hsize H Hrun. induction Hrun as [sys | sys sys1 sys' Hstep _ IH]; [exact H|].
  apply IH. exact (step_placing queue sys sys1 Hsize H Hstep).
Qed.

(** X16.  The work queue gives the first fit, whatever the order in which
    the workers take and end their tests.  When [placeClient] stops
    waiting, no test is running, [g_bestWorkQueueIndex] is at most the size
    of the queue, every server before it in the queue has been tested and
    has refused the workload, and, when it is below the size of the queue,
    the server at that index has admitted the workload. *)
Theorem work_queue_first_fit (sys0 sys : System) :
  (Z.of_nat (length (g_workQueue (globals sys0))) < 2 ^ 32)%Z ->
  started sys0 -> rtc step sys0 sys -> complete (globals sys) ->
  g_workQueue (globals sys) = g_workQueue (globals sys0) /\
  testing sys = [] /\
  (0 <= g_bestWorkQueueIndex (globals sys)
     <= Z.of_nat (length (g_workQueue (globals sys))))%Z /\
  (forall i, (0 <= i < g_bestWorkQueueIndex (globals sys))%Z ->
     verdicts sys !! i = Some false) /\
  ((g_bestWorkQueueIndex (globals sys) < Z.of_nat (length (g_workQueue (globals sys))))%Z ->
   verdicts sys !! g_bestWorkQueueIndex (globals sys) = Some true).
Proof.
  intros Hsize Hstart Hrun [Hidle Hgiven].
  destruct (run_placing _ _ _ Hsize (started_placing _ Hstart) Hrun)
    as (issued & Hqueue & Hissued & Hnext & Hout & Hlen & Hnd & Htesting & Hdone
        & Hverdicts & Hbest & Hbest_true & Hleast).
  cbv zeta in *. rewrite Hqueue in *.
  assert (Hnone : testing sys = []).
  { destruct (testing sys); [reflexivity|]. cbn [length] in Hout. lia. }
  split; [reflexivity|]. split; [exact Hnone|]. split; [exact Hbest|]. split; [|exact Hbest_true].
  intros i Hi.
  assert (Hi' : (0 <= i < issued)%Z).
  { destruct Hnext as [Hnext | [_ Hnext]]; lia. }
  destruct (Hdone i Hi') as [H | [v Hv]]; [rewrite Hnone in H; inversion H|].
  destruct v; [|exact Hv]. specialize (Hleast i Hv). lia.
Qed.

(** [work_queue_first_fit] on the queue of two servers: the second server
    is the first fit. *)
Lemma work_queue_first_fit_witness :
  rtc step twoServers twoServersTested /\
  g_bestWorkQueueIndex (globals twoServersTested) = 1%Z /\
  verdicts twoServersTested !! 0%Z = Some false /\
  verdicts twoServersTested !! 1%Z = Some true.
Proof.
  assert (Hrun : rtc step twoServers twoServersTested).
  { eapply rtc_l; [eapply step_nextWork; reflexivity|].
    eapply rtc_l; [eapply step_nextWork; reflexivity|].
    eapply rtc_l; [eapply (step_workComplete _ [] 1 [0%Z] true); reflexivity|].
    eapply rtc_l; [eapply (step_workComplete _ [] 0 [] false); reflexivity|].
    apply rtc_refl. }
  destruct (work_queue_first_fit twoServers twoServersTested)
    as (_ & _ & _ & Hbefore & Hbest).
  - reflexivity.
  - repeat split.
  - exact Hrun.
  - split; cbn; lia.
  - split; [exact Hrun|]. split; [reflexivity|].
    split; [apply Hbefore; cbn; lia | apply Hbest; cbn; lia].
Defined.

End PlacementController.
